(** * simple-proxy: a shallow embedding of the streaming proxy's core

    The development follows the TypeScript sources of the proxy:
    - [Range]      : [parseRangeHeader]            (routes/mp4-proxy variants)
    - [Chunks], [ChunkManager] : [MP4ChunkManager]
    - [HotTier]    : the in-process [segmentCache] map, [cleanupCache],
                     [getCachedSegment], [getCachedChunk], [prefetchMP4Chunk]
    - [Prefetch]   : [prefetchMP4Chunks] and the two halves of
                     [prefetchMP4Chunk] around its [await]
    - [WarmTier], [WarmChunks] : [RedisCache] (utils/redis-cache.ts) and the
                     guard of the segment route (routes/s.ts)
    - [Analytics]  : [CacheAnalytics]
    - [Resolver]   : [parseURL]; [Reference] describes the text of a
                     reference
    - [Playlist]   : the line rewriting of [proxyM3U8] (routes/m3u8-proxy.ts)
    - [Mp4Route]   : the range negotiation of [proxyMP4] (routes/s.ts)
    - [Adaptive]   : browser detection, segments, progressive streaming and
                     the choice of a handler in the adaptive MP4 route

    Conventions.  A JavaScript string is a Rocq [string] whose characters
    are UTF-16 code units below 256; [Buffer.from(s)] is its UTF-8
    encoding.  A JavaScript number holding an integer is a [Z]; every
    quantity below stays inside the exactly representable range as long as
    sizes and instants are safe integers, which is what the sources assume.
    Byte buffers are [list byte].  An object used as a header map appears
    either as an association list or, where only its JSON text matters, as
    that text.

    The functions of the runtime that the sources call and that are not
    part of the repository ([new URL], [JSON.parse], [JSON.stringify],
    [gzip], [gunzip], the lenient base64 decoder of [Buffer.from]) are
    variables of the sections that use them.  The [Sample] modules give small
    instances of them, used only to evaluate the code on concrete inputs.
    Base64 and URI component encoding, which fix the form of the proxy
    URLs, are defined in full. *)

From Stdlib Require Import ZArith NArith List String Ascii Bool Lia DecimalString.
From Stdlib Require Import Permutation Sorted DecimalPos.
From Stdlib.Strings Require Import Byte.
From stdpp Require Import gmap strings.
Import ListNotations.

#[local] Open Scope string_scope.
#[local] Open Scope Z_scope.

(** ** Strings as the JavaScript runtime sees them *)

Module JS.

(** A string is truthy unless it is empty. *)
Definition truthy (s : string) : bool :=
  match s with EmptyString => false | String _ _ => true end.

Definition code (c : ascii) : Z := Z.of_N (N_of_ascii c).

(** [\d] *)
Definition isDigit (c : ascii) : bool := (48 <=? code c) && (code c <=? 57).

(** [\s] and the characters removed by [trim], for code units below 256:
    TAB, LF, VT, FF, CR, SPACE and NBSP. *)
Definition isSpace (c : ascii) : bool :=
  ((9 <=? code c) && (code c <=? 13)) || (code c =? 32) || (code c =? 160).

Fixpoint all (p : ascii -> bool) (s : string) : bool :=
  match s with
  | EmptyString => true
  | String c r => p c && all p r
  end.

(** [s.trim()] used as a condition: some character is not white space. *)
Definition trimTruthy (s : string) : bool := negb (all isSpace s).

(** The rest of [s] after the prefix [p], when [s] starts with it. *)
Fixpoint stripPrefix (p s : string) : option string :=
  match p, s with
  | EmptyString, _ => Some s
  | String a p', String b s' =>
      if Ascii.eqb a b then stripPrefix p' s' else None
  | String _ _, EmptyString => None
  end.

(** [s.startsWith(p)] *)
Definition startsWith (s p : string) : bool :=
  match stripPrefix p s with Some _ => true | None => false end.

(** [s.includes(p)] *)
Fixpoint includes (s p : string) : bool :=
  startsWith s p ||
  match s with
  | EmptyString => false
  | String _ r => includes r p
  end.

(** Greedy [\d*]: the longest run of digits and what follows it. *)
Fixpoint spanDigits (s : string) : string * string :=
  match s with
  | String c r =>
      if isDigit c then let '(d, t) := spanDigits r in (String c d, t)
      else (EmptyString, s)
  | EmptyString => (EmptyString, EmptyString)
  end.

(** [parseInt(s, 10)] on a string of decimal digits. *)
Fixpoint parseIntFrom (acc : Z) (s : string) : Z :=
  match s with
  | EmptyString => acc
  | String c r => parseIntFrom (10 * acc + (code c - 48)) r
  end.

Definition parseInt (s : string) : Z := parseIntFrom 0 s.

(** [s.split(sep)] for a separator of one character. *)
Fixpoint splitOn (sep : ascii) (s : string) : list string :=
  match s with
  | EmptyString => [EmptyString]
  | String c r =>
      if Ascii.eqb c sep then EmptyString :: splitOn sep r
      else match splitOn sep r with
           | l :: ls => String c l :: ls
           | [] => [String c EmptyString]
           end
  end.

Definition LF : ascii := "010"%char.

(** [s.split("\n")] *)
Definition splitLines (s : string) : list string := splitOn LF s.

(** [lines.join("\n")] *)
Fixpoint joinLines (ls : list string) : string :=
  match ls with
  | [] => EmptyString
  | [l] => l
  | l :: rest => l ++ String LF (joinLines rest)
  end.

(** What follows a greedy run of digits is empty or starts with a non-digit. *)
Definition noDigitAhead (s : string) : Prop :=
  match s with
  | EmptyString => True
  | String c _ => isDigit c = false
  end.

(** Characters other than a given one. *)
Definition isNot (x c : ascii) : bool := negb (Ascii.eqb c x).

End JS.

(** ** Range negotiation: [parseRangeHeader] *)

Module Range.
Import JS.

(** The result of [parseRangeHeader]; the content length and the bounds
    are integers that a JavaScript number holds exactly. *)
Record range := mkRange { start : Z; end_ : Z }.

(** [rangeHeader.match] against the anchored pattern [bytes=], digits,
    [-], digits, end of input: the two captured runs of digits.
    Both runs of digits are greedy and are followed by a non-digit or by
    the end of the input, so no backtracking is involved. *)
Definition matchRange (rangeHeader : string) : option (string * string) :=
  match stripPrefix "bytes=" rangeHeader with
  | None => None
  | Some r =>
      let '(startStr, r1) := spanDigits r in
      match r1 with
      | String "-"%char r2 =>
          let '(endStr, r3) := spanDigits r2 in
          match r3 with
          | EmptyString => Some (startStr, endStr)
          | String _ _ => None
          end
      | _ => None
      end
  end.

Definition parseRangeHeader (rangeHeader : string) (contentLength : Z)
  : option range :=
  match matchRange rangeHeader with
  | None => None
  | Some (startStr, endStr) =>
      let start0 := if truthy startStr then parseInt startStr else 0 in
      let end0 := if truthy endStr then parseInt endStr else contentLength - 1 in
      (* suffix-byte-range-spec *)
      let '(start1, end1) :=
        if negb (truthy startStr) && truthy endStr
        then (Z.max 0 (contentLength - end0), contentLength - 1)
        else (start0, end0) in
      if (start1 >=? contentLength) || (end1 >=? contentLength) || (start1 >? end1)
      then None
      else Some (mkRange start1 end1)
  end.

(** *** The reference definition of the specification *)

(** A non-empty or empty run of decimal digits. *)
Definition digits (s : string) : Prop := all isDigit s = true.

(** The single form [bytes=<digits?>-<digits?>]. *)
Definition singleForm (h : string) : Prop :=
  exists a b, digits a /\ digits b /\ h = "bytes=" ++ a ++ "-" ++ b.

(** "Invalid if start >= contentLength, end >= contentLength, or
    start > end; returns null in all invalid cases." *)
Definition validated (L s e : Z) : option range :=
  if Z_le_dec L s then None
  else if Z_le_dec L e then None
  else if Z_lt_dec e s then None
  else Some (mkRange s e).

Inductive parseRange_spec (L : Z) : string -> option range -> Prop :=
| spec_both n m :
    digits n -> digits m -> n <> "" -> m <> "" ->
    parseRange_spec L ("bytes=" ++ n ++ "-" ++ m)
                    (validated L (parseInt n) (parseInt m))
| spec_open n :
    digits n -> n <> "" ->
    parseRange_spec L ("bytes=" ++ n ++ "-") (validated L (parseInt n) (L - 1))
| spec_suffix n :
    digits n -> n <> "" ->
    parseRange_spec L ("bytes=-" ++ n)
                    (validated L (Z.max 0 (L - parseInt n)) (L - 1))
| spec_other h :
    ~ singleForm h -> parseRange_spec L h None.

End Range.


(** ** Byte buffers: UTF-8, base64 and URI component encoding *)

Module Utf8.

Definition byteOf (n : N) : byte :=
  match Byte.of_N n with Some b => b | None => x00 end.

(** UTF-8 encoding of one code unit below 256. *)
Definition encodeChar (c : ascii) : list byte :=
  let n := N_of_ascii c in
  if (n <? 128)%N then [byteOf n]
  else [byteOf (192 + n / 64); byteOf (128 + n mod 64)].

(** [Buffer.from(s)] *)
Fixpoint encode (s : string) : list byte :=
  match s with
  | EmptyString => []
  | String c r => encodeChar c ++ encode r
  end.

(** [buf.toString('utf-8')], defined on the buffers that hold code units
    below 256 in their shortest form. *)
Fixpoint decode (bs : list byte) : option string :=
  match bs with
  | [] => Some EmptyString
  | b :: r =>
      let n := Byte.to_N b in
      if (n <? 128)%N then option_map (String (ascii_of_N n)) (decode r)
      else
        match r with
        | b2 :: r' =>
            let m := Byte.to_N b2 in
            if ((n =? 194)%N || (n =? 195)%N) && (128 <=? m)%N && (m <? 192)%N
            then option_map (String (ascii_of_N ((n - 192) * 64 + (m - 128))))
                            (decode r')
            else None
        | [] => None
        end
  end.

End Utf8.

Module Base64.
Import Utf8.

Definition alphabet : string :=
  "ABCDEFGHIJKLMNOPQRSTUVWXYZabcdefghijklmnopqrstuvwxyz0123456789+/".

Definition pad : ascii := "="%char.

(** The character of a six-bit value. *)
Definition b64char (n : N) : ascii :=
  match String.get (N.to_nat n) alphabet with
  | Some c => c
  | None => pad
  end.

(** The six-bit value of a character of the alphabet. *)
Definition b64val (c : ascii) : option N :=
  let n := N_of_ascii c in
  if (65 <=? n)%N && (n <=? 90)%N then Some (n - 65)%N
  else if (97 <=? n)%N && (n <=? 122)%N then Some (n - 71)%N
  else if (48 <=? n)%N && (n <=? 57)%N then Some (n + 4)%N
  else if (n =? 43)%N then Some 62%N
  else if (n =? 47)%N then Some 63%N
  else None.

(** [buf.toString('base64')]: the standard alphabet with padding. *)
Fixpoint encode (bs : list byte) : string :=
  match bs with
  | [] => EmptyString
  | [a] =>
      let x := Byte.to_N a in
      String (b64char (x / 4))
        (String (b64char ((x mod 4) * 16)) (String pad (String pad EmptyString)))
  | [a; b] =>
      let x := Byte.to_N a in
      let y := Byte.to_N b in
      String (b64char (x / 4))
        (String (b64char ((x mod 4) * 16 + y / 16))
           (String (b64char ((y mod 16) * 4)) (String pad EmptyString)))
  | a :: b :: c :: r =>
      let x := Byte.to_N a in
      let y := Byte.to_N b in
      let z := Byte.to_N c in
      String (b64char (x / 4))
        (String (b64char ((x mod 4) * 16 + y / 16))
           (String (b64char ((y mod 16) * 4 + z / 64))
              (String (b64char (z mod 64)) (encode r))))
  end%N.

(** Decoding of padded base64 text (RFC 4648); [None] on text that is not
    well formed. *)
Fixpoint decode (s : string) : option (list byte) :=
  match s with
  | EmptyString => Some []
  | String c0 (String c1 (String c2 (String c3 r))) =>
      match b64val c0, b64val c1 with
      | Some v0, Some v1 =>
          let b0 := byteOf (v0 * 4 + v1 / 16) in
          if Ascii.eqb c2 pad then
            if Ascii.eqb c3 pad && negb (JS.truthy r) then Some [b0] else None
          else
            match b64val c2 with
            | Some v2 =>
                let b1 := byteOf ((v1 mod 16) * 16 + v2 / 4) in
                if Ascii.eqb c3 pad then
                  if negb (JS.truthy r) then Some [b0; b1] else None
                else
                  match b64val c3 with
                  | Some v3 =>
                      let b2 := byteOf ((v2 mod 4) * 64 + v3) in
                      option_map (fun t => b0 :: b1 :: b2 :: t) (decode r)
                  | None => None
                  end
            | None => None
            end
      | _, _ => None
      end
  | _ => None
  end%N.

(** [Buffer.from(s).toString('base64')] and its inverse on strings. *)
Definition encodeString (s : string) : string := encode (Utf8.encode s).

Definition decodeString (s : string) : option string :=
  match decode s with
  | Some bs => Utf8.decode bs
  | None => None
  end.

End Base64.

Module URI.

Definition hexDigit (n : N) : ascii :=
  match String.get (N.to_nat n) "0123456789ABCDEF" with
  | Some c => c
  | None => "0"%char
  end.

(** The characters [encodeURIComponent] leaves alone: letters, digits and
    [- _ . ! ~ * ' ( )]. *)
Definition unreserved (c : ascii) : bool :=
  let n := JS.code c in
  ((65 <=? n) && (n <=? 90)) || ((97 <=? n) && (n <=? 122)) ||
  ((48 <=? n) && (n <=? 57)) ||
  (n =? 45) || (n =? 95) || (n =? 46) || (n =? 33) || (n =? 126) ||
  (n =? 42) || (n =? 39) || (n =? 40) || (n =? 41).

Definition escapeByte (b : byte) : string :=
  let n := Byte.to_N b in
  String "%"%char (String (hexDigit (n / 16)) (String (hexDigit (n mod 16)) EmptyString)).

Fixpoint escapeBytes (bs : list byte) : string :=
  match bs with
  | [] => EmptyString
  | b :: r => escapeByte b ++ escapeBytes r
  end.

Fixpoint encodeURIComponent (s : string) : string :=
  match s with
  | EmptyString => EmptyString
  | String c r =>
      (if unreserved c then String c EmptyString
       else escapeBytes (Utf8.encodeChar c)) ++ encodeURIComponent r
  end.

(** Decimal text of an integer, as a template literal prints it. *)
Definition showZ (z : Z) : string := NilZero.string_of_int (Z.to_int z).

End URI.

(** ** Fixed-size chunk manifests: [MP4ChunkManager] *)

Module Chunks.

Record MP4ChunkInfo := mkChunk {
  index : Z;
  start : Z;
  end_ : Z;
  size : Z;
  url : string
}.

Record MP4Manifest := mkManifest {
  m_url : string;
  totalSize : Z;
  chunkSize : Z;
  totalChunks : Z;
  chunks : list MP4ChunkInfo;
  headers : string
}.

Definition DEFAULT_CHUNK_SIZE : Z := 256 * 1024.

(** [Math.ceil(a / b)] for integers [a] and [b <> 0]. *)
Definition ceilDiv (a b : Z) : Z := - ((- a) / b).

(** [getChunkUrl]; [headersJson] is the text [JSON.stringify(headers)]. *)
Definition getChunkUrl (url : string) (chunkIndex : Z) (headersJson : string)
  : string :=
  "/mp4-proxy?url=" ++ URI.encodeURIComponent url ++ "&chunk="
    ++ URI.showZ chunkIndex ++ "&headers=" ++ URI.encodeURIComponent headersJson.

(** The body of the [for] loop for chunk [i]. *)
Definition chunkAt (url headersJson : string) (totalSize chunkSize i : Z)
  : MP4ChunkInfo :=
  let start := i * chunkSize in
  let end_ := Z.min (start + chunkSize - 1) (totalSize - 1) in
  let size := end_ - start + 1 in
  mkChunk i start end_ size (getChunkUrl url i headersJson).

(** The loop [for (let i = 0; i < totalChunks; i++)], with [n] iterations
    left and counter [i]. *)
Fixpoint chunkLoop (url headersJson : string) (totalSize chunkSize : Z)
  (n : nat) (i : Z) : list MP4ChunkInfo :=
  match n with
  | O => []
  | S n' =>
      chunkAt url headersJson totalSize chunkSize i
        :: chunkLoop url headersJson totalSize chunkSize n' (i + 1)
  end.

(** [customChunkSize || this.chunkSize]: the field of the manager when the
    argument is absent or zero. *)
Definition effectiveChunkSize (thisChunkSize : Z) (customChunkSize : option Z)
  : Z :=
  match customChunkSize with
  | Some c => if c =? 0 then thisChunkSize else c
  | None => thisChunkSize
  end.

(** [generateManifest] of a manager whose field [chunkSize] is
    [thisChunkSize].  With a chunk size of zero the quotient is infinite or
    not a number, and the source either never leaves the loop or reports no
    chunk count: the model returns [None] there. *)
Definition generateManifest (thisChunkSize : Z) (url : string) (totalSize : Z)
  (headersJson : string) (customChunkSize : option Z) : option MP4Manifest :=
  let chunkSize := effectiveChunkSize thisChunkSize customChunkSize in
  if chunkSize =? 0 then None
  else
    let totalChunks := ceilDiv totalSize chunkSize in
    Some (mkManifest url totalSize chunkSize totalChunks
            (chunkLoop url headersJson totalSize chunkSize
                       (Z.to_nat totalChunks) 0)
            headersJson).

End Chunks.

(** ** The hot tier: the in-process [segmentCache] map *)

Module HotTier.

Record CacheEntry := mkEntry {
  data : list byte;
  headers : list (string * string);
  timestamp : Z;
  range : option string  (* only the MP4 chunk cache stores it *)
}.

(** A JavaScript [Map] with string keys: the entries in insertion order,
    no key twice. *)
Definition JSMap : Type := list (string * CacheEntry).

Fixpoint map_get (k : string) (m : JSMap) : option CacheEntry :=
  match m with
  | [] => None
  | (k', v) :: r => if String.eqb k' k then Some v else map_get k r
  end.

(** [m.set(k, v)]: an existing key keeps its place, a new key goes last. *)
Fixpoint map_set (k : string) (v : CacheEntry) (m : JSMap) : JSMap :=
  match m with
  | [] => [(k, v)]
  | (k', v') :: r =>
      if String.eqb k' k then (k, v) :: r else (k', v') :: map_set k v r
  end.

Fixpoint map_delete (k : string) (m : JSMap) : JSMap :=
  match m with
  | [] => []
  | (k', v') :: r =>
      if String.eqb k' k then r else (k', v') :: map_delete k r
  end.

Definition map_size (m : JSMap) : Z := Z.of_nat (length m).

Definition keys (m : JSMap) : list string := List.map fst m.

(** [entries.sort((a, b) => a[1].timestamp - b[1].timestamp)]: the sort of
    the runtime is stable, so its result is the one of a stable insertion
    sort. *)
Fixpoint insertByTime (x : string * CacheEntry) (l : JSMap) : JSMap :=
  match l with
  | [] => [x]
  | y :: r =>
      if timestamp (snd x) <=? timestamp (snd y) then x :: y :: r
      else y :: insertByTime x r
  end.

Definition sortByTime (l : JSMap) : JSMap := fold_right insertByTime [] l.

(** The order of the sort: not younger than. *)
Definition byTime (a b : string * CacheEntry) : Prop :=
  timestamp (snd a) <= timestamp (snd b).

(** The answer of the upstream server to a prefetch: the body and the
    headers of a successful response, or nothing when the fetch fails or
    the status is not a success. *)
Definition response : Type := option (list byte * list (string * string)).

Section Tier.

Variable CACHE_MAX_SIZE : Z.
Variable CACHE_EXPIRY_MS : Z.

Definition expired (now : Z) (entry : CacheEntry) : bool :=
  now - timestamp entry >? CACHE_EXPIRY_MS.

(** The first loop of [cleanupCache]: walk the entries, delete the expired
    ones. *)
Definition sweepExpired (now : Z) (m : JSMap) : JSMap :=
  fold_left
    (fun acc kv => if expired now (snd kv) then map_delete (fst kv) acc else acc)
    m m.

(** The second part of [cleanupCache]: above capacity, delete the first
    [size - CACHE_MAX_SIZE] entries of the entries sorted by timestamp. *)
Definition evictOldest (m : JSMap) : JSMap :=
  if map_size m >? CACHE_MAX_SIZE then
    let entries := sortByTime m in
    let toRemove := firstn (Z.to_nat (map_size m - CACHE_MAX_SIZE)) entries in
    fold_left (fun acc kv => map_delete (fst kv) acc) toRemove m
  else m.

(** [cleanupCache], with [now] the value of [Date.now()]; the result is
    the map it leaves, whose size it returns. *)
Definition cleanupCache (now : Z) (m : JSMap) : JSMap :=
  evictOldest (sweepExpired now m).

(** [getCachedSegment] and [getCachedChunk] after the key is built:
    the value returned and the map left behind. *)
Definition getCached (disabled : bool) (now : Z) (key : string) (m : JSMap)
  : option CacheEntry * JSMap :=
  if disabled then (None, m)
  else
    match map_get key m with
    | Some entry =>
        if now - timestamp entry >? CACHE_EXPIRY_MS
        then (None, map_delete key m)
        else (Some entry, m)
    | None => (None, m)
    end.

Definition rangeText (start end_ : Z) : string :=
  "bytes=" ++ URI.showZ start ++ "-" ++ URI.showZ end_.

Definition chunkKey (url range : string) : string := url ++ ":" ++ range.

(** [prefetchMP4Chunk], the only writer of the map.  [t0], [t1] and [t2]
    are the three readings of [Date.now()] (in [cleanupCache], before the
    fetch and at the store), [resp] the answer of the upstream server.
    The call is taken as one step, which is what happens when calls run
    one after another: nothing else touches the map while it waits for
    the fetch.  Calls that wait at the same time are the subject of
    [Prefetch] below. *)
Definition prefetchMP4Chunk (disabled : bool) (t0 t1 t2 : Z)
  (url : string) (start end_ : Z) (resp : response) (m : JSMap) : JSMap :=
  if disabled then m
  else
    let m1 := if map_size m >=? CACHE_MAX_SIZE then cleanupCache t0 m else m in
    let range := rangeText start end_ in
    let cacheKey := chunkKey url range in
    let fresh :=
      match map_get cacheKey m1 with
      | Some existing => t1 - timestamp existing <=? CACHE_EXPIRY_MS
      | None => false
      end in
    if fresh then m1
    else
      match resp with
      | None => m1
      | Some (body, responseHeaders) =>
          map_set cacheKey (mkEntry body responseHeaders t2 (Some range)) m1
      end.

(** A history of the map: inserts through [prefetchMP4Chunk] and runs of
    the periodic sweep. *)
Inductive op : Type :=
| Prefetch (t0 t1 t2 : Z) (url : string) (start end_ : Z) (resp : response)
| Sweep (now : Z).

Definition step (disabled : bool) (m : JSMap) (o : op) : JSMap :=
  match o with
  | Prefetch t0 t1 t2 url start end_ resp =>
      prefetchMP4Chunk disabled t0 t1 t2 url start end_ resp m
  | Sweep now => cleanupCache now m
  end.

Definition run (disabled : bool) (ops : list op) (m : JSMap) : JSMap :=
  fold_left (step disabled) ops m.

End Tier.

(** The segment cache of routes/m3u8-proxy.ts. *)
Module Segment.
Definition CACHE_MAX_SIZE : Z := 2000.
Definition CACHE_EXPIRY_MS : Z := 2 * 60 * 60 * 1000.
Definition cleanupCache : Z -> JSMap -> JSMap :=
  HotTier.cleanupCache CACHE_MAX_SIZE CACHE_EXPIRY_MS.
(** [disabled] is [config.DISABLE_CACHE]. *)
Definition getCachedSegment (disabled : bool) (now : Z) (url : string)
  (m : JSMap) : option CacheEntry * JSMap :=
  getCached CACHE_EXPIRY_MS disabled now url m.

(** A cache holding one segment, stored at instant 0. *)
Definition storedSegment : CacheEntry := mkEntry [] [] 0 None.
Definition oneSegment : JSMap := [("http://host/a/seg1.ts", storedSegment)].
End Segment.

(** The MP4 chunk cache of the caching MP4 route. *)
Module Chunk.
Definition CACHE_MAX_SIZE : Z := 500.
Definition CACHE_EXPIRY_MS : Z := 4 * 60 * 60 * 1000.
Definition CHUNK_SIZE : Z := 10 * 1024 * 1024.
Definition cleanupCache : Z -> JSMap -> JSMap :=
  HotTier.cleanupCache CACHE_MAX_SIZE CACHE_EXPIRY_MS.
(** [disabled] is [process.env.DISABLE_CACHE === 'true']. *)
Definition getCachedChunk (disabled : bool) (now : Z) (url range : string)
  (m : JSMap) : option CacheEntry * JSMap :=
  getCached CACHE_EXPIRY_MS disabled now (chunkKey url range) m.
Definition prefetchMP4Chunk :
  bool -> Z -> Z -> Z -> string -> Z -> Z -> response -> JSMap -> JSMap :=
  HotTier.prefetchMP4Chunk CACHE_MAX_SIZE CACHE_EXPIRY_MS.
Definition run : bool -> list op -> JSMap -> JSMap :=
  HotTier.run CACHE_MAX_SIZE CACHE_EXPIRY_MS.

(** A burst of traffic: the first 10 MB window of [n] distinct files,
    numbered from [k], prefetched at instant 0, each answered with an
    empty body. *)
Fixpoint burst (n : nat) (k : Z) : list op :=
  match n with
  | O => []
  | S n' =>
      Prefetch 0 0 0 ("http://host/v" ++ URI.showZ k ++ ".mp4")
               0 (CHUNK_SIZE - 1) (Some ([], []))
        :: burst n' (k + 1)
  end.
End Chunk.

End HotTier.

(** ** The warm tier: [RedisCache] and the guard of the segment route *)

Module WarmTier.

Definition Headers : Type := list (string * string).

Record CacheEntry := mkEntry {
  data : list byte;
  headers : Headers;
  timestamp : Z
}.

(** [CacheStorageFormat], the envelope kept on the server. *)
Record CacheStorageFormat := mkStored {
  sf_data : string;          (* base64 *)
  sf_headers : Headers;
  sf_timestamp : Z;
  version : option Z         (* 1 or absent: legacy, 2: compressed *)
}.

(** The fields of a [RedisCache] object.  [client] holds the keys of the
    server the client talks to, each with the expiry it was written with;
    it is [None] when no client was created. *)
Record RedisCache := mkRedis {
  client : option (gmap string (Z * string));
  isConnected : bool;
  redisEnabled : bool
}.

Record Config := mkConfig { DISABLE_CACHE : bool }.

Definition CACHE_EXPIRY_SECONDS : Z := 2 * 60 * 60.

Definition getCacheKey (url : string) : string :=
  "ts_segment:" ++ Base64.encodeString url.

Section Platform.

(** The runtime functions the class calls.  [JSON_parse] answers [None]
    when the text is not JSON or not an envelope; [gunzip] answers [None]
    when the buffer is not a gzip stream; [fromBase64] is the lenient
    decoder [Buffer.from(s, 'base64')], which never fails. *)
Variable JSON_parse : string -> option CacheStorageFormat.
Variable JSON_stringify : CacheStorageFormat -> string.
Variable gzip : list byte -> list byte.
Variable gunzip : list byte -> option (list byte).
Variable fromBase64 : string -> list byte.

(** [RedisCache.get]: every failure inside the [try] is a miss. *)
Definition get (this : RedisCache) (url : string) : option CacheEntry :=
  match isConnected this, client this with
  | true, Some store =>
      let key := getCacheKey url in
      match store !! key with
      | None => None
      | Some (_, text) =>
          if negb (JS.truthy text) then None
          else
            match JSON_parse text with
            | None => None
            | Some parsed =>
                let rawData := fromBase64 (sf_data parsed) in
                let finalData :=
                  match version parsed with
                  | Some 2 => gunzip rawData
                  | _ => Some rawData
                  end in
                match finalData with
                | None => None
                | Some bytes =>
                    Some (mkEntry bytes (sf_headers parsed) (sf_timestamp parsed))
                end
            end
      end
  | _, _ => None
  end.

(** [RedisCache.set] *)
Definition set (this : RedisCache) (url : string) (entry : CacheEntry)
  : RedisCache :=
  match isConnected this, client this with
  | true, Some store =>
      let key := getCacheKey url in
      let compressedData := gzip (data entry) in
      let dataToStore :=
        mkStored (Base64.encode compressedData) (headers entry)
                 (timestamp entry) (Some 2) in
      mkRedis
        (Some (<[key := (CACHE_EXPIRY_SECONDS, JSON_stringify dataToStore)]> store))
        (isConnected this) (redisEnabled this)
  | _, _ => this
  end.

(** [RedisCache.delete] *)
Definition delete (this : RedisCache) (url : string) : RedisCache :=
  match isConnected this, client this with
  | true, Some store =>
      mkRedis (Some (base.delete (getCacheKey url) store))
              (isConnected this) (redisEnabled this)
  | _, _ => this
  end.

(** [RedisCache.isCacheDisabled] *)
Definition isCacheDisabled (config : Config) (this : RedisCache) : bool :=
  DISABLE_CACHE config || negb (redisEnabled this) || negb (isConnected this).

(** *** The segment route (routes/s.ts) *)

Definition DISABLE_TS_CACHE : bool := false.

(** The [isCacheDisabled] of the route. *)
Definition routeCacheDisabled (config : Config) (rc : RedisCache) : bool :=
  DISABLE_TS_CACHE || DISABLE_CACHE config || isCacheDisabled config rc.

(** The cache lookup of the route: "only check cache if caching is
    enabled". *)
Definition routeLookup (config : Config) (rc : RedisCache) (url : string)
  : option CacheEntry :=
  if negb (routeCacheDisabled config rc) then get rc url else None.

(** The store after an upstream fetch: only when caching is enabled, and
    only when the segment is not there already. *)
Definition routeStore (config : Config) (rc : RedisCache) (url : string)
  (entry : CacheEntry) : RedisCache :=
  if negb (routeCacheDisabled config rc) then
    match get rc url with
    | Some _ => rc
    | None => set rc url entry
    end
  else rc.

End Platform.

(** *** A small instance of the runtime, for evaluating the class on
    concrete stores.  Envelopes are written as four fields separated by
    [;] (version, timestamp, content type, data), which is all the segment
    route ever stores; the compression only adds the two magic bytes of
    gzip. *)
Module Sample.

Definition JSON_stringify (e : CacheStorageFormat) : string :=
  match version e with Some v => URI.showZ v | None => "" end
  ++ ";" ++ URI.showZ (sf_timestamp e)
  ++ ";" ++ match sf_headers e with (_, ct) :: _ => ct | [] => "" end
  ++ ";" ++ sf_data e.

Definition JSON_parse (text : string) : option CacheStorageFormat :=
  match JS.splitOn ";" text with
  | [v; t; ct; d] =>
      Some (mkStored d [("content-type", ct)] (JS.parseInt t)
              (if JS.truthy v then Some (JS.parseInt v) else None))
  | _ => None
  end.

Definition gzip (bs : list byte) : list byte := x1f :: x8b :: bs.

Definition gunzip (bs : list byte) : option (list byte) :=
  match bs with
  | x1f :: x8b :: r => Some r
  | _ => None
  end.

Definition fromBase64 (s : string) : list byte :=
  match Base64.decode s with Some bs => bs | None => [] end.

Definition segmentUrl : string := "http://host/a/seg1.ts".

Definition storeWith (text : string) : gmap string (Z * string) :=
  <[getCacheKey segmentUrl := (CACHE_EXPIRY_SECONDS, text)]> ∅.

Definition connected (text : string) : RedisCache :=
  mkRedis (Some (storeWith text)) true true.

(** The two bytes of "hi" as a segment. *)
Definition entry : CacheEntry :=
  mkEntry [x68; x69] [("content-type", "video/mp2t")] 5.

Definition legacyText : string := ";5;video/mp2t;aGk=".
Definition version1Text : string := "1;5;video/mp2t;aGk=".
Definition version2Text : string := "2;5;video/mp2t;H4toaQ==".

End Sample.

End WarmTier.

(** ** The URL resolver: [parseURL] *)

Module Resolver.
Import JS.

(** What the code reads from a [URL] object. *)
Record URL := mkURL { href : string; hostname : string }.

(** A call either returns or throws. *)
Inductive outcome (A : Type) : Type :=
| Returns (a : A)
| Throws.
Arguments Returns {A} a.
Arguments Throws {A}.

(** Sequencing: an exception ends what follows. *)
Definition bind {A B : Type} (c : outcome A) (k : A -> outcome B) : outcome B :=
  match c with
  | Returns a => k a
  | Throws => Throws
  end.

Notation "'attempt' x <- c 'in' k" := (bind c (fun x => k))
  (at level 10, x name, c at level 100, k at level 200).

(** The groups of the pattern of [parseURL]: 1 the scheme with its colon,
    3 the host name, 4 the port, 5 the rest. *)
Record groups := mkGroups {
  g_scheme : option string;
  g_host : string;
  g_port : option string;
  g_rest : string
}.

Definition lower (c : ascii) : ascii :=
  if (65 <=? code c) && (code c <=? 90)
  then ascii_of_N (N_of_ascii c + 32) else c.

(** [stripPrefix] ignoring the case of letters, for a lower-case prefix;
    the result also holds the prefix as it was written. *)
Fixpoint stripPrefixCI (p s : string) : option (string * string) :=
  match p, s with
  | EmptyString, _ => Some (EmptyString, s)
  | String a p', String b s' =>
      if Ascii.eqb a (lower b) then
        match stripPrefixCI p' s' with
        | Some (w, r) => Some (String b w, r)
        | None => None
        end
      else None
  | String _ _, EmptyString => None
  end.

(** A character of the class [[^/?]]. *)
Definition isHostChar (c : ascii) : bool :=
  negb (Ascii.eqb c "/" || Ascii.eqb c "?").

(** A character of a host name that is not a colon either. *)
Definition isPlainHostChar (c : ascii) : bool :=
  isHostChar c && negb (Ascii.eqb c ":").

(** The look-ahead after the port and the last group: a slash or a
    question mark comes next, or the input ends. *)
Definition atBoundary (s : string) : bool :=
  match s with
  | EmptyString => true
  | String c _ => negb (isHostChar c)
  end.

(** The optional group of the port: a colon, at most five digits, and the
    look-ahead.  The digits are taken greedily; giving some back leaves a
    digit in front of the look-ahead, which then fails. *)
Definition matchPort (s : string) : option (string * string) :=
  match s with
  | String ":"%char r =>
      let '(d, t) := spanDigits r in
      if (String.length d <=? 5)%nat && atBoundary t then Some (d, t) else None
  | _ => None
  end.

(** The lazy host name: [host] has been taken; try to finish the match
    here, and take one more character when that fails. *)
Fixpoint matchHost (host s : string) : option (string * option string * string) :=
  match matchPort s with
  | Some (p, t) => Some (host, Some p, t)
  | None =>
      if atBoundary s then Some (host, None, s)
      else
        match s with
        | String c r =>
            if isHostChar c then matchHost (host ++ String c EmptyString) r
            else None
        | EmptyString => None
        end
  end.

(** Host, port and rest, from a position where the host name starts. *)
Definition matchAuthority (s : string) : option (string * option string * string) :=
  match s with
  | String c r => if isHostChar c then matchHost (String c EmptyString) r else None
  | EmptyString => None
  end.

Definition withScheme (sch : option string)
  (m : option (string * option string * string)) : option groups :=
  match m with
  | Some (h, p, r) => Some (mkGroups sch h p r)
  | None => None
  end.

(** [req_url.match(...)] with the pattern of [parseURL].  The optional
    prefix is tried with a scheme and two slashes, then with two slashes
    alone, then left out. *)
Definition matchURL (req_url : string) : option groups :=
  let schemed :=
    match stripPrefixCI "https://" req_url with
    | Some (w, r) => withScheme (Some (substring 0 6 w)) (matchAuthority r)
    | None =>
        match stripPrefixCI "http://" req_url with
        | Some (w, r) => withScheme (Some (substring 0 5 w)) (matchAuthority r)
        | None => None
        end
    end in
  match schemed with
  | Some g => Some g
  | None =>
      let slashed :=
        match stripPrefix "//" req_url with
        | Some r => withScheme None (matchAuthority r)
        | None => None
        end in
      match slashed with
      | Some g => Some g
      | None => withScheme None (matchAuthority req_url)
      end
  end.

(** The test of the pattern [^https?:], letters in either case. *)
Definition declaresHttpScheme (req_url : string) : bool :=
  match stripPrefixCI "https:" req_url, stripPrefixCI "http:" req_url with
  | None, None => false
  | _, _ => true
  end.

(** The text handed to [new URL] on the path without a base, or [None]
    where [parseURL] returns [null] before it gets there. *)
Definition prepare (req_url : string) : option string :=
  match matchURL req_url with
  | None => None
  | Some g =>
      match g_scheme g with
      | Some _ => Some req_url
      | None =>
          if declaresHttpScheme req_url then None
          else
            (* scheme is omitted *)
            let slashed :=
              if startsWith req_url "//" then req_url else "//" ++ req_url in
            let scheme :=
              match g_port g with
              | Some p => if String.eqb p "443" then "https:" else "http:"
              | None => "http:"
              end in
            Some (scheme ++ slashed)
      end
  end.

Section Platform.

(** [new URL(input, base)] of the runtime: [None] when the constructor
    throws. *)
Variable URL_new : string -> option string -> option URL.

Definition parseURL (req_url : string) (baseUrl : option string)
  : outcome (option string) :=
  let withoutBase :=
    match prepare req_url with
    | None => Returns None
    | Some text =>
        match URL_new text None with
        | None => Returns None   (* caught *)
        | Some parsed =>
            if negb (truthy (hostname parsed)) then Returns None
            else Returns (Some (href parsed))
        end
    end in
  match baseUrl with
  | Some base =>
      if truthy base then
        match URL_new req_url (Some base) with
        | Some parsed => Returns (Some (href parsed))
        | None => Throws
        end
      else withoutBase
  | None => withoutBase
  end.

End Platform.

(** *** A table of answers of the runtime's URL parser, for evaluating the
    resolver and the rewriter on concrete inputs.  Against the base
    [http://host/a/index.m3u8] it resolves the segment names used below and
    a blank reference (which resolves to the base itself); without a base it
    parses the two absolute URLs listed.  For every other input it answers
    like for a malformed reference such as [http://[]. *)
Module Sample.

Definition base : string := "http://host/a/index.m3u8".

Definition URL_new (input : string) (baseUrl : option string) : option URL :=
  match baseUrl with
  | Some b =>
      if String.eqb b base then
        if String.eqb input "seg1.ts" || String.eqb input "seg2.ts"
           || String.eqb input "seg3.ts"
        then Some (mkURL ("http://host/a/" ++ input) "host")
        else if String.eqb input " " then Some (mkURL base "host")
        else None
      else None
  | None =>
      if String.eqb input "https://example.com:443/live" then
        Some (mkURL "https://example.com/live" "example.com")
      else if String.eqb input "http://example.com:8080/live" then
        Some (mkURL "http://example.com:8080/live" "example.com")
      else None
  end.

End Sample.

End Resolver.

(** ** The playlist rewrite of [proxyM3U8] *)

Module Playlist.
Import JS Resolver.

Definition selectedUrl : string := "/s".
Definition lbChoice : string := "local".

(** The proxy URL of a target; [headersJson] is the text
    [JSON.stringify(headers)]. *)
Definition proxyUrl (target headersJson : string) : string :=
  selectedUrl ++ "?u=" ++ Base64.encodeString target
    ++ "&headers=" ++ URI.encodeURIComponent headersJson
    ++ "&lb=" ++ lbChoice.

Definition quote : ascii := "034"%char.

(** A character of the class of the URL pattern: neither a double quote
    nor white space. *)
Definition isUrlChar (c : ascii) : bool :=
  negb (Ascii.eqb c quote || isSpace c).

Fixpoint spanUrl (s : string) : string * string :=
  match s with
  | String c r =>
      if isUrlChar c then let '(u, t) := spanUrl r in (String c u, t)
      else (EmptyString, s)
  | EmptyString => (EmptyString, EmptyString)
  end.

(** The URL pattern at the start of [s]: [http://] or [https://] and at
    least one character of the class. *)
Definition matchUrlHere (s : string) : option string :=
  let after (scheme : string) :=
    match stripPrefix scheme s with
    | Some r =>
        let '(u, _) := spanUrl r in
        if truthy u then Some (scheme ++ u) else None
    | None => None
    end in
  match after "https://" with
  | Some u => Some u
  | None => after "http://"
  end.

(** [regex.exec(line)?.[0]]: the leftmost match. *)
Fixpoint findUrl (line : string) : option string :=
  match matchUrlHere line with
  | Some u => Some u
  | None =>
      match line with
      | String _ r => findUrl r
      | EmptyString => None
      end
  end.

(** [s.replace(pattern, replacement)] with a string pattern: the first
    occurrence is replaced.  The replacements used here hold no dollar
    sign, so no replacement pattern is involved. *)
Fixpoint replaceFirst (s pattern replacement : string) : string :=
  match stripPrefix pattern s with
  | Some r => replacement ++ r
  | None =>
      match s with
      | String c r => String c (replaceFirst r pattern replacement)
      | EmptyString => EmptyString
      end
  end.

(** A [#EXT-X-KEY:] or [#EXT-X-MEDIA:] line. *)
Definition rewriteTagLine (headersJson line : string) : string :=
  match findUrl line with
  | Some keyUrl =>
      if truthy keyUrl
      then replaceFirst line keyUrl (proxyUrl keyUrl headersJson)
      else line
  | None => line
  end.

Section Platform.

Variable URL_new : string -> option string -> option URL.

(** A line that names a variant or a segment. *)
Definition rewriteUriLine (url headersJson line : string) : outcome string :=
  attempt resolved <- parseURL URL_new line (Some url) in
  match resolved with
  | Some segmentUrl =>
      if truthy segmentUrl then Returns (proxyUrl segmentUrl headersJson)
      else Returns line
  | None => Returns line
  end.

(** The body of the loop for a master playlist. *)
Definition masterLine (url headersJson line : string) : outcome string :=
  if startsWith line "#" then
    if startsWith line "#EXT-X-KEY:" then Returns (rewriteTagLine headersJson line)
    else if startsWith line "#EXT-X-MEDIA:" then
      Returns (rewriteTagLine headersJson line)
    else Returns line
  else if trimTruthy line then rewriteUriLine url headersJson line
  else Returns line.

(** The body of the loop for a media playlist. *)
Definition mediaLine (url headersJson line : string) : outcome string :=
  if startsWith line "#" then
    if startsWith line "#EXT-X-KEY:" then Returns (rewriteTagLine headersJson line)
    else Returns line
  else if trimTruthy line && negb (startsWith line "#") then
    rewriteUriLine url headersJson line
  else Returns line.

(** The loop [for (const line of lines)]: it stops where a line throws. *)
Fixpoint rewriteLines (f : string -> outcome string) (lines : list string)
  : outcome (list string) :=
  match lines with
  | [] => Returns []
  | line :: rest =>
      attempt newLine <- f line in
      attempt newLines <- rewriteLines f rest in
      Returns (newLine :: newLines)
  end.

Definition isMaster (m3u8Content : string) : bool :=
  includes m3u8Content "RESOLUTION=".

(** [proxyM3U8] from the text of the upstream answer on: the rewritten
    manifest, or [Throws] where the handler ends in its [catch] and
    answers with status 500. *)
Definition rewritePlaylist (url headersJson m3u8Content : string)
  : outcome string :=
  let lines := splitLines m3u8Content in
  let f := if isMaster m3u8Content then masterLine url headersJson
           else mediaLine url headersJson in
  attempt newLines <- rewriteLines f lines in
  Returns (joinLines newLines).

End Platform.

(** The value of the query parameter [u] of a proxy URL: the text between
    [?u=] and the next ampersand. *)
Fixpoint upToAmpersand (s : string) : string :=
  match s with
  | String c r => if Ascii.eqb c "&" then EmptyString else String c (upToAmpersand r)
  | EmptyString => EmptyString
  end.

Definition queryU (proxy : string) : option string :=
  match stripPrefix (selectedUrl ++ "?u=") proxy with
  | Some r => Some (upToAmpersand r)
  | None => None
  end.

(** The media playlist of the scenario of the specification. *)
Definition scenario : string :=
  "#EXTM3U" ++ String LF ("#EXTINF:10," ++ String LF ("seg1.ts" ++ String LF
    ("#EXTINF:10," ++ String LF ("seg2.ts" ++ String LF EmptyString)))).

End Playlist.

(** ** The shapes of a reference, as a reader of [parseURL] writes them

    These predicates speak of the text of a reference only; the resolver
    above does not use them. *)

Module Reference.
Import JS Resolver.

(** [c] is the letter written [l] in lower case and [u] in upper case. *)
Definition letter (l u c : ascii) : Prop := c = l \/ c = u.

(** The text [http:] or [https:], its letters in either case. *)
Inductive httpScheme : string -> Prop :=
| scheme_http c1 c2 c3 c4 :
    letter "h" "H" c1 -> letter "t" "T" c2 -> letter "t" "T" c3 ->
    letter "p" "P" c4 ->
    httpScheme (String c1 (String c2 (String c3 (String c4 ":"))))
| scheme_https c1 c2 c3 c4 c5 :
    letter "h" "H" c1 -> letter "t" "T" c2 -> letter "t" "T" c3 ->
    letter "p" "P" c4 -> letter "s" "S" c5 ->
    httpScheme (String c1 (String c2 (String c3 (String c4 (String c5 ":"))))).

(** A reference declares a scheme when it starts with such a text. *)
Definition declares (req_url : string) : Prop :=
  exists w rest, httpScheme w /\ req_url = w ++ rest.

(** No character of [s] is a slash or a question mark. *)
Fixpoint hostText (s : string) : Prop :=
  match s with
  | EmptyString => True
  | String c r => c <> "/"%char /\ c <> "?"%char /\ hostText r
  end.

(** [s] is empty or starts with a slash or a question mark. *)
Definition boundary (s : string) : Prop :=
  match s with
  | EmptyString => True
  | String c _ => c = "/"%char \/ c = "?"%char
  end.

(** The part of a reference before its first slash or question mark ends
    with a colon and the port 443, after a host name that is not empty. *)
Definition writesPort443 (seg : string) : Prop :=
  exists h, h <> "" /\ seg = h ++ ":443".

(** What the [try] block at the end of [parseURL] makes of the text it
    hands to [new URL]: the [href] of the parsed URL when the constructor
    accepts the text and the URL has a host name, [null] otherwise. *)
Definition strict (URL_new : string -> option string -> option URL)
  (text : string) : option string :=
  match URL_new text None with
  | Some parsed => if truthy (hostname parsed) then Some (href parsed) else None
  | None => None
  end.

End Reference.

(** ** Two more answers of the runtime's URL parser against the base of
    the scenario: a reference that starts with a dot segment resolves to
    the URL of the reference without it. *)

Module DotSegments.
Import Resolver.

Definition URL_new (input : string) (baseUrl : option string) : option URL :=
  match baseUrl with
  | Some b =>
      if String.eqb b Sample.base
         && (String.eqb input "seg1.ts" || String.eqb input "./seg1.ts")
      then Some (mkURL "http://host/a/seg1.ts" "host")
      else None
  | None => None
  end.

End DotSegments.

(** ** The range-aware MP4 route: the blocks of [proxyMP4] that negotiate
    the byte window *)

Module Mp4Route.
Import JS Range.

Definition Headers : Type := list (string * string).

(** [value || fallback] for a header that may be absent. *)
Definition orDefault (value : option string) (fallback : string) : string :=
  match value with
  | Some s => if truthy s then s else fallback
  | None => fallback
  end.

(** The three variables the handler sets before the upstream request. *)
Record plan := mkPlan { p_start : Z; p_end : Z; isPartial : bool }.

(** "Check if client requested a range": [rangeHeader] is the request
    header, [acceptRanges] the value read from the HEAD answer,
    [contentLength] its content length (an integer; 0 when the header is
    absent). *)
Definition planRange (rangeHeader : option string) (acceptRanges : string)
  (contentLength : Z) : plan :=
  let full := mkPlan 0 (contentLength - 1) false in
  match rangeHeader with
  | Some h =>
      if truthy h && String.eqb acceptRanges "bytes" then
        match parseRangeHeader h contentLength with
        | Some range => mkPlan (start range) (end_ range) true
        | None => full
        end
      else full
  | None => full
  end.

(** "Add range header if this is a partial request": the [Range] header
    of the upstream request, if any. *)
Definition upstreamRange (p : plan) : option string :=
  if isPartial p then Some (HotTier.rangeText (p_start p) (p_end p)) else None.

(** The status and the headers of the answer (routes/s.ts, second
    handler); [actualRange] and [actualLength] are the [content-range] and
    [content-length] headers of the upstream answer.  The handler sets the
    status only for a partial answer; otherwise it stays at 200, the
    default of the framework. *)
Definition respond (contentType acceptRanges : string) (contentLength : Z)
  (p : plan) (actualRange actualLength : option string) : Z * Headers :=
  let responseHeaders :=
    [("Content-Type", contentType);
     ("Access-Control-Allow-Origin", "*");
     ("Access-Control-Allow-Headers", "*");
     ("Access-Control-Allow-Methods", "GET, HEAD, OPTIONS");
     ("Accept-Ranges", acceptRanges)] in
  if isPartial p then
    (206,
     responseHeaders ++
     [("Content-Range",
       orDefault actualRange
         ("bytes " ++ URI.showZ (p_start p) ++ "-" ++ URI.showZ (p_end p)
            ++ "/" ++ URI.showZ contentLength));
      ("Content-Length",
       orDefault actualLength (URI.showZ (p_end p - p_start p + 1)))])%list
  else
    (200,
     responseHeaders ++
     [("Content-Length", URI.showZ contentLength);
      ("Cache-Control", "public, max-age=3600")])%list.

(** [headers[name]] of an object built by the assignments above. *)
Fixpoint header (name : string) (hs : Headers) : option string :=
  match hs with
  | [] => None
  | (n, v) :: r => if String.eqb n name then Some v else header name r
  end.

End Mp4Route.

(** ** The rest of [MP4ChunkManager] *)

Module ChunkManager.
Import JS.

(** [getChunkRange] of a manager whose field [chunkSize] is
    [thisChunkSize]. *)
Definition getChunkRange (thisChunkSize chunkIndex totalSize : Z) : string :=
  let start := chunkIndex * thisChunkSize in
  let end_ := Z.min (start + thisChunkSize - 1) (totalSize - 1) in
  "bytes=" ++ URI.showZ start ++ "-" ++ URI.showZ end_.

(** [getChunkCacheKey] *)
Definition getChunkCacheKey (url : string) (chunkIndex : Z) : string :=
  "mp4_chunk:" ++ Base64.encodeString url ++ ":chunk_" ++ URI.showZ chunkIndex.

Fixpoint trimStart (s : string) : string :=
  match s with
  | String c r => if isSpace c then trimStart r else s
  | EmptyString => EmptyString
  end.

(** [parseInt(s, 10)] on any string: white space is skipped, a sign is
    read, then the longest run of digits; [None] stands for [NaN]. *)
Definition parseIntJS (s : string) : option Z :=
  let s1 := trimStart s in
  let '(sign, s2) :=
    match s1 with
    | String c r =>
        if Ascii.eqb c "-" then (-1, r)
        else if Ascii.eqb c "+" then (1, r)
        else (1, s1)
    | EmptyString => (1, s1)
    end in
  let '(d, _) := spanDigits s2 in
  if truthy d then Some (sign * parseInt d) else None.

(** [parseChunkIndex]; [chunkParam] is [getQuery(event).chunk]. *)
Definition parseChunkIndex (chunkParam : option string) : option Z :=
  match chunkParam with
  | Some s => if truthy s then parseIntJS s else None
  | None => None
  end.

(** [isChunkedRequest]; [chunked] is [getQuery(event).chunked]. *)
Definition isChunkedRequest (chunked chunkParam : option string) : bool :=
  match chunked with
  | Some s => String.eqb s "true"
  | None => false
  end
  || match parseChunkIndex chunkParam with Some _ => true | None => false end.

(** The number of bytes a list of descriptors accounts for. *)
Definition covered (cs : list Chunks.MP4ChunkInfo) : Z :=
  fold_right (fun c n => Chunks.size c + n) 0 cs.

End ChunkManager.

(** ** The warm tier for MP4 chunks, and the cache counters
    (utils/redis-cache.ts) *)

Module WarmChunks.
Import WarmTier.

Definition getMP4ChunkKey (url : string) (chunkIndex : Z) : string :=
  "mp4_chunk:" ++ Base64.encodeString url ++ ":chunk_" ++ URI.showZ chunkIndex.

Section Platform.

Variable JSON_parse : string -> option CacheStorageFormat.
Variable JSON_stringify : CacheStorageFormat -> string.
Variable gzip : list byte -> list byte.
Variable gunzip : list byte -> option (list byte).
Variable fromBase64 : string -> list byte.

(** [RedisCache.getMP4Chunk] *)
Definition getMP4Chunk (this : RedisCache) (url : string) (chunkIndex : Z)
  : option CacheEntry :=
  match isConnected this, client this with
  | true, Some store =>
      let key := getMP4ChunkKey url chunkIndex in
      match store !! key with
      | None => None
      | Some (_, text) =>
          if negb (JS.truthy text) then None
          else
            match JSON_parse text with
            | None => None
            | Some parsed =>
                let rawData := fromBase64 (sf_data parsed) in
                let finalData :=
                  match version parsed with
                  | Some 2 => gunzip rawData
                  | _ => Some rawData
                  end in
                match finalData with
                | None => None
                | Some bytes =>
                    Some (mkEntry bytes (sf_headers parsed) (sf_timestamp parsed))
                end
            end
      end
  | _, _ => None
  end.

(** [RedisCache.setMP4Chunk] *)
Definition setMP4Chunk (this : RedisCache) (url : string) (chunkIndex : Z)
  (entry : CacheEntry) : RedisCache :=
  match isConnected this, client this with
  | true, Some store =>
      let key := getMP4ChunkKey url chunkIndex in
      let compressedData := gzip (data entry) in
      let dataToStore :=
        mkStored (Base64.encode compressedData) (headers entry)
                 (timestamp entry) (Some 2) in
      mkRedis
        (Some (<[key := (CACHE_EXPIRY_SECONDS, JSON_stringify dataToStore)]> store))
        (isConnected this) (redisEnabled this)
  | _, _ => this
  end.

(** [RedisCache.deleteMP4Chunk] *)
Definition deleteMP4Chunk (this : RedisCache) (url : string) (chunkIndex : Z)
  : RedisCache :=
  match isConnected this, client this with
  | true, Some store =>
      mkRedis (Some (base.delete (getMP4ChunkKey url chunkIndex) store))
              (isConnected this) (redisEnabled this)
  | _, _ => this
  end.

(** What the read methods make of the text kept under a key. *)
Definition opened (text : string) : option CacheEntry :=
  if negb (JS.truthy text) then None
  else
    match JSON_parse text with
    | None => None
    | Some parsed =>
        match
          match version parsed with
          | Some 2 => gunzip (fromBase64 (sf_data parsed))
          | _ => Some (fromBase64 (sf_data parsed))
          end
        with
        | None => None
        | Some bytes =>
            Some (mkEntry bytes (sf_headers parsed) (sf_timestamp parsed))
        end
    end.

(** The text the write methods keep for an entry. *)
Definition sealed (entry : CacheEntry) : string :=
  JSON_stringify
    (mkStored (Base64.encode (gzip (data entry))) (headers entry)
              (timestamp entry) (Some 2)).

(** The text kept under a key, as the client sees it. *)
Definition textAt (this : RedisCache) (key : string) : option string :=
  match isConnected this, client this with
  | true, Some store => option_map snd (store !! key)
  | _, _ => None
  end.

(** The runtime undoes its own encodings on an entry: the JSON text of its
    envelope is not empty and parses back to the envelope, the lenient
    base64 decoder inverts the encoder on its compressed payload, and
    [gunzip] inverts [gzip] on its payload. *)
Definition faithful (entry : CacheEntry) : Prop :=
  JS.truthy (sealed entry) = true /\
  JSON_parse (sealed entry)
    = Some (mkStored (Base64.encode (gzip (data entry))) (headers entry)
                     (timestamp entry) (Some 2)) /\
  fromBase64 (Base64.encode (gzip (data entry))) = gzip (data entry) /\
  gunzip (gzip (data entry)) = Some (data entry).

End Platform.

End WarmChunks.

Module Analytics.

(** The fields of [CacheAnalytics]. *)
Record CacheAnalytics := mkAnalytics {
  hits : Z;
  misses : Z;
  totalRequests : Z;
  totalUncompressedBytes : Z;
  totalCompressedBytes : Z
}.

Definition initial : CacheAnalytics := mkAnalytics 0 0 0 0 0.

Definition recordHit (this : CacheAnalytics) (uncompressedBytes : Z)
  : CacheAnalytics :=
  mkAnalytics (hits this + 1) (misses this) (totalRequests this + 1)
    (totalUncompressedBytes this + uncompressedBytes)
    (totalCompressedBytes this).

Definition recordMiss (this : CacheAnalytics)
  (uncompressedBytes compressedBytes : Z) : CacheAnalytics :=
  mkAnalytics (hits this) (misses this + 1) (totalRequests this + 1)
    (totalUncompressedBytes this + uncompressedBytes)
    (totalCompressedBytes this + compressedBytes).

(** The two places where the segment route (routes/s.ts) touches the
    counters: a segment of [n] bytes served from the cache, and a segment
    of [n] bytes stored after a fetch, whose compressed size is estimated
    as [Math.floor(n * 0.25)]. *)
Inductive event := Served (byteLength : Z) | Stored (byteLength : Z).

Definition record (this : CacheAnalytics) (e : event) : CacheAnalytics :=
  match e with
  | Served n => recordHit this n
  | Stored n => recordMiss this n (n / 4)
  end.

Definition replay (es : list event) : CacheAnalytics :=
  fold_left record es initial.

Definition byteLength (e : event) : Z :=
  match e with Served n => n | Stored n => n end.

(** The conditions under which [getStats] divides: the hit rate and the
    average size by [totalRequests], the compression ratio by
    [totalUncompressedBytes]. *)
Definition dividesByRequests (this : CacheAnalytics) : bool :=
  totalRequests this >? 0.

Definition dividesByUncompressed (this : CacheAnalytics) : bool :=
  totalCompressedBytes this >? 0.

End Analytics.

(** ** Prefetching the windows of a file: [prefetchMP4Chunks], and the
    two halves of [prefetchMP4Chunk] around its [await] *)

Module Prefetch.
Import HotTier.

Section Tier.

Variable CACHE_MAX_SIZE : Z.
Variable CACHE_EXPIRY_MS : Z.
Variable CHUNK_SIZE : Z.

(** [prefetchMP4Chunk] up to [await fetch]: the guard with its sweep and
    the test for a fresh entry.  The result is the map it leaves and
    whether the call goes on to fetch.  [t0] and [t1] are the readings of
    [Date.now()] in [cleanupCache] and at the test. *)
Definition begin (disabled : bool) (t0 t1 : Z) (url : string) (start end_ : Z)
  (m : JSMap) : JSMap * bool :=
  if disabled then (m, false)
  else
    let m1 :=
      if map_size m >=? CACHE_MAX_SIZE
      then cleanupCache CACHE_MAX_SIZE CACHE_EXPIRY_MS t0 m else m in
    let cacheKey := chunkKey url (rangeText start end_) in
    let fresh :=
      match map_get cacheKey m1 with
      | Some existing => t1 - timestamp existing <=? CACHE_EXPIRY_MS
      | None => false
      end in
    (m1, negb fresh).

(** [prefetchMP4Chunk] from the answer of the fetch on: a successful
    answer is stored at instant [t2], any other leaves the map alone. *)
Definition finish (t2 : Z) (url : string) (start end_ : Z) (resp : response)
  (m : JSMap) : JSMap :=
  match resp with
  | None => m
  | Some (body, responseHeaders) =>
      let range := rangeText start end_ in
      map_set (chunkKey url range)
              (mkEntry body responseHeaders t2 (Some range)) m
  end.

(** The loop of [prefetchMP4Chunks]:
    [for (start = 0; start < maxPrefetchBytes; start += CHUNK_SIZE)],
    with [fuel] iterations at most. *)
Fixpoint windowsFrom (fuel : nat) (start maxPrefetchBytes contentLength : Z)
  : list (Z * Z) :=
  match fuel with
  | O => []
  | S fuel' =>
      if start <? maxPrefetchBytes then
        (start, Z.min (start + CHUNK_SIZE - 1) (contentLength - 1))
          :: windowsFrom fuel' (start + CHUNK_SIZE) maxPrefetchBytes contentLength
      else []
  end.

Definition maxPrefetchBytes (contentLength : Z) : Z :=
  Z.min contentLength (100 * 1024 * 1024).

(** The windows [prefetchMP4Chunks] asks for.  For a positive chunk size
    the loop ends within [maxPrefetchBytes / CHUNK_SIZE + 1] iterations. *)
Definition windows (contentLength : Z) : list (Z * Z) :=
  windowsFrom (S (Z.to_nat (maxPrefetchBytes contentLength / CHUNK_SIZE)))
              0 (maxPrefetchBytes contentLength) contentLength.

(** A call that is waiting for its fetch. *)
Record pending := mkPending { p_url : string; p_start : Z; p_end : Z }.

(** The synchronous part of [prefetchMP4Chunks]: the sweep, then the
    first half of every call, in the order of the loop.  [now] is the
    reading of the clock during this part.  The result is the map and the
    calls that wait for a fetch. *)
Fixpoint beginAll (now : Z) (url : string) (ws : list (Z * Z)) (m : JSMap)
  : JSMap * list pending :=
  match ws with
  | [] => (m, [])
  | (start, end_) :: rest =>
      let '(m1, go) := begin false now now url start end_ m in
      let '(m2, waiting) := beginAll now url rest m1 in
      (m2, if go then mkPending url start end_ :: waiting else waiting)
  end.

Definition launch (disabled : bool) (now : Z) (url : string)
  (contentLength : Z) (m : JSMap) : JSMap * list pending :=
  if disabled then (m, [])
  else
    beginAll now url (windows contentLength)
             (cleanupCache CACHE_MAX_SIZE CACHE_EXPIRY_MS now m).

(** The fetches come back, one after another in some order, each with
    its answer and the instant of its store. *)
Definition arrival : Type := pending * Z * response.

Definition settle (m : JSMap) (a : arrival) : JSMap :=
  let '(p, t2, resp) := a in finish t2 (p_url p) (p_start p) (p_end p) resp m.

Definition settleAll (arrivals : list arrival) (m : JSMap) : JSMap :=
  fold_left settle arrivals m.

End Tier.

(** The MP4 chunk cache. *)
Module Mp4.
Definition windows : Z -> list (Z * Z) := Prefetch.windows Chunk.CHUNK_SIZE.
Definition launch : bool -> Z -> string -> Z -> JSMap -> JSMap * list pending :=
  Prefetch.launch Chunk.CACHE_MAX_SIZE Chunk.CACHE_EXPIRY_MS Chunk.CHUNK_SIZE.
End Mp4.

(** A full cache: [n] fresh entries of other files, stored at instant 0. *)
Fixpoint filled (n : nat) (k : Z) : JSMap :=
  match n with
  | O => []
  | S n' =>
      (chunkKey ("http://host/v" ++ URI.showZ k ++ ".mp4")
                (rangeText 0 (Chunk.CHUNK_SIZE - 1)),
       mkEntry [] [] 0 (Some (rangeText 0 (Chunk.CHUNK_SIZE - 1))))
        :: filled n' (k + 1)
  end.

(** Every waiting call is answered with an empty body at instant [t2],
    in the order given. *)
Definition answered (t2 : Z) (waiting : list pending) : list arrival :=
  List.map (fun p => (p, t2, Some ([], []))) waiting.

End Prefetch.

(** ** The adaptive MP4 route: segments, progressive streaming and the
    choice of a handler *)

Module Adaptive.
Import JS.

(** *** Browsers *)

Inductive browser := Firefox | Safari | Chrome | Brave | Other.

Record capabilities := mkCapabilities {
  supportsChunked : bool;
  supportsProgressive : bool;
  chunkSize : Z;
  needsFullHeaders : bool;
  useRangeRequests : bool;
  preferFullFile : bool
}.

Definition BROWSER_CAPABILITIES (b : browser) : capabilities :=
  match b with
  | Firefox => mkCapabilities false false 0 true true true
  | Safari => mkCapabilities false false 0 true true true
  | Chrome => mkCapabilities true true (5 * 1024 * 1024) false true false
  | Brave => mkCapabilities true true (4 * 1024 * 1024) false true false
  | Other => mkCapabilities true true (5 * 1024 * 1024) false true false
  end.

(** [s.toLowerCase()] on the letters A to Z.  No other code unit below
    256 becomes a letter a to z, so the tests below come out the same. *)
Fixpoint toLowerCase (s : string) : string :=
  match s with
  | EmptyString => EmptyString
  | String c r => String (Resolver.lower c) (toLowerCase r)
  end.

Definition detectBrowser (userAgent : string) : browser :=
  let ua := toLowerCase userAgent in
  if includes ua "firefox" then Firefox
  else if includes ua "brave" then Brave
  else if includes ua "chrome" && negb (includes ua "edg") then Chrome
  else if includes ua "safari" && negb (includes ua "chrome") then Safari
  else Other.

(** *** The choice of a handler *)

(** What the handler of the route ends up calling. *)
Inductive handler :=
| Direct                           (* proxyMP4 *)
| Chunked                          (* handleChunkedRequest *)
| Playlist                         (* getMP4Playlist *)
| Segment (index : Z)              (* getMP4Segment *)
| InvalidSegment                   (* status 400 *)
| Progressive (startSegment : option Z).   (* getMP4Progressive; [None] is NaN *)

(** The parts of a request the choice depends on; a query parameter that
    is absent is [None]. *)
Record request := mkRequest {
  isHead : bool;
  userAgent : option string;
  rangeHeader : option string;
  q_segment : option string;
  q_progressive : option string;
  q_playlist : option string;
  q_chunked : option string;
  q_start : option string
}.

(** [p === 'true' || p === ''] *)
Definition flagged (p : option string) : bool :=
  match p with
  | Some s => String.eqb s "true" || String.eqb s ""
  | None => false
  end.

(** [header || ''] *)
Definition orEmpty (h : option string) : string :=
  match h with Some s => s | None => "" end.

(** A header that is present and not empty. *)
Definition present (h : option string) : bool := truthy (orEmpty h).

(** [parseInt((getQuery(event).start as string) || '0', 10)] *)
Definition startSegmentOf (r : request) : option Z :=
  ChunkManager.parseIntJS
    (if truthy (orEmpty (q_start r)) then orEmpty (q_start r) else "0").

(** The handler of the route, from the first test of the request method
    on. *)
Definition choose (r : request) : handler :=
  if isHead r then Direct
  else
    let capabilities := BROWSER_CAPABILITIES (detectBrowser (orEmpty (userAgent r))) in
    if flagged (q_chunked r) && supportsChunked capabilities then Chunked
    else if flagged (q_playlist r) then Playlist
    else
      match q_segment r with
      | Some segmentIndex =>
          match ChunkManager.parseIntJS segmentIndex with
          | Some index => Segment index
          | None => InvalidSegment
          end
      | None =>
          if flagged (q_progressive r) then Progressive (startSegmentOf r)
          else if preferFullFile capabilities then Direct
          else if present (rangeHeader r) && useRangeRequests capabilities
          then Direct
          else if supportsProgressive capabilities && negb (present (rangeHeader r))
          then Progressive (startSegmentOf r)
          else Direct
      end.

(** The [Range] header [proxyMP4] sends upstream. *)
Definition forwardedRange (r : request) : option string :=
  let b := detectBrowser (orEmpty (userAgent r)) in
  let capabilities := BROWSER_CAPABILITIES b in
  if preferFullFile capabilities then
    match b with
    | Firefox => if present (rangeHeader r) then rangeHeader r else None
    | _ => None
    end
  else if present (rangeHeader r) && useRangeRequests capabilities
  then rangeHeader r
  else None.

(** *** Segments *)

Definition MAX_SEGMENTS_PER_REQUEST : Z := 3.

Record MP4Segment := mkSegment {
  index : Z;
  start : Z;
  end_ : Z;
  size : Z;
  url : string
}.

Section Segments.

(** The size of a segment; the route uses [Adaptive.SEGMENT_SIZE]. *)
Variable SEGMENT_SIZE : Z.

Definition segmentUrl (target : string) (i : Z) (headersJson : string) : string :=
  "/mp4-proxy?url=" ++ URI.encodeURIComponent target ++ "&segment="
    ++ URI.showZ i ++ "&headers=" ++ URI.encodeURIComponent headersJson.

(** The body of the loop of [getMP4Playlist]. *)
Definition segmentAt (target headersJson : string) (contentLength i : Z)
  : MP4Segment :=
  let start := i * SEGMENT_SIZE in
  let end_ := Z.min (start + SEGMENT_SIZE - 1) (contentLength - 1) in
  let size := end_ - start + 1 in
  mkSegment i start end_ size (segmentUrl target i headersJson).

Fixpoint segmentLoop (target headersJson : string) (contentLength : Z)
  (n : nat) (i : Z) : list MP4Segment :=
  match n with
  | O => []
  | S n' =>
      segmentAt target headersJson contentLength i
        :: segmentLoop target headersJson contentLength n' (i + 1)
  end.

(** The segments of the manifest of [getMP4Playlist], or [None] where it
    throws because the length is zero or not a number ([contentLength] is
    the parsed [content-length] of the HEAD answer). *)
Definition playlistSegments (target headersJson : string) (contentLength : Z)
  : option (list MP4Segment) :=
  if contentLength =? 0 then None
  else
    let totalSegments := Chunks.ceilDiv contentLength SEGMENT_SIZE in
    Some (segmentLoop target headersJson contentLength
                      (Z.to_nat totalSegments) 0).

(** The window [getMP4Segment] asks the upstream server for. *)
Definition segmentWindow (segmentIndex totalSize : Z) : Z * Z :=
  let start := segmentIndex * SEGMENT_SIZE in
  (start, Z.min (start + SEGMENT_SIZE - 1) (totalSize - 1)).

(** The last byte before segment [j], or the last byte of the file. *)
Definition upTo (total j : Z) : Z := Z.min (j * SEGMENT_SIZE) total - 1.

(** The upstream server as the handlers see it: the body of the answer to
    a request with the header [Range: bytes=start-end], or [None] when the
    status is neither a success nor 206. *)
Variable fetchRange : Z -> Z -> option (list byte).

(** The loop of [getMP4Progressive], with [n] iterations left and counter
    [i]: it stops at the first answer that is not a success. *)
Fixpoint progressiveLoop (totalSize startSegment : Z) (n : nat) (i : Z)
  : list (list byte) :=
  match n with
  | O => []
  | S n' =>
      let '(start, end_) := segmentWindow (startSegment + i) totalSize in
      match fetchRange start end_ with
      | None => []
      | Some segmentData =>
          segmentData :: progressiveLoop totalSize startSegment n' (i + 1)
      end
  end.

(** [getMP4Progressive] from the parsed length on: the buffers it
    fetched and the body it returns, or [None] where it throws because
    the length is zero.  A start segment that is not a number ([None])
    makes the bound of the loop not a number, and the loop does not
    run. *)
Definition getMP4Progressive (totalSize : Z) (startSegment : option Z)
  : option (list (list byte) * list byte) :=
  if totalSize =? 0 then None
  else
    let totalSegments := Chunks.ceilDiv totalSize SEGMENT_SIZE in
    let segmentBuffers :=
      match startSegment with
      | Some startSegment =>
          let segmentsToServe :=
            Z.min MAX_SEGMENTS_PER_REQUEST (totalSegments - startSegment) in
          progressiveLoop totalSize startSegment (Z.to_nat segmentsToServe) 0
      | None => []
      end in
    Some (segmentBuffers, List.concat segmentBuffers).

End Segments.

Definition SEGMENT_SIZE : Z := 4718592.   (* 4.5 * 1024 * 1024 *)

(** The bytes [start] to [end_] of a file, as a server that honours byte
    ranges answers them. *)
Definition slice (file : list byte) (start end_ : Z) : list byte :=
  firstn (Z.to_nat (end_ - start + 1)) (skipn (Z.to_nat start) file).

Definition honest (file : list byte) (start end_ : Z) : option (list byte) :=
  Some (slice file start end_).

(** A file of ten bytes. *)
Definition tenBytes : list byte := [x00; x01; x02; x03; x04; x05; x06; x07; x08; x09].

End Adaptive.

(** * Properties *)

(** ** Facts about the string primitives *)

Module JSFacts.
Import JS.

Lemma app_cons a p r : String a p ++ r = String a (p ++ r).
Proof. reflexivity. Qed.

Lemma app_nil_l s : "" ++ s = s.
Proof. reflexivity. Qed.

Lemma app_nil_r s : s ++ "" = s.
Proof. induction s as [|a s IH]; [reflexivity|]. now rewrite app_cons, IH. Qed.

Lemma app_assoc a b c : (a ++ b) ++ c = a ++ (b ++ c).
Proof.
  induction a as [|x a IH]; [reflexivity|]. now rewrite !app_cons, IH.
Qed.

(** Normalise concatenations whose left operand starts with known
    characters. *)
Ltac app_simpl := rewrite ?app_cons, ?app_nil_l.
Ltac app_simpl_in H := rewrite ?app_cons, ?app_nil_l in H.

Lemma stripPrefix_app p s : stripPrefix p (p ++ s) = Some s.
Proof.
  induction p as [|a p IH]; [reflexivity|].
  rewrite app_cons. simpl. now rewrite Ascii.eqb_refl.
Qed.

Lemma stripPrefix_Some p : forall s r, stripPrefix p s = Some r -> s = p ++ r.
Proof.
  induction p as [|a p IH]; intros s r H; simpl in *.
  - now inversion H.
  - destruct s as [|b s]; [discriminate|].
    destruct (Ascii.eqb a b) eqn:E; [|discriminate].
    apply Ascii.eqb_eq in E. subst b. rewrite app_cons. f_equal. now apply IH.
Qed.

Lemma all_app p a b : all p (a ++ b) = all p a && all p b.
Proof.
  induction a as [|c a IH]; [reflexivity|].
  rewrite app_cons. simpl. now rewrite IH, andb_assoc.
Qed.

Lemma spanDigits_app d : forall t,
  all isDigit d = true -> noDigitAhead t -> spanDigits (d ++ t) = (d, t).
Proof.
  induction d as [|c d IH]; intros t Hd Ht; app_simpl; simpl in *.
  - destruct t as [|c t]; [reflexivity|]. simpl in *. now rewrite Ht.
  - apply andb_true_iff in Hd as [Hc Hd]. rewrite Hc, IH by assumption.
    reflexivity.
Qed.

Lemma spanDigits_inv s : forall d t,
  spanDigits s = (d, t) -> s = d ++ t /\ all isDigit d = true /\ noDigitAhead t.
Proof.
  induction s as [|c s IH]; intros d t H; simpl in H.
  - inversion H; subst. simpl. auto.
  - destruct (isDigit c) eqn:Hc.
    + destruct (spanDigits s) as [d' t'] eqn:E. inversion H; subst.
      destruct (IH d' t eq_refl) as (-> & Hd & Ht).
      app_simpl. simpl. rewrite Hc, Hd. auto.
    + inversion H; subst. simpl. auto.
Qed.


Lemma all_get (P : ascii -> bool) s : forall n c,
  all P s = true -> String.get n s = Some c -> P c = true.
Proof.
  induction s as [|a s IH]; intros n c Hall Hget; [discriminate|].
  simpl in Hall. apply andb_true_iff in Hall as [Ha Hs].
  destruct n as [|n]; simpl in Hget.
  - now inversion Hget; subst.
  - now apply (IH n).
Qed.

Lemma all_impl (P Q : ascii -> bool) s :
  (forall c, P c = true -> Q c = true) -> all P s = true -> all Q s = true.
Proof.
  intros H. induction s as [|a s IH]; simpl; [reflexivity|].
  intros Hall. apply andb_true_iff in Hall as [Ha Hs].
  now rewrite (H a Ha), IH.
Qed.

(** *** Splitting and joining *)

Lemma splitOn_nonempty sep s : splitOn sep s <> [].
Proof.
  destruct s as [|c s]; simpl; [discriminate|].
  destruct (Ascii.eqb c sep); [discriminate|].
  destruct (splitOn sep s); discriminate.
Qed.

Lemma splitOn_pieces sep s :
  Forall (fun l => all (isNot sep) l = true) (splitOn sep s).
Proof.
  induction s as [|c s IH]; simpl; [repeat constructor|].
  destruct (Ascii.eqb c sep) eqn:E.
  - constructor; [reflexivity|assumption].
  - destruct (splitOn sep s) as [|l ls]; [repeat constructor; simpl|].
    + unfold isNot. now rewrite E.
    + inversion IH; subst. constructor; [|assumption].
      simpl. unfold isNot at 1. now rewrite E.
Qed.

Lemma splitOn_piece_app sep l : forall s,
  all (isNot sep) l = true ->
  splitOn sep (l ++ String sep s) = l :: splitOn sep s.
Proof.
  induction l as [|c l IH]; intros s Hl; app_simpl; simpl.
  - now rewrite Ascii.eqb_refl.
  - simpl in Hl. apply andb_true_iff in Hl as [Hc Hl].
    unfold isNot in Hc. apply negb_true_iff in Hc. rewrite Hc.
    now rewrite IH.
Qed.

Lemma splitOn_single sep l :
  all (isNot sep) l = true -> splitOn sep l = [l].
Proof.
  induction l as [|c l IH]; intros Hl; simpl; [reflexivity|].
  simpl in Hl. apply andb_true_iff in Hl as [Hc Hl].
  unfold isNot in Hc. apply negb_true_iff in Hc. rewrite Hc.
  now rewrite IH.
Qed.

(** Splitting what was joined gives the lines back, when no line holds a
    line feed. *)
Lemma splitLines_joinLines ls :
  ls <> [] -> Forall (fun l => all (isNot LF) l = true) ls ->
  splitLines (joinLines ls) = ls.
Proof.
  unfold splitLines.
  induction ls as [|l ls IH]; intros Hne Hall; [congruence|].
  inversion Hall as [|? ? Hl Hls]; subst.
  destruct ls as [|l' ls].
  - simpl. now apply splitOn_single.
  - change (joinLines (l :: l' :: ls)) with (l ++ String LF (joinLines (l' :: ls))).
    rewrite splitOn_piece_app by assumption.
    f_equal. apply IH; [discriminate|assumption].
Qed.

Lemma app_inv_head p : forall a b, p ++ a = p ++ b -> a = b.
Proof.
  induction p as [|c p IH]; intros a b E; app_simpl_in E; [assumption|].
  injection E as E. now apply IH.
Qed.

End JSFacts.

(** ** Byte buffers *)

Module BufferFacts.
Import JS JSFacts.

Lemma byteOf_to_N b : Utf8.byteOf (Byte.to_N b) = b.
Proof. unfold Utf8.byteOf. now rewrite Byte.of_to_N. Qed.

Lemma to_N_byteOf n : (n < 256)%N -> Byte.to_N (Utf8.byteOf n) = n.
Proof.
  intros Hn. unfold Utf8.byteOf.
  destruct (Byte.of_N n) as [b|] eqn:E.
  - now apply Byte.to_of_N.
  - apply Byte.of_N_None_iff in E. lia.
Qed.

Lemma to_N_lt b : (Byte.to_N b < 256)%N.
Proof. pose proof (Byte.to_N_bounded b). lia. Qed.

(** *** UTF-8 *)

Lemma utf8_decode_encode s : Utf8.decode (Utf8.encode s) = Some s.
Proof.
  induction s as [|c s IH]; [reflexivity|].
  simpl. unfold Utf8.encodeChar.
  pose proof (N_ascii_bounded c) as Hc.
  destruct (N_of_ascii c <? 128)%N eqn:E.
  - apply N.ltb_lt in E. simpl.
    rewrite to_N_byteOf by lia.
    apply N.ltb_lt in E. rewrite E, IH. simpl.
    now rewrite ascii_N_embedding.
  - apply N.ltb_ge in E. simpl.
    pose proof (N.mod_lt (N_of_ascii c) 64 ltac:(lia)) as Hr.
    pose proof (N.div_mod (N_of_ascii c) 64 ltac:(lia)) as Hd.
    set (q := (N_of_ascii c / 64)%N) in *.
    set (r := (N_of_ascii c mod 64)%N) in *.
    assert (q = 2 \/ q = 3)%N as Hq by lia.
    rewrite !to_N_byteOf by lia.
    replace (192 + q <? 128)%N with false by (symmetry; apply N.ltb_ge; lia).
    replace ((192 + q =? 194) || (192 + q =? 195))%N with true
      by (destruct Hq as [-> | ->]; reflexivity).
    replace (128 <=? 128 + r)%N with true by (symmetry; apply N.leb_le; lia).
    replace (128 + r <? 192)%N with true by (symmetry; apply N.ltb_lt; lia).
    simpl. rewrite IH. simpl.
    replace ((192 + q - 192) * 64 + (128 + r - 128))%N with (N_of_ascii c) by lia.
    now rewrite ascii_N_embedding.
Qed.

(** *** Base64 *)

(** A property of the 64 values, checked on each of them. *)
Lemma forall_below_64 (P : N -> bool) :
  forallb P (List.map N.of_nat (seq 0 64)) = true ->
  forall n, (n < 64)%N -> P n = true.
Proof.
  intros H n Hn. rewrite forallb_forall in H. apply H.
  apply in_map_iff. exists (N.to_nat n). split; [lia|].
  apply in_seq. lia.
Qed.

Lemma b64val_b64char n : (n < 64)%N -> Base64.b64val (Base64.b64char n) = Some n.
Proof.
  intros Hn.
  pose proof (forall_below_64
    (fun n => match Base64.b64val (Base64.b64char n) with
              | Some m => N.eqb m n | None => false end) eq_refl n Hn) as H.
  simpl in H. destruct (Base64.b64val _) as [m|]; [|discriminate].
  apply N.eqb_eq in H. now subst.
Qed.

Lemma b64char_not_pad n :
  (n < 64)%N -> Ascii.eqb (Base64.b64char n) Base64.pad = false.
Proof.
  intros Hn.
  pose proof (forall_below_64
    (fun n => negb (Ascii.eqb (Base64.b64char n) Base64.pad)) eq_refl n Hn) as H.
  simpl in H. now apply negb_true_iff in H.
Qed.

Ltac sextets :=
  repeat match goal with
  | b : byte |- _ =>
      lazymatch goal with
      | _ : (Byte.to_N b < 256)%N |- _ => fail
      | _ => pose proof (to_N_lt b)
      end
  end.

Lemma sextet_facts x y z :
  (x < 256 -> y < 256 -> z < 256 ->
   x / 4 < 64 /\ (x mod 4) * 16 + y / 16 < 64 /\
   (y mod 16) * 4 + z / 64 < 64 /\ z mod 64 < 64 /\
   (x mod 4) * 16 < 64 /\ (y mod 16) * 4 < 64 /\
   (x / 4) * 4 + ((x mod 4) * 16 + y / 16) / 16 = x /\
   (((x mod 4) * 16 + y / 16) mod 16) * 16 + ((y mod 16) * 4 + z / 64) / 4 = y /\
   (((y mod 16) * 4 + z / 64) mod 4) * 64 + z mod 64 = z /\
   (x / 4) * 4 + ((x mod 4) * 16) / 16 = x /\
   (((x mod 4) * 16 + y / 16) mod 16) * 16 + ((y mod 16) * 4) / 4 = y)%N.
Proof.
  intros Hx Hy Hz.
  repeat split; zify; Z.to_euclidean_division_equations; lia.
Qed.

Lemma base64_decode_encode_fuel n : forall bs,
  (length bs <= n)%nat -> Base64.decode (Base64.encode bs) = Some bs.
Proof.
  induction n as [|n IH]; intros bs Hlen.
  - destruct bs; [reflexivity|simpl in Hlen; lia].
  - destruct bs as [|a [|b [|c r]]]; [reflexivity| | |].
    + pose proof (to_N_lt a) as Ha.
      destruct (sextet_facts (Byte.to_N a) 0 0 Ha ltac:(lia) ltac:(lia))
        as (H0 & _ & _ & _ & H1 & _ & _ & _ & _ & E0 & _).
      cbn [Base64.encode Base64.decode].
      rewrite !b64val_b64char by assumption.
      rewrite Ascii.eqb_refl. simpl. now rewrite E0, byteOf_to_N.
    + pose proof (to_N_lt a) as Ha. pose proof (to_N_lt b) as Hb.
      destruct (sextet_facts (Byte.to_N a) (Byte.to_N b) 0 Ha Hb ltac:(lia))
        as (H0 & H1 & _ & _ & _ & H2 & E0 & _ & _ & _ & E1).
      cbn [Base64.encode Base64.decode].
      rewrite !b64val_b64char by assumption.
      rewrite (b64char_not_pad _ H2), Ascii.eqb_refl. simpl.
      now rewrite E0, E1, !byteOf_to_N.
    + pose proof (to_N_lt a) as Ha. pose proof (to_N_lt b) as Hb.
      pose proof (to_N_lt c) as Hc.
      destruct (sextet_facts (Byte.to_N a) (Byte.to_N b) (Byte.to_N c) Ha Hb Hc)
        as (H0 & H1 & H2 & H3 & _ & _ & E0 & E1 & E2 & _ & _).
      cbn [Base64.encode Base64.decode].
      rewrite !b64val_b64char by assumption.
      rewrite (b64char_not_pad _ H2), (b64char_not_pad _ H3).
      rewrite IH by (simpl in Hlen; lia). simpl.
      now rewrite E0, E1, E2, !byteOf_to_N.
Qed.

Lemma base64_decode_encode bs : Base64.decode (Base64.encode bs) = Some bs.
Proof. now apply (base64_decode_encode_fuel (length bs)). Qed.

(** A string survives [Buffer.from(s).toString('base64')] followed by
    decoding. *)
Lemma decodeString_encodeString s :
  Base64.decodeString (Base64.encodeString s) = Some s.
Proof.
  unfold Base64.decodeString, Base64.encodeString.
  rewrite base64_decode_encode. apply utf8_decode_encode.
Qed.

Lemma encodeString_inj s t :
  Base64.encodeString s = Base64.encodeString t -> s = t.
Proof.
  intros H. apply (f_equal Base64.decodeString) in H.
  rewrite !decodeString_encodeString in H. congruence.
Qed.

(** *** Character classes of the encoders *)

Lemma b64char_class (P : ascii -> bool) n :
  all P Base64.alphabet = true -> P Base64.pad = true ->
  P (Base64.b64char n) = true.
Proof.
  intros Ha Hp. unfold Base64.b64char.
  destruct (String.get _ _) as [c|] eqn:E; [|assumption].
  now apply (all_get P Base64.alphabet (N.to_nat n)).
Qed.

Lemma base64_encode_class_fuel (P : ascii -> bool) n : forall bs,
  all P Base64.alphabet = true -> P Base64.pad = true ->
  (length bs <= n)%nat -> all P (Base64.encode bs) = true.
Proof.
  induction n as [|n IH]; intros bs Ha Hp Hlen.
  - destruct bs; [reflexivity|simpl in Hlen; lia].
  - destruct bs as [|a [|b [|c r]]]; [reflexivity| | |];
      cbn [Base64.encode all];
      rewrite ?b64char_class, ?Hp by assumption; try reflexivity.
    rewrite IH; [reflexivity|assumption|assumption|simpl in Hlen; lia].
Qed.

Lemma base64_encode_class (P : ascii -> bool) bs :
  all P Base64.alphabet = true -> P Base64.pad = true ->
  all P (Base64.encode bs) = true.
Proof. intros. now apply (base64_encode_class_fuel P (length bs)). Qed.

Lemma hexDigit_class (P : ascii -> bool) n :
  all P "0123456789ABCDEF" = true -> P (URI.hexDigit n) = true.
Proof.
  intros Ha. unfold URI.hexDigit.
  destruct (String.get _ _) as [c|] eqn:E.
  - now apply (all_get P "0123456789ABCDEF" (N.to_nat n)).
  - apply (all_get P "0123456789ABCDEF" 0%nat); [assumption|reflexivity].
Qed.

Lemma escapeBytes_class (P : ascii -> bool) bs :
  all P "0123456789ABCDEF" = true -> P "%"%char = true ->
  all P (URI.escapeBytes bs) = true.
Proof.
  intros Ha Hp. induction bs as [|b bs IH]; [reflexivity|].
  simpl. rewrite all_app, IH. unfold URI.escapeByte. simpl.
  now rewrite Hp, !hexDigit_class.
Qed.

Lemma encodeURIComponent_class (P : ascii -> bool) s :
  (forall c, URI.unreserved c = true -> P c = true) ->
  all P "0123456789ABCDEF" = true -> P "%"%char = true ->
  all P (URI.encodeURIComponent s) = true.
Proof.
  intros Hu Ha Hp. induction s as [|c s IH]; [reflexivity|].
  simpl. rewrite all_app, IH, andb_true_r.
  destruct (URI.unreserved c) eqn:E.
  - simpl. now rewrite (Hu c E).
  - now apply escapeBytes_class.
Qed.

End BufferFacts.

(** ** Range negotiation *)

Module RangeFacts.
Import JS JSFacts Range.

Lemma matchRange_form a b :
  digits a -> digits b -> matchRange ("bytes=" ++ a ++ "-" ++ b) = Some (a, b).
Proof.
  intros Ha Hb. unfold matchRange.
  rewrite stripPrefix_app.
  rewrite (spanDigits_app a ("-" ++ b) Ha) by reflexivity.
  app_simpl. rewrite <- (app_nil_r b) at 1.
  rewrite (spanDigits_app b "" Hb) by exact I. reflexivity.
Qed.

Lemma matchRange_inv h a b :
  matchRange h = Some (a, b) ->
  digits a /\ digits b /\ h = "bytes=" ++ a ++ "-" ++ b.
Proof.
  unfold matchRange. intros H.
  destruct (stripPrefix "bytes=" h) as [r|] eqn:Hp; [|discriminate].
  apply stripPrefix_Some in Hp.
  destruct (spanDigits r) as [d1 r1] eqn:E1.
  apply spanDigits_inv in E1 as (-> & Hd1 & _).
  destruct r1 as [|c r2]; [discriminate|].
  destruct (Ascii.eqb c "-") eqn:Ec.
  - apply Ascii.eqb_eq in Ec. subst c.
    destruct (spanDigits r2) as [d2 r3] eqn:E2.
    apply spanDigits_inv in E2 as (-> & Hd2 & _).
    destruct r3; [|discriminate]. inversion H; subst.
    repeat split; try assumption.
    now rewrite app_nil_r.
  - exfalso. revert H. clear -Ec.
    destruct c as [[] [] [] [] [] [] [] []]; try discriminate Ec; discriminate.
Qed.

Lemma matchRange_None h : ~ singleForm h -> matchRange h = None.
Proof.
  intros Hn. destruct (matchRange h) as [[a b]|] eqn:E; [|reflexivity].
  exfalso. apply Hn. apply matchRange_inv in E as (Ha & Hb & ->).
  now exists a, b.
Qed.

(** The guard of the code and the validity condition of the specification
    agree. *)
Lemma guard_validated L s e :
  (if (s >=? L) || (e >=? L) || (s >? e) then None else Some (mkRange s e))
  = validated L s e.
Proof.
  unfold validated.
  destruct (Z_le_dec L s), (Z_le_dec L e), (Z_lt_dec e s);
    destruct (s >=? L) eqn:E1, (e >=? L) eqn:E2, (s >? e) eqn:E3;
    simpl; try reflexivity; lia.
Qed.

Lemma truthy_nonempty s : s <> "" -> truthy s = true.
Proof. destruct s; [congruence | reflexivity]. Qed.

Lemma all_digits_weaken (p : ascii -> bool) s :
  (forall ch, isDigit ch = true -> p ch = true) -> digits s -> all p s = true.
Proof.
  intros Hp. unfold digits. induction s as [|ch s IH]; simpl; [reflexivity|].
  intros H. apply andb_true_iff in H as [H1 H2].
  now rewrite (Hp _ H1), IH.
Qed.

Lemma digit_not_comma ch : isDigit ch = true -> negb (Ascii.eqb ch ",") = true.
Proof.
  destruct (Ascii.eqb ch ",") eqn:E; [|reflexivity].
  apply Ascii.eqb_eq in E. subst ch. discriminate.
Qed.

Lemma parseIntFrom_nonneg s : forall acc,
  digits s -> 0 <= acc -> 0 <= parseIntFrom acc s.
Proof.
  unfold digits. induction s as [|c s IH]; intros acc Hd Hacc; simpl; [assumption|].
  simpl in Hd. apply andb_true_iff in Hd as [Hc Hd].
  apply IH; [assumption|]. unfold isDigit in Hc.
  apply andb_true_iff in Hc as [Hlo _]. lia.
Qed.

Lemma validated_Some L s e r :
  validated L s e = Some r -> r = mkRange s e /\ s < L /\ e < L /\ s <= e.
Proof.
  unfold validated.
  destruct (Z_le_dec L s); [discriminate|].
  destruct (Z_le_dec L e); [discriminate|].
  destruct (Z_lt_dec e s); [discriminate|].
  intros H. inversion H. repeat split; lia.
Qed.

(** C1. For every content length [L > 0] the range parser refines the
    reference definition of the specification: [bytes=N-M] gives the
    validated pair (N, M), [bytes=N-] the validated pair (N, L-1),
    [bytes=-N] the validated pair (max 0 (L-N), L-1), a header that is not
    of the single form gives null, and so does every multi-range header;
    what is returned is always a window inside the content, for a header
    of the single form. *)
Theorem parseRangeHeader_refines_spec (L : Z) (HL : 0 < L) :
  (forall h r, parseRange_spec L h r -> parseRangeHeader h L = r) /\
  (forall a b c d,
      parseRangeHeader ("bytes=" ++ a ++ "-" ++ b ++ "," ++ c ++ "-" ++ d) L = None) /\
  (forall h r, parseRangeHeader h L = Some r ->
      singleForm h /\ 0 <= start r <= end_ r /\ end_ r < L).
Proof.
  split; [|split].
  - intros h r Hs. destruct Hs as [n m Hn Hm Hne Hme | n Hn Hne | n Hn Hne | h Hh].
    + unfold parseRangeHeader. rewrite matchRange_form by assumption.
      rewrite !truthy_nonempty by assumption. simpl. apply guard_validated.
    + unfold parseRangeHeader.
      change ("bytes=" ++ n ++ "-") with ("bytes=" ++ n ++ "-" ++ "").
      rewrite (matchRange_form n "" Hn eq_refl).
      rewrite (truthy_nonempty n) by assumption. simpl. apply guard_validated.
    + unfold parseRangeHeader.
      change ("bytes=-" ++ n) with ("bytes=" ++ "" ++ "-" ++ n).
      rewrite (matchRange_form "" n eq_refl Hn).
      rewrite (truthy_nonempty n) by assumption. simpl. apply guard_validated.
    + unfold parseRangeHeader. now rewrite matchRange_None.
  - intros a b c d. unfold parseRangeHeader.
    destruct (matchRange _) as [[x y]|] eqn:E; [|reflexivity].
    exfalso. apply matchRange_inv in E as (Hx & Hy & E).
    apply (f_equal (all (fun ch => negb (Ascii.eqb ch ",")))) in E.
    rewrite !all_app in E. simpl in E.
    rewrite (all_digits_weaken _ x), (all_digits_weaken _ y) in E;
      try assumption; try (intros ch Hch; now apply digit_not_comma).
    rewrite andb_false_r in E. simpl in E.
    rewrite andb_false_r in E. discriminate.
  - intros h r H. unfold parseRangeHeader in H.
    destruct (matchRange h) as [[a b]|] eqn:E; [|discriminate].
    apply matchRange_inv in E as (Ha & Hb & ->).
    split; [now exists a, b|].
    pose proof (parseIntFrom_nonneg a 0 Ha ltac:(lia)) as Pa.
    pose proof (parseIntFrom_nonneg b 0 Hb ltac:(lia)) as Pb.
    fold (parseInt a) in Pa. fold (parseInt b) in Pb.
    destruct (truthy a), (truthy b); simpl in H; rewrite guard_validated in H;
      apply validated_Some in H as (-> & ? & ? & ?); simpl; lia.
Qed.

(** C10. For every content length [L >= 1] the header [bytes=-], with both
    bounds empty, yields the full range: the start defaults to 0, the end to
    [L - 1], and the suffix branch needs a written end bound. *)
Theorem parseRangeHeader_both_empty (L : Z) (HL : 1 <= L) :
  parseRangeHeader "bytes=-" L = Some (mkRange 0 (L - 1)).
Proof.
  unfold parseRangeHeader. simpl.
  destruct (0 >=? L) eqn:E1; [lia|].
  destruct (L - 1 >=? L) eqn:E2; [lia|].
  destruct (0 >? L - 1) eqn:E3; [lia|]. reflexivity.
Qed.

Lemma parseRangeHeader_refines_spec_witness :
  parseRangeHeader "bytes=0-99" 1000 = Some (mkRange 0 99).
Proof.
  apply (proj1 (parseRangeHeader_refines_spec 1000 ltac:(lia))).
  apply (spec_both 1000 "0" "99"); (reflexivity || discriminate).
Defined.

Lemma parseRangeHeader_both_empty_witness :
  parseRangeHeader "bytes=-" 1000 = Some (mkRange 0 999).
Proof. apply (parseRangeHeader_both_empty 1000). lia. Defined.

End RangeFacts.

(** ** Chunk manifests *)

Module ChunksFacts.
Import Chunks.

Lemma chunkLoop_length url hj total cs n : forall i,
  length (chunkLoop url hj total cs n i) = n.
Proof. induction n as [|n IH]; intros i; simpl; [reflexivity|]. now rewrite IH. Qed.

Lemma chunkLoop_nth url hj total cs n : forall i k,
  (k < n)%nat ->
  nth_error (chunkLoop url hj total cs n i) k
  = Some (chunkAt url hj total cs (i + Z.of_nat k)).
Proof.
  induction n as [|n IH]; intros i k Hk; [lia|].
  destruct k as [|k]; simpl.
  - now rewrite Z.add_0_r.
  - rewrite IH by lia. do 2 f_equal. lia.
Qed.

(** [ceilDiv] is the ceiling of the quotient: the least [q] with
    [a <= q * b]. *)
Lemma ceilDiv_spec a b : 0 < b ->
  (ceilDiv a b - 1) * b < a <= ceilDiv a b * b.
Proof.
  intros Hb. unfold ceilDiv.
  pose proof (Z.div_mod (- a) b ltac:(lia)) as E.
  pose proof (Z.mod_pos_bound (- a) b Hb) as B.
  nia.
Qed.

Lemma ceilDiv_pos a b : 0 < a -> 0 < b -> 1 <= ceilDiv a b.
Proof. intros Ha Hb. pose proof (ceilDiv_spec a b Hb). nia. Qed.

(** C6. For a positive total size and a positive chunk size the manifest
    has [ceil(totalSize / chunkSize)] descriptors; descriptor [i] starts at
    [i * chunkSize], ends at [min((i+1) * chunkSize - 1, totalSize - 1)] and
    has size [end - start + 1]; the last descriptor ends at
    [totalSize - 1]. *)
Theorem generateManifest_partition
  (this : Z) (url hj : string) (total : Z) (custom : option Z)
  (Htotal : 0 < total) (Hcs : 0 < effectiveChunkSize this custom) :
  let cs := effectiveChunkSize this custom in
  exists m,
    generateManifest this url total hj custom = Some m /\
    chunkSize m = cs /\
    totalChunks m = ceilDiv total cs /\
    (totalChunks m - 1) * cs < total <= totalChunks m * cs /\
    Z.of_nat (length (chunks m)) = totalChunks m /\
    (forall i, 0 <= i < totalChunks m ->
       exists c, nth_error (chunks m) (Z.to_nat i) = Some c /\
         index c = i /\
         start c = i * cs /\
         end_ c = Z.min ((i + 1) * cs - 1) (total - 1) /\
         size c = end_ c - start c + 1) /\
    (exists c, nth_error (chunks m) (Z.to_nat (totalChunks m - 1)) = Some c /\
       end_ c = total - 1 /\ 0 < size c <= cs).
Proof.
  intros cs. unfold generateManifest. fold cs.
  destruct (cs =? 0) eqn:E; [lia|].
  pose proof (ceilDiv_spec total cs Hcs) as Hc.
  pose proof (ceilDiv_pos total cs Htotal Hcs) as Hp.
  eexists. split; [reflexivity|]. simpl.
  repeat split; try lia.
  - rewrite chunkLoop_length. lia.
  - intros i Hi. eexists. split.
    + rewrite chunkLoop_nth by lia. reflexivity.
    + rewrite Z2Nat.id by lia. simpl. repeat split; f_equal; lia.
  - eexists. split.
    + rewrite chunkLoop_nth by lia. reflexivity.
    + rewrite Z2Nat.id by lia. simpl. lia.
Qed.

Lemma generateManifest_partition_witness :
  exists m,
    generateManifest DEFAULT_CHUNK_SIZE "http://host/v.mp4" 1000000 "{}" None
      = Some m /\
    totalChunks m = 4 /\
    exists c, nth_error (chunks m) 3 = Some c /\
      end_ c = 999999 /\ size c = 999999 - 3 * 262144 + 1.
Proof.
  destruct (generateManifest_partition DEFAULT_CHUNK_SIZE "http://host/v.mp4"
              "{}" 1000000 None ltac:(lia) ltac:(reflexivity))
    as (m & Hm & _ & Ht & _ & _ & Hi & _).
  exists m. split; [exact Hm|]. split; [rewrite Ht; reflexivity|].
  destruct (Hi 3) as (c & Hc & _ & Hs & He & Hz).
  - rewrite Ht. vm_compute. split; [discriminate | reflexivity].
  - exists c. split; [exact Hc|]. rewrite Hz, He, Hs. split; reflexivity.
Defined.

End ChunksFacts.

(** ** The hot tier *)

Module HotTierFacts.
Import HotTier.

Lemma map_get_delete_eq k m : List.NoDup (keys m) -> map_get k (map_delete k m) = None.
Proof.
  induction m as [|[k' v] m IH]; intros Hnd; simpl; [reflexivity|].
  inversion Hnd as [|? ? Hnotin Hnd']; subst.
  destruct (String.eqb k' k) eqn:E.
  - apply String.eqb_eq in E. subst k'.
    clear -Hnotin. induction m as [|[k'' v''] m IH]; simpl; [reflexivity|].
    destruct (String.eqb k'' k) eqn:E.
    + apply String.eqb_eq in E. subst. exfalso. apply Hnotin. now left.
    + apply IH. intros H. apply Hnotin. now right.
  - simpl. rewrite E. now apply IH.
Qed.

(** *** The map operations as filters *)

Lemma map_delete_filter k m :
  List.NoDup (keys m) ->
  map_delete k m = List.filter (fun kv => negb (String.eqb (fst kv) k)) m.
Proof.
  induction m as [|[k' v] m IH]; intros Hnd; simpl; [reflexivity|].
  inversion Hnd as [|? ? Hnotin Hnd']; subst.
  destruct (String.eqb k' k) eqn:E; simpl.
  - apply String.eqb_eq in E. subst k'.
    clear -Hnotin. induction m as [|[k'' v''] m IH]; simpl; [reflexivity|].
    destruct (String.eqb k'' k) eqn:E; simpl.
    + apply String.eqb_eq in E. subst. exfalso. apply Hnotin. now left.
    + f_equal. apply IH. intros H. apply Hnotin. now right.
  - f_equal. now apply IH.
Qed.

Lemma keys_filter_incl p (m : JSMap) k :
  In k (keys (List.filter p m)) -> In k (keys m).
Proof.
  unfold keys. rewrite !in_map_iff. intros (kv & <- & Hin).
  apply filter_In in Hin as [Hin _]. now exists kv.
Qed.

Lemma NoDup_keys_filter p (m : JSMap) :
  List.NoDup (keys m) -> List.NoDup (keys (List.filter p m)).
Proof.
  induction m as [|kv m IH]; intros Hnd; simpl; [constructor|].
  inversion Hnd as [|? ? Hnotin Hnd']; subst.
  destruct (p kv); simpl; [|now apply IH].
  constructor; [|now apply IH].
  intros H. apply Hnotin. now apply keys_filter_incl in H.
Qed.

Lemma NoDup_keys_delete k m : List.NoDup (keys m) -> List.NoDup (keys (map_delete k m)).
Proof. intros H. rewrite map_delete_filter by assumption. now apply NoDup_keys_filter. Qed.

Lemma keys_set k v m :
  keys (map_set k v m) = if List.existsb (String.eqb k) (keys m) then keys m else (keys m ++ [k])%list.
Proof.
  induction m as [|[k' v'] m IH]; simpl; [reflexivity|].
  rewrite (String.eqb_sym k k').
  destruct (String.eqb k' k) eqn:E; simpl.
  - apply String.eqb_eq in E. now subst.
  - rewrite IH. now destruct (List.existsb (String.eqb k) (keys m)).
Qed.

Lemma NoDup_keys_set k v m : List.NoDup (keys m) -> List.NoDup (keys (map_set k v m)).
Proof.
  intros Hnd. rewrite keys_set.
  destruct (List.existsb (String.eqb k) (keys m)) eqn:E; [assumption|].
  apply List.NoDup_app; repeat split; try assumption.
  - constructor; [intros []|constructor].
  - intros x Hx [<-|[]].
    assert (List.existsb (String.eqb k) (keys m) = true); [|congruence].
    apply existsb_exists. exists k. split; [assumption|apply String.eqb_refl].
Qed.

Lemma map_set_length k v m :
  (length (map_set k v m) <= S (length m))%nat.
Proof.
  induction m as [|[k' v'] m IH]; simpl; [lia|].
  destruct (String.eqb k' k); simpl; lia.
Qed.

Lemma filter_true {A} (p : A -> bool) l :
  (forall x, In x l -> p x = true) -> List.filter p l = l.
Proof.
  induction l as [|x l IH]; intros H; simpl; [reflexivity|].
  rewrite (H x) by now left. f_equal. apply IH. intros y Hy. apply H. now right.
Qed.

Lemma filter_false {A} (p : A -> bool) l :
  (forall x, In x l -> p x = false) -> List.filter p l = [].
Proof.
  induction l as [|x l IH]; intros H; simpl; [reflexivity|].
  rewrite (H x) by now left. apply IH. intros y Hy. apply H. now right.
Qed.

Lemma filter_filter {A} (p q : A -> bool) l :
  List.filter p (List.filter q l) = List.filter (fun x => q x && p x) l.
Proof.
  induction l as [|x l IH]; simpl; [reflexivity|].
  destruct (q x); simpl; [destruct (p x)|]; now rewrite IH.
Qed.

(** A loop that deletes the keys of the entries of [l] selected by [c]
    leaves the entries whose key was not selected. *)
Lemma delete_loop (c : string * CacheEntry -> bool) l : forall acc,
  List.NoDup (keys acc) ->
  fold_left (fun acc kv => if c kv then map_delete (fst kv) acc else acc) l acc
  = List.filter
      (fun kv => negb (List.existsb (fun kv' => c kv' && String.eqb (fst kv) (fst kv')) l))
      acc.
Proof.
  induction l as [|x l IH]; intros acc Hnd; simpl.
  - symmetry. now apply filter_true.
  - destruct (c x) eqn:Ec; simpl.
    + rewrite IH by now apply NoDup_keys_delete.
      rewrite map_delete_filter by assumption.
      rewrite filter_filter. apply filter_ext. intros kv.
      now rewrite negb_orb.
    + now apply IH.
Qed.

Lemma NoDup_keys_unique (m : JSMap) kv kv' :
  List.NoDup (keys m) -> In kv m -> In kv' m -> fst kv = fst kv' -> kv = kv'.
Proof.
  induction m as [|x m IH]; intros Hnd Hin Hin' Hk; [destruct Hin|].
  inversion Hnd as [|? ? Hnotin Hnd']; subst.
  destruct Hin as [->|Hin], Hin' as [->|Hin'].
  - reflexivity.
  - exfalso. apply Hnotin. rewrite Hk. now apply in_map.
  - exfalso. apply Hnotin. rewrite <- Hk. now apply in_map.
  - now apply IH.
Qed.

(** *** The stable sort by timestamp *)

Lemma insertByTime_perm x l : Permutation (insertByTime x l) (x :: l).
Proof.
  induction l as [|y l IH]; simpl; [reflexivity|].
  destruct (timestamp (snd x) <=? timestamp (snd y)); [reflexivity|].
  rewrite IH. apply perm_swap.
Qed.

Lemma sortByTime_perm l : Permutation (sortByTime l) l.
Proof.
  induction l as [|x l IH]; simpl; [reflexivity|].
  rewrite insertByTime_perm. now constructor.
Qed.

Lemma insertByTime_sorted x l :
  StronglySorted byTime l -> StronglySorted byTime (insertByTime x l).
Proof.
  induction l as [|y l IH]; intros Hs; simpl.
  - repeat constructor.
  - inversion Hs as [|? ? Hs' Hall]; subst.
    destruct (timestamp (snd x) <=? timestamp (snd y)) eqn:E.
    + constructor; [assumption|]. constructor.
      * unfold byTime. lia.
      * eapply List.Forall_impl; [|exact Hall]. unfold byTime. intros; lia.
    + constructor; [now apply IH|].
      eapply Permutation_Forall; [symmetry; apply insertByTime_perm|].
      constructor; [unfold byTime; lia|assumption].
Qed.

Lemma sortByTime_sorted l : StronglySorted byTime (sortByTime l).
Proof.
  induction l as [|x l IH]; simpl; [constructor|]. now apply insertByTime_sorted.
Qed.

Lemma sorted_firstn_skipn l : forall n a b,
  StronglySorted byTime l -> In a (firstn n l) -> In b (skipn n l) -> byTime a b.
Proof.
  induction l as [|x l IH]; intros n a b Hs Ha Hb.
  - destruct n; destruct Ha.
  - destruct n as [|n]; [destruct Ha|]. simpl in Ha, Hb.
    inversion Hs as [|? ? Hs' Hall]; subst.
    destruct Ha as [<-|Ha].
    + rewrite List.Forall_forall in Hall. apply Hall.
      rewrite <- (firstn_skipn n l). apply in_or_app. now right.
    + now apply (IH n).
Qed.

Lemma Permutation_filter {A} (p : A -> bool) l l' :
  Permutation l l' -> Permutation (List.filter p l) (List.filter p l').
Proof.
  induction 1 as [|x l l' Hp IH|x y l|l l' l'' H1 IH1 H2 IH2]; simpl.
  - constructor.
  - destruct (p x); [now constructor|assumption].
  - destruct (p x), (p y); try reflexivity. apply perm_swap.
  - now transitivity (List.filter p l').
Qed.

Section TierFacts.

Variable CACHE_MAX_SIZE : Z.
Variable CACHE_EXPIRY_MS : Z.

#[local] Abbreviation expired := (expired CACHE_EXPIRY_MS).
#[local] Abbreviation sweepExpired := (sweepExpired CACHE_EXPIRY_MS).
#[local] Abbreviation evictOldest := (evictOldest CACHE_MAX_SIZE).
#[local] Abbreviation cleanupCache := (cleanupCache CACHE_MAX_SIZE CACHE_EXPIRY_MS).

(** The first loop of the sweep keeps exactly the entries within the TTL. *)
Lemma sweepExpired_filter now m :
  List.NoDup (keys m) ->
  sweepExpired now m = List.filter (fun kv => negb (expired now (snd kv))) m.
Proof.
  intros Hnd. unfold HotTier.sweepExpired.
  rewrite (delete_loop (fun kv => expired now (snd kv))) by assumption.
  apply filter_ext_in. intros kv Hin. f_equal.
  destruct (expired now (snd kv)) eqn:E.
  - apply existsb_exists. exists kv. split; [assumption|].
    now rewrite E, String.eqb_refl.
  - destruct (List.existsb _ m) eqn:Ex; [|reflexivity].
    apply existsb_exists in Ex as (kv' & Hin' & Hc).
    apply andb_true_iff in Hc as [Hc Hk]. apply String.eqb_eq in Hk.
    rewrite (NoDup_keys_unique m kv kv' Hnd Hin Hin' Hk) in E. congruence.
Qed.

(** Above capacity, the second part of the sweep leaves the
    [CACHE_MAX_SIZE] youngest entries: what it keeps is the tail of the
    entries sorted by timestamp. *)
Lemma evictOldest_kept m :
  List.NoDup (keys m) -> CACHE_MAX_SIZE < map_size m ->
  Permutation (evictOldest m)
    (skipn (Z.to_nat (map_size m - CACHE_MAX_SIZE)) (sortByTime m)).
Proof.
  intros Hnd Hsz. unfold HotTier.evictOldest.
  destruct (map_size m >? CACHE_MAX_SIZE) eqn:E; [|lia].
  set (n := Z.to_nat (map_size m - CACHE_MAX_SIZE)).
  pose proof (delete_loop (fun _ => true) (firstn n (sortByTime m)) m Hnd) as D.
  simpl in D. rewrite D. clear D.
  rewrite (Permutation_filter _ m (sortByTime m))
    by (symmetry; apply sortByTime_perm).
  assert (Hnd' : List.NoDup (keys (sortByTime m))).
  { unfold keys. eapply Permutation_NoDup; [|exact Hnd].
    apply Permutation_map. symmetry. apply sortByTime_perm. }
  revert Hnd'. rewrite <- (firstn_skipn n (sortByTime m)) at 1 2.
  generalize (firstn n (sortByTime m)) (skipn n (sortByTime m)).
  intros front back Hnd'. rewrite List.filter_app.
  rewrite (filter_false _ front), (filter_true _ back); [reflexivity| |].
  - intros kv Hin. apply negb_true_iff.
    destruct (List.existsb _ front) eqn:Ex; [|reflexivity].
    apply existsb_exists in Ex as (kv' & Hin' & Hk). apply String.eqb_eq in Hk.
    exfalso. unfold keys in Hnd'. rewrite map_app in Hnd'.
    apply NoDup_app_remove_l in Hnd' as Hb.
    clear -Hnd' Hin Hin' Hk.
    induction front as [|f front IH]; [destruct Hin'|].
    simpl in Hnd'. inversion Hnd' as [|? ? Hnotin Hnd'']; subst.
    destruct Hin' as [->|Hin'].
    + apply Hnotin. apply in_or_app. right. rewrite <- Hk. now apply in_map.
    + now apply IH.
  - intros kv Hin. apply negb_false_iff. apply existsb_exists.
    exists kv. split; [assumption|apply String.eqb_refl].
Qed.

Lemma evictOldest_size m :
  0 <= CACHE_MAX_SIZE -> List.NoDup (keys m) ->
  map_size (evictOldest m) = Z.min (map_size m) CACHE_MAX_SIZE.
Proof.
  intros Hmax Hnd.
  destruct (Z_lt_dec CACHE_MAX_SIZE (map_size m)) as [Hgt|Hle].
  - unfold map_size at 1.
    rewrite (Permutation_length (evictOldest_kept m Hnd Hgt)).
    rewrite length_skipn.
    rewrite (Permutation_length (sortByTime_perm m)).
    unfold map_size in *. lia.
  - unfold HotTier.evictOldest.
    destruct (map_size m >? CACHE_MAX_SIZE) eqn:E; lia.
Qed.

Lemma evictOldest_NoDup m : List.NoDup (keys m) -> List.NoDup (keys (evictOldest m)).
Proof.
  intros Hnd. unfold HotTier.evictOldest.
  destruct (map_size m >? CACHE_MAX_SIZE); [|assumption].
  pose proof (delete_loop (fun _ => true)
                (firstn (Z.to_nat (map_size m - CACHE_MAX_SIZE)) (sortByTime m))
                m Hnd) as D.
  simpl in D. rewrite D. now apply NoDup_keys_filter.
Qed.

(** Every entry the eviction removes is at least as old as every entry it
    keeps. *)
Lemma evictOldest_oldest m kept removed :
  List.NoDup (keys m) -> CACHE_MAX_SIZE < map_size m ->
  In kept (evictOldest m) -> In removed m -> ~ In removed (evictOldest m) ->
  timestamp (snd removed) <= timestamp (snd kept).
Proof.
  intros Hnd Hgt Hk Hr Hnr.
  pose proof (evictOldest_kept m Hnd Hgt) as P.
  set (n := Z.to_nat (map_size m - CACHE_MAX_SIZE)) in *.
  apply (sorted_firstn_skipn (sortByTime m) n removed kept).
  - apply sortByTime_sorted.
  - assert (In removed (sortByTime m)) as Hs.
    { eapply Permutation_in; [symmetry; apply sortByTime_perm|assumption]. }
    rewrite <- (firstn_skipn n (sortByTime m)) in Hs.
    apply in_app_or in Hs as [Hs|Hs]; [assumption|].
    exfalso. apply Hnr. eapply Permutation_in; [symmetry; exact P|assumption].
  - eapply Permutation_in; [exact P|assumption].
Qed.

Lemma sweepExpired_NoDup now m :
  List.NoDup (keys m) -> List.NoDup (keys (sweepExpired now m)).
Proof.
  intros Hnd. rewrite sweepExpired_filter by assumption.
  now apply NoDup_keys_filter.
Qed.

Lemma cleanupCache_NoDup now m :
  List.NoDup (keys m) -> List.NoDup (keys (cleanupCache now m)).
Proof. intros Hnd. apply evictOldest_NoDup. now apply sweepExpired_NoDup. Qed.

(** After a sweep the map is within capacity, and nothing in it is
    expired. *)
Lemma cleanupCache_size now m :
  0 <= CACHE_MAX_SIZE -> List.NoDup (keys m) ->
  map_size (cleanupCache now m) <= CACHE_MAX_SIZE.
Proof.
  intros Hmax Hnd. unfold HotTier.cleanupCache.
  rewrite evictOldest_size by (try assumption; now apply sweepExpired_NoDup).
  lia.
Qed.

(** An insert through [prefetchMP4Chunk] can leave one entry more than the
    capacity, never two. *)
Lemma prefetchMP4Chunk_size disabled t0 t1 t2 url a b resp m :
  0 <= CACHE_MAX_SIZE -> List.NoDup (keys m) ->
  map_size m <= CACHE_MAX_SIZE + 1 ->
  map_size (prefetchMP4Chunk CACHE_MAX_SIZE CACHE_EXPIRY_MS
              disabled t0 t1 t2 url a b resp m) <= CACHE_MAX_SIZE + 1.
Proof.
  intros Hmax Hnd Hsz. unfold prefetchMP4Chunk.
  destruct disabled; [assumption|].
  set (m1 := if map_size m >=? CACHE_MAX_SIZE then cleanupCache t0 m else m).
  assert (map_size m1 <= CACHE_MAX_SIZE) as H1.
  { subst m1. destruct (map_size m >=? CACHE_MAX_SIZE) eqn:E; [|lia].
    now apply cleanupCache_size. }
  destruct (match map_get _ m1 with Some _ => _ | None => _ end); [lia|].
  destruct resp as [[body hs]|]; [|lia].
  pose proof (map_set_length (chunkKey url (rangeText a b))
                (mkEntry body hs t2 (Some (rangeText a b))) m1).
  unfold map_size in *. lia.
Qed.

Lemma prefetchMP4Chunk_NoDup disabled t0 t1 t2 url a b resp m :
  List.NoDup (keys m) ->
  List.NoDup (keys (prefetchMP4Chunk CACHE_MAX_SIZE CACHE_EXPIRY_MS
                 disabled t0 t1 t2 url a b resp m)).
Proof.
  intros Hnd. unfold prefetchMP4Chunk.
  destruct disabled; [assumption|].
  set (m1 := if map_size m >=? CACHE_MAX_SIZE then cleanupCache t0 m else m).
  assert (List.NoDup (keys m1)) as H1.
  { subst m1. destruct (map_size m >=? CACHE_MAX_SIZE); [|assumption].
    now apply cleanupCache_NoDup. }
  destruct (match map_get _ m1 with Some _ => _ | None => _ end); [assumption|].
  destruct resp as [[body hs]|]; [|assumption].
  now apply NoDup_keys_set.
Qed.

(** For calls that run one after another, each to its end, the size stays
    within the capacity plus one.  This is a fact about such histories
    only: calls that wait for their fetch at the same time have all
    passed the guard before any of them stores, and the map then grows by
    one entry for each of them. *)
Lemma run_size disabled ops : forall m,
  0 <= CACHE_MAX_SIZE -> List.NoDup (keys m) ->
  map_size m <= CACHE_MAX_SIZE + 1 ->
  List.NoDup (keys (run CACHE_MAX_SIZE CACHE_EXPIRY_MS disabled ops m)) /\
  map_size (run CACHE_MAX_SIZE CACHE_EXPIRY_MS disabled ops m)
    <= CACHE_MAX_SIZE + 1.
Proof.
  induction ops as [|o ops IH]; intros m Hmax Hnd Hsz; simpl; [now split|].
  apply IH; [assumption| |].
  - destruct o; simpl; [now apply prefetchMP4Chunk_NoDup|now apply cleanupCache_NoDup].
  - destruct o; simpl; [now apply prefetchMP4Chunk_size|].
    pose proof (cleanupCache_size now m Hmax Hnd). lia.
Qed.

End TierFacts.

(** *** Reading the map *)

Lemma getCached_hit EXPIRY disabled now key m e m' :
  getCached EXPIRY disabled now key m = (Some e, m') ->
  now - timestamp e <= EXPIRY /\ map_get key m = Some e /\ m' = m.
Proof.
  unfold getCached. destruct disabled; [discriminate|].
  destruct (map_get key m) as [e0|]; [|discriminate].
  destruct (now - timestamp e0 >? EXPIRY) eqn:E; [discriminate|].
  intros H. inversion H; subst. repeat split. lia.
Qed.

Lemma getCached_stale EXPIRY now key m e :
  map_get key m = Some e -> EXPIRY < now - timestamp e ->
  getCached EXPIRY false now key m = (None, map_delete key m).
Proof.
  intros He Hage. unfold getCached. rewrite He.
  destruct (now - timestamp e >? EXPIRY) eqn:E; [reflexivity|lia].
Qed.

Lemma getCached_fresh EXPIRY now key m e :
  map_get key m = Some e -> now - timestamp e <= EXPIRY ->
  getCached EXPIRY false now key m = (Some e, m).
Proof.
  intros He Hage. unfold getCached. rewrite He.
  destruct (now - timestamp e >? EXPIRY) eqn:E; [lia|reflexivity].
Qed.

(** C7. A hot-tier get never returns an entry older than the TTL.  With
    the cache in operation, a stored entry whose age exceeds the TTL is
    deleted from the map and the get reports a miss, and a stored entry
    within the TTL is returned with the map left as it is.  The segment
    cache and the MP4 chunk cache share this behaviour, each with its own
    TTL. *)
Theorem getCached_ttl (now : Z) (key url range : string) (m : JSMap)
  (Hm : List.NoDup (keys m)) :
  (forall disabled e m',
     Segment.getCachedSegment disabled now key m = (Some e, m') ->
     now - timestamp e <= Segment.CACHE_EXPIRY_MS /\
     map_get key m = Some e /\ m' = m) /\
  (forall disabled e m',
     Chunk.getCachedChunk disabled now url range m = (Some e, m') ->
     now - timestamp e <= Chunk.CACHE_EXPIRY_MS /\
     map_get (chunkKey url range) m = Some e /\ m' = m) /\
  (forall e, map_get key m = Some e ->
     Segment.CACHE_EXPIRY_MS < now - timestamp e ->
     Segment.getCachedSegment false now key m = (None, map_delete key m) /\
     map_get key (map_delete key m) = None) /\
  (forall e, map_get (chunkKey url range) m = Some e ->
     Chunk.CACHE_EXPIRY_MS < now - timestamp e ->
     Chunk.getCachedChunk false now url range m
       = (None, map_delete (chunkKey url range) m) /\
     map_get (chunkKey url range) (map_delete (chunkKey url range) m) = None) /\
  (forall e, map_get key m = Some e ->
     now - timestamp e <= Segment.CACHE_EXPIRY_MS ->
     Segment.getCachedSegment false now key m = (Some e, m)) /\
  (forall e, map_get (chunkKey url range) m = Some e ->
     now - timestamp e <= Chunk.CACHE_EXPIRY_MS ->
     Chunk.getCachedChunk false now url range m = (Some e, m)).
Proof.
  unfold Segment.getCachedSegment, Chunk.getCachedChunk.
  split; [intros disabled e m' H; now apply getCached_hit in H|].
  split; [intros disabled e m' H; now apply getCached_hit in H|].
  split; [intros e He Hage; split;
          [eapply getCached_stale; eassumption|now apply map_get_delete_eq]|].
  split; [intros e He Hage; split;
          [eapply getCached_stale; eassumption|now apply map_get_delete_eq]|].
  split; intros e He Hage; now apply getCached_fresh.
Qed.

Lemma getCached_ttl_witness :
  Segment.getCachedSegment false (Segment.CACHE_EXPIRY_MS + 1)
    "http://host/a/seg1.ts" Segment.oneSegment = (None, []) /\
  Segment.getCachedSegment false Segment.CACHE_EXPIRY_MS
    "http://host/a/seg1.ts" Segment.oneSegment
  = (Some Segment.storedSegment, Segment.oneSegment).
Proof.
  assert (List.NoDup (keys Segment.oneSegment)) as Hm
    by (repeat constructor; intros []).
  destruct (getCached_ttl (Segment.CACHE_EXPIRY_MS + 1)
              "http://host/a/seg1.ts" "" "" Segment.oneSegment Hm)
    as (_ & _ & Hstale & _).
  destruct (getCached_ttl Segment.CACHE_EXPIRY_MS
              "http://host/a/seg1.ts" "" "" Segment.oneSegment Hm)
    as (_ & _ & _ & _ & Hfresh & _).
  split.
  - apply (Hstale Segment.storedSegment); [reflexivity | vm_compute; reflexivity].
  - apply (Hfresh Segment.storedSegment); [reflexivity | vm_compute; discriminate].
Defined.

(** C3. The size bound fails on the code: 501 inserts of distinct keys
    through [prefetchMP4Chunk], none expired, leave 501 entries in a map
    whose capacity is 500; the guard before the insert sweeps the map down
    to the capacity, not below it.  A sweep then brings the size back to
    500. *)
Theorem hot_tier_exceeds_capacity :
  Chunk.CACHE_MAX_SIZE = 500 /\
  map_size (Chunk.run false (Chunk.burst 501 0) []) = 501 /\
  map_size (Chunk.cleanupCache 0 (Chunk.run false (Chunk.burst 501 0) [])) = 500.
Proof. vm_compute. repeat split. Qed.

End HotTierFacts.

(** ** The warm tier *)

Module WarmTierFacts.
Import WarmTier.

(** C2. Reading an envelope: with [version = 2] the base64-decoded data is
    gunzipped and the result is the payload of the entry; with [version]
    1 or absent the base64-decoded bytes are the payload and nothing is
    decompressed.  Writing: the envelope stored by [set] has
    [version = 2] and its data is the base64 text of the gzipped
    payload. *)
Theorem warm_tier_versions
  (JSON_parse : string -> option CacheStorageFormat)
  (JSON_stringify : CacheStorageFormat -> string)
  (gzip : list byte -> list byte)
  (gunzip : list byte -> option (list byte))
  (fromBase64 : string -> list byte)
  (this : RedisCache) (store : gmap string (Z * string)) (url : string)
  (Hconn : isConnected this = true) (Hclient : client this = Some store) :
  (forall ttl text env,
      store !! getCacheKey url = Some (ttl, text) ->
      JS.truthy text = true -> JSON_parse text = Some env ->
      (version env = Some 2 ->
         get JSON_parse gunzip fromBase64 this url
         = option_map (fun bytes => mkEntry bytes (sf_headers env) (sf_timestamp env))
                      (gunzip (fromBase64 (sf_data env)))) /\
      (version env = Some 1 \/ version env = None ->
         get JSON_parse gunzip fromBase64 this url
         = Some (mkEntry (fromBase64 (sf_data env)) (sf_headers env)
                         (sf_timestamp env)))) /\
  (forall entry,
      exists store',
        client (set JSON_stringify gzip this url entry) = Some store' /\
        store' !! getCacheKey url
        = Some (CACHE_EXPIRY_SECONDS,
                JSON_stringify
                  (mkStored (Base64.encode (gzip (data entry)))
                            (headers entry) (timestamp entry) (Some 2)))).
Proof.
  split.
  - intros ttl text env Hlook Htext Hparse.
    unfold get. rewrite Hconn, Hclient, Hlook, Htext, Hparse. simpl.
    split.
    + intros ->. now destruct (gunzip _).
    + intros [-> | ->]; reflexivity.
  - intros entry. unfold set. rewrite Hconn, Hclient. simpl.
    eexists. split; [reflexivity|]. apply lookup_insert_eq.
Qed.

Lemma warm_tier_versions_witness :
  get Sample.JSON_parse Sample.gunzip Sample.fromBase64
      (Sample.connected Sample.version2Text) Sample.segmentUrl
  = Some Sample.entry /\
  get Sample.JSON_parse Sample.gunzip Sample.fromBase64
      (Sample.connected Sample.version1Text) Sample.segmentUrl
  = Some Sample.entry.
Proof.
  split.
  - destruct (warm_tier_versions Sample.JSON_parse Sample.JSON_stringify
                Sample.gzip Sample.gunzip Sample.fromBase64
                (Sample.connected Sample.version2Text)
                (Sample.storeWith Sample.version2Text) Sample.segmentUrl
                eq_refl eq_refl) as [Hget _].
    destruct (Hget CACHE_EXPIRY_SECONDS Sample.version2Text
                (mkStored "H4toaQ==" [("content-type", "video/mp2t")] 5 (Some 2)))
      as [H2 _]; [vm_compute; reflexivity | reflexivity | reflexivity |].
    rewrite H2 by reflexivity. vm_compute. reflexivity.
  - destruct (warm_tier_versions Sample.JSON_parse Sample.JSON_stringify
                Sample.gzip Sample.gunzip Sample.fromBase64
                (Sample.connected Sample.version1Text)
                (Sample.storeWith Sample.version1Text) Sample.segmentUrl
                eq_refl eq_refl) as [Hget _].
    destruct (Hget CACHE_EXPIRY_SECONDS Sample.version1Text
                (mkStored "aGk=" [("content-type", "video/mp2t")] 5 (Some 1)))
      as [_ H1]; [vm_compute; reflexivity | reflexivity | reflexivity |].
    rewrite H1 by (left; reflexivity). vm_compute. reflexivity.
Defined.

End WarmTierFacts.

(** ** The global cache-disable flag *)

Module DisableFacts.
Import HotTier WarmTier.

(** C9, as stated, fails on the warm tier: with the flag set, the methods
    of [RedisCache] still read, write and delete, because they look at the
    connection only. *)
Lemma warm_tier_methods_ignore_flag :
  ~ (forall (config : Config) (rc : RedisCache) (url : string) (e : CacheEntry),
        DISABLE_CACHE config = true ->
        get Sample.JSON_parse Sample.gunzip Sample.fromBase64 rc url = None /\
        set Sample.JSON_stringify Sample.gzip rc url e = rc /\
        delete rc url = rc).
Proof.
  intros H.
  destruct (H (mkConfig true) (Sample.connected Sample.legacyText)
              Sample.segmentUrl Sample.entry eq_refl) as [Hget _].
  vm_compute in Hget. discriminate Hget.
Qed.

(** C9, amended.  With the flag of the configuration set, the hot-tier
    get of the segment cache misses whatever the map holds and leaves the
    map as it is, and [RedisCache.isCacheDisabled] reports the warm tier
    as disabled whatever the state of its connection.  The methods of
    [RedisCache] themselves do not read the flag: on a connected client,
    [get] still returns the entry of a stored envelope, [set] still writes
    the key and [delete] still removes it. *)
Theorem cache_disabled_is_off
  (JSON_parse : string -> option CacheStorageFormat)
  (JSON_stringify : CacheStorageFormat -> string)
  (gzip : list byte -> list byte)
  (gunzip : list byte -> option (list byte))
  (fromBase64 : string -> list byte)
  (config : Config) (Hflag : DISABLE_CACHE config = true) :
  (forall now url m,
      Segment.getCachedSegment (DISABLE_CACHE config) now url m = (None, m)) /\
  (forall rc, isCacheDisabled config rc = true) /\
  (forall rc store url,
      isConnected rc = true -> client rc = Some store ->
      (forall ttl text env,
          store !! getCacheKey url = Some (ttl, text) ->
          JS.truthy text = true -> JSON_parse text = Some env ->
          version env <> Some 2 ->
          get JSON_parse gunzip fromBase64 rc url
          = Some (mkEntry (fromBase64 (sf_data env)) (sf_headers env)
                          (sf_timestamp env))) /\
      (forall entry,
          client (set JSON_stringify gzip rc url entry)
          = Some (<[getCacheKey url :=
                      (CACHE_EXPIRY_SECONDS,
                       JSON_stringify
                         (mkStored (Base64.encode (gzip (data entry)))
                                   (headers entry) (timestamp entry) (Some 2)))]>
                    store)) /\
      client (delete rc url) = Some (base.delete (getCacheKey url) store)).
Proof.
  split; [|split].
  - intros now url m. now rewrite Hflag.
  - intros rc. unfold isCacheDisabled. now rewrite Hflag.
  - intros rc store url Hconn Hclient. split; [|split].
    + intros ttl text env Hlook Htext Hparse Hversion.
      unfold get. rewrite Hconn, Hclient, Hlook, Htext, Hparse. cbn [negb].
      destruct (version env) as [v|]; [|reflexivity].
      destruct (Z.eq_dec v 2) as [-> | Hne]; [congruence|].
      destruct v as [|[p|p|]|p]; try reflexivity.
      destruct p; try reflexivity. congruence.
    + intros entry. unfold set. now rewrite Hconn, Hclient.
    + unfold delete. now rewrite Hconn, Hclient.
Qed.

Lemma cache_disabled_is_off_witness :
  Segment.getCachedSegment true 0 "http://host/a/seg1.ts" Segment.oneSegment
    = (None, Segment.oneSegment) /\
  isCacheDisabled (mkConfig true) (Sample.connected Sample.legacyText) = true /\
  get Sample.JSON_parse Sample.gunzip Sample.fromBase64
      (Sample.connected Sample.legacyText) Sample.segmentUrl
  = Some Sample.entry.
Proof.
  destruct (cache_disabled_is_off Sample.JSON_parse Sample.JSON_stringify
              Sample.gzip Sample.gunzip Sample.fromBase64 (mkConfig true) eq_refl)
    as (Hhot & Hreport & Hmethods).
  split; [apply (Hhot 0 "http://host/a/seg1.ts" Segment.oneSegment)|].
  split; [apply Hreport|].
  destruct (Hmethods (Sample.connected Sample.legacyText)
              (Sample.storeWith Sample.legacyText) Sample.segmentUrl
              eq_refl eq_refl) as (Hget & _ & _).
  rewrite (Hget CACHE_EXPIRY_SECONDS Sample.legacyText
             (mkStored "aGk=" [("content-type", "video/mp2t")] 5 None)).
  - vm_compute. reflexivity.
  - vm_compute. reflexivity.
  - reflexivity.
  - reflexivity.
  - discriminate.
Defined.

End DisableFacts.

(** ** The URL resolver *)

Module ResolverFacts.
Import JS JSFacts Resolver.

Lemma app_cons_r s c t : (s ++ String c "") ++ t = s ++ String c t.
Proof. now rewrite app_assoc. Qed.

Lemma atBoundary_noDigit t : atBoundary t = true -> noDigitAhead t.
Proof.
  destruct t as [|c t]; simpl; [trivial|].
  unfold isHostChar. rewrite negb_involutive. intros H.
  apply orb_true_iff in H as [H|H]; apply Ascii.eqb_eq in H; now subst.
Qed.

(** A run of digits inside the host name stops at a character that is not
    a boundary. *)
Lemma spanDigits_in_host h rest :
  all isHostChar h = true ->
  atBoundary (snd (spanDigits (h ++ String ":" rest))) = false.
Proof.
  induction h as [|c h IH]; intros Hh; app_simpl.
  - reflexivity.
  - simpl in Hh. apply andb_true_iff in Hh as [Hc Hh].
    simpl. destruct (isDigit c).
    + specialize (IH Hh). now destruct (spanDigits (h ++ String ":" rest)).
    + simpl. now rewrite Hc.
Qed.

Lemma matchPort_in_host c h rest :
  isHostChar c = true -> all isHostChar h = true ->
  matchPort (String c (h ++ String ":" rest)) = None.
Proof.
  intros Hc Hh. unfold matchPort.
  destruct (Ascii.eqb c ":") eqn:E.
  - apply Ascii.eqb_eq in E. subst c.
    pose proof (spanDigits_in_host h rest Hh) as Hb.
    destruct (spanDigits (h ++ String ":" rest)) as [d t]. simpl in Hb.
    now rewrite Hb, andb_false_r.
  - destruct c as [[] [] [] [] [] [] [] []]; try reflexivity; discriminate E.
Qed.

Lemma matchPort_at_port p t :
  all isDigit p = true -> (String.length p <= 5)%nat -> atBoundary t = true ->
  matchPort (String ":" (p ++ t)) = Some (p, t).
Proof.
  intros Hp Hlen Ht. unfold matchPort.
  rewrite (spanDigits_app p t Hp (atBoundary_noDigit t Ht)).
  rewrite Ht, andb_true_r.
  destruct (String.length p <=? 5)%nat eqn:E; [reflexivity|].
  apply Nat.leb_gt in E. lia.
Qed.

Lemma matchHost_eq host s :
  matchHost host s
  = match matchPort s with
    | Some (p, t) => Some (host, Some p, t)
    | None =>
        if atBoundary s then Some (host, None, s)
        else
          match s with
          | String c r =>
              if isHostChar c then matchHost (host ++ String c EmptyString) r
              else None
          | EmptyString => None
          end
    end.
Proof. destruct s; reflexivity. Qed.

(** The lazy host name takes everything before the colon of the port. *)
Lemma matchHost_port h : forall acc p t,
  all isHostChar h = true ->
  all isDigit p = true -> (String.length p <= 5)%nat -> atBoundary t = true ->
  matchHost acc (h ++ String ":" (p ++ t)) = Some (acc ++ h, Some p, t).
Proof.
  induction h as [|c h IH]; intros acc p t Hh Hp Hlen Ht; app_simpl.
  - rewrite matchHost_eq, matchPort_at_port by assumption.
    now rewrite app_nil_r.
  - simpl in Hh. apply andb_true_iff in Hh as [Hc Hh].
    rewrite matchHost_eq, matchPort_in_host by assumption.
    simpl atBoundary. rewrite Hc. simpl negb. cbv iota.
    rewrite IH by assumption. now rewrite app_cons_r.
Qed.

Lemma matchPort_no_colon c s :
  Ascii.eqb c ":" = false -> matchPort (String c s) = None.
Proof.
  intros E. destruct c as [[] [] [] [] [] [] [] []]; try reflexivity; discriminate E.
Qed.

Lemma stripPrefixCI_app p q : forall s w r,
  stripPrefixCI (p ++ q) s = Some (w, r) -> exists w' r', stripPrefixCI p s = Some (w', r').
Proof.
  induction p as [|a p IH]; intros s w r H; [simpl; eauto|].
  rewrite app_cons in H. simpl in *.
  destruct s as [|b s]; [discriminate|].
  destruct (Ascii.eqb a (lower b)); [|discriminate].
  destruct (stripPrefixCI (p ++ q) s) as [[w0 r0]|] eqn:E; [|discriminate].
  destruct (IH s w0 r0 E) as (w' & r' & ->). eauto.
Qed.

Lemma undeclared_no_scheme req :
  declaresHttpScheme req = false ->
  stripPrefixCI "https://" req = None /\ stripPrefixCI "http://" req = None.
Proof.
  unfold declaresHttpScheme. intros H. split.
  - destruct (stripPrefixCI "https://" req) as [[w r]|] eqn:E; [|reflexivity].
    destruct (stripPrefixCI_app "https:" "//" req w r E) as (w' & r' & E').
    rewrite E' in H. discriminate.
  - destruct (stripPrefixCI "http://" req) as [[w r]|] eqn:E; [|reflexivity].
    destruct (stripPrefixCI_app "http:" "//" req w r E) as (w' & r' & E').
    rewrite E' in H. now destruct (stripPrefixCI "https:" req).
Qed.

Lemma startsWith_slashes_app s :
  startsWith ("//" ++ s) "//" = true.
Proof. reflexivity. Qed.

Lemma startsWith_hostchar c s :
  isHostChar c = true -> startsWith (String c s) "//" = false.
Proof.
  unfold isHostChar. intros H. apply negb_true_iff in H.
  apply orb_false_iff in H as [H _]. unfold startsWith.
  change (stripPrefix "//" (String c s))
    with (if Ascii.eqb "/" c then stripPrefix "/" s else None).
  rewrite Ascii.eqb_sym. now rewrite H.
Qed.

(** *** Letters in either case *)

Ltac by_character c :=
  destruct c as [[] [] [] [] [] [] [] []]; vm_compute;
  let H := fresh in intros H; try discriminate H; auto.

Lemma lower_h c : Ascii.eqb "h" (lower c) = true -> Reference.letter "h" "H" c.
Proof. unfold Reference.letter. by_character c. Qed.

Lemma lower_t c : Ascii.eqb "t" (lower c) = true -> Reference.letter "t" "T" c.
Proof. unfold Reference.letter. by_character c. Qed.

Lemma lower_p c : Ascii.eqb "p" (lower c) = true -> Reference.letter "p" "P" c.
Proof. unfold Reference.letter. by_character c. Qed.

Lemma lower_s c : Ascii.eqb "s" (lower c) = true -> Reference.letter "s" "S" c.
Proof. unfold Reference.letter. by_character c. Qed.

Lemma lower_colon c : Ascii.eqb ":" (lower c) = true -> c = ":"%char.
Proof. by_character c. Qed.

Lemma lower_slash c : Ascii.eqb "/" (lower c) = true -> c = "/"%char.
Proof. by_character c. Qed.

Lemma stripPrefixCI_cons a p b s w r :
  stripPrefixCI (String a p) (String b s) = Some (w, r) ->
  Ascii.eqb a (lower b) = true /\
  exists w', w = String b w' /\ stripPrefixCI p s = Some (w', r).
Proof.
  cbn [stripPrefixCI]. destruct (Ascii.eqb a (lower b)); [|discriminate].
  destruct (stripPrefixCI p s) as [[w' r']|]; [|discriminate].
  intros H. injection H as <- <-. eauto.
Qed.

Lemma stripPrefixCI_nil s w r :
  stripPrefixCI "" s = Some (w, r) -> w = "" /\ r = s.
Proof. destruct s; intros H; injection H as <- <-; auto. Qed.

Ltac peel H :=
  repeat match type of H with
  | stripPrefixCI (String _ _) ?s = Some _ =>
      destruct s; [discriminate H|];
      let E := fresh "E" in
      apply stripPrefixCI_cons in H as (E & ? & -> & H)
  end;
  apply stripPrefixCI_nil in H as [-> ->].

(** The test [^https?:] of the resolver, read on the text. *)
Lemma declaresHttpScheme_declares req :
  declaresHttpScheme req = true -> Reference.declares req.
Proof.
  unfold declaresHttpScheme. intros H.
  destruct (stripPrefixCI "https:" req) as [[w r]|] eqn:E1.
  - peel E1.
    match goal with
    | |- Reference.declares
           (String ?c1 (String ?c2 (String ?c3 (String ?c4 (String ?c5
              (String ?c6 ?r)))))) =>
        exists (String c1 (String c2 (String c3 (String c4 (String c5
                  (String c6 "")))))), r
    end.
    split; [|reflexivity].
    match goal with
    | H : Ascii.eqb ":" (lower _) = true |- _ => apply lower_colon in H; subst
    end.
    apply Reference.scheme_https;
      auto using lower_h, lower_t, lower_p, lower_s.
  - destruct (stripPrefixCI "http:" req) as [[w r]|] eqn:E2; [|discriminate].
    peel E2.
    match goal with
    | |- Reference.declares
           (String ?c1 (String ?c2 (String ?c3 (String ?c4 (String ?c5 ?r))))) =>
        exists (String c1 (String c2 (String c3 (String c4 (String c5 ""))))), r
    end.
    split; [|reflexivity].
    match goal with
    | H : Ascii.eqb ":" (lower _) = true |- _ => apply lower_colon in H; subst
    end.
    apply Reference.scheme_http; auto using lower_h, lower_t, lower_p.
Qed.

Lemma stripPrefixCI_through p : forall w q rest,
  stripPrefixCI p w = Some (w, "") ->
  stripPrefixCI (p ++ q) (w ++ rest)
  = match stripPrefixCI q rest with
    | Some (s, r) => Some (w ++ s, r)
    | None => None
    end.
Proof.
  induction p as [|a p IH]; intros w q rest H.
  - apply stripPrefixCI_nil in H as [_ <-]. app_simpl.
    now destruct (stripPrefixCI q rest) as [[s r]|].
  - destruct w as [|b w]; [discriminate H|].
    apply stripPrefixCI_cons in H as (E & w' & Ew & H).
    injection Ew as <-. app_simpl. cbn [stripPrefixCI]. rewrite E.
    rewrite (IH w q rest H).
    now destruct (stripPrefixCI q rest) as [[s r]|].
Qed.

Lemma stripPrefixCI_stops p : forall w q rest,
  stripPrefixCI p w = None -> (String.length p <= String.length w)%nat ->
  stripPrefixCI (p ++ q) (w ++ rest) = None.
Proof.
  induction p as [|a p IH]; intros w q rest H Hlen; [discriminate H|].
  destruct w as [|b w]; [cbn in Hlen; lia|].
  app_simpl. cbn [stripPrefixCI] in *.
  destruct (Ascii.eqb a (lower b)); [|reflexivity].
  rewrite IH; [reflexivity| |cbn in Hlen; lia].
  now destruct (stripPrefixCI p w) as [[w' r']|].
Qed.

(** What the pattern and the test make of a declared scheme. *)
Lemma httpScheme_ci w :
  Reference.httpScheme w ->
  (exists c w', w = String c w' /\ isHostChar c = true) /\
  (stripPrefixCI "http:" w = Some (w, "") /\ stripPrefixCI "https" w = None /\
   String.length w = 5%nat \/
   stripPrefixCI "https:" w = Some (w, "") /\ stripPrefixCI "http:" w = None /\
   String.length w = 6%nat).
Proof.
  unfold Reference.letter.
  intros Hw. inversion Hw as [c1 c2 c3 c4 H1 H2 H3 H4 | c1 c2 c3 c4 c5 H1 H2 H3 H4 H5];
    subst w.
  - destruct H1 as [-> | ->], H2 as [-> | ->], H3 as [-> | ->], H4 as [-> | ->];
      (split; [eexists _, _; split; reflexivity|]; left; repeat split).
  - destruct H1 as [-> | ->], H2 as [-> | ->], H3 as [-> | ->], H4 as [-> | ->],
             H5 as [-> | ->];
      (split; [eexists _, _; split; reflexivity|]; right; repeat split).
Qed.

Lemma httpScheme_facts w :
  Reference.httpScheme w ->
  (forall rest, stripPrefix "//" (w ++ rest) = None) /\
  (forall rest, declaresHttpScheme (w ++ rest) = true) /\
  (exists c w', w = String c w' /\ isHostChar c = true) /\
  forall rest,
    match stripPrefixCI "//" rest with
    | Some (s, r) =>
        (stripPrefixCI "https://" (w ++ rest) = Some (w ++ s, r) \/
         stripPrefixCI "https://" (w ++ rest) = None /\
         stripPrefixCI "http://" (w ++ rest) = Some (w ++ s, r))
    | None =>
        stripPrefixCI "https://" (w ++ rest) = None /\
        stripPrefixCI "http://" (w ++ rest) = None
    end.
Proof.
  intros Hw. destruct (httpScheme_ci w Hw) as [(c & w' & Ew & Hc) Hci].
  split; [|split; [|split]].
  - intros rest. subst w. rewrite app_cons.
    pose proof (startsWith_hostchar c (w' ++ rest) Hc) as H.
    unfold startsWith in H. now destruct (stripPrefix "//" _).
  - intros rest. unfold declaresHttpScheme.
    destruct Hci as [(H1 & _ & _) | (H1 & _ & _)].
    + pose proof (stripPrefixCI_through "http:" w "" rest H1) as E.
      change ("http:" ++ "") with "http:" in E. rewrite E.
      now destruct (stripPrefixCI "https:" (w ++ rest)).
    + pose proof (stripPrefixCI_through "https:" w "" rest H1) as E.
      change ("https:" ++ "") with "https:" in E. now rewrite E.
  - eauto.
  - intros rest. destruct Hci as [(H1 & H2 & Hl) | (H1 & H2 & Hl)].
    + pose proof (stripPrefixCI_stops "https" w "://" rest H2
                    ltac:(rewrite Hl; cbn; lia)) as F1.
      pose proof (stripPrefixCI_through "http:" w "//" rest H1) as F2.
      change ("https" ++ "://") with "https://" in F1.
      change ("http:" ++ "//") with "http://" in F2.
      rewrite F1, F2.
      destruct (stripPrefixCI "//" rest) as [[s r]|]; [right|]; now split.
    + pose proof (stripPrefixCI_through "https:" w "//" rest H1) as F1.
      pose proof (stripPrefixCI_stops "http:" w "//" rest H2
                    ltac:(rewrite Hl; cbn; lia)) as F2.
      change ("https:" ++ "//") with "https://" in F1.
      change ("http:" ++ "//") with "http://" in F2.
      rewrite F1, F2.
      destruct (stripPrefixCI "//" rest) as [[s r]|]; [left|split]; reflexivity.
Qed.

Lemma stripPrefixCI_slashes rest s r :
  stripPrefixCI "//" rest = Some (s, r) -> rest = "//" ++ r.
Proof.
  intros H. peel H.
  repeat match goal with
  | H : Ascii.eqb "/" (lower _) = true |- _ => apply lower_slash in H; subst
  end.
  reflexivity.
Qed.

(** *** The host name and the port, for every text *)

Lemma hostText_all s : Reference.hostText s -> all isHostChar s = true.
Proof.
  induction s as [|c s IH]; [reflexivity|]. intros (H1 & H2 & H3).
  cbn [all]. rewrite IH by assumption. rewrite andb_true_r.
  unfold isHostChar. apply negb_true_iff. apply orb_false_iff.
  split; now apply Ascii.eqb_neq.
Qed.

Lemma boundary_atBoundary t : Reference.boundary t -> atBoundary t = true.
Proof.
  destruct t as [|c t]; [reflexivity|]. intros [-> | ->]; reflexivity.
Qed.

Lemma hostChar_not_boundary c : isHostChar c = true -> c <> "/"%char /\ c <> "?"%char.
Proof.
  unfold isHostChar. intros H. apply negb_true_iff in H.
  apply orb_false_iff in H as [H1 H2]. split; now apply Ascii.eqb_neq.
Qed.

Lemma atBoundary_cons c s : atBoundary (String c s) = negb (isHostChar c).
Proof. reflexivity. Qed.

Lemma matchPort_nil : matchPort "" = None.
Proof. reflexivity. Qed.

(** The lazy host name always ends somewhere. *)
Lemma matchHost_total s : forall acc,
  exists h p t, matchHost acc s = Some (h, p, t).
Proof.
  induction s as [|c s IH]; intros acc; rewrite matchHost_eq.
  - rewrite matchPort_nil. cbn [atBoundary]. eauto.
  - destruct (matchPort (String c s)) as [[p t]|]; [eauto|].
    rewrite atBoundary_cons.
    destruct (isHostChar c); cbn [negb]; [apply IH | eauto].
Qed.

Lemma matchPort_inv s p t :
  matchPort s = Some (p, t) ->
  exists r, s = String ":" r /\ spanDigits r = (p, t) /\
            (String.length p <= 5)%nat /\ atBoundary t = true.
Proof.
  destruct s as [|c r]; [discriminate|].
  destruct (Ascii.eqb c ":") eqn:E.
  - apply Ascii.eqb_eq in E. subst c. unfold matchPort.
    destruct (spanDigits r) as [d t0] eqn:Es.
    destruct (String.length d <=? 5)%nat eqn:El; [|discriminate].
    destruct (atBoundary t0) eqn:Eb; [|discriminate].
    cbn [andb]. intros H. injection H as <- <-.
    exists r. apply Nat.leb_le in El. auto.
  - now rewrite matchPort_no_colon.
Qed.

Lemma digit_hostChar c : isDigit c = true -> isHostChar c = true.
Proof.
  intros H. unfold isHostChar. apply negb_true_iff. apply orb_false_iff.
  split; apply Ascii.eqb_neq; intros ->; discriminate H.
Qed.

(** A text is cut in one way only into characters of the host class and a
    rest at a boundary. *)
Lemma cut_at_boundary a : forall b t t',
  all isHostChar a = true -> all isHostChar b = true ->
  atBoundary t = true -> atBoundary t' = true ->
  a ++ t = b ++ t' -> a = b /\ t = t'.
Proof.
  induction a as [|c a IH]; intros b t t' Ha Hb Ht Ht' E.
  - destruct b as [|c' b]; app_simpl_in E; [now split|].
    subst t. rewrite atBoundary_cons in Ht.
    cbn [all] in Hb. apply andb_true_iff in Hb as [Hc _].
    rewrite Hc in Ht. discriminate.
  - cbn [all] in Ha. apply andb_true_iff in Ha as [Hc Ha].
    destruct b as [|c' b]; app_simpl_in E.
    + subst t'. rewrite atBoundary_cons, Hc in Ht'. discriminate.
    + injection E as -> E. cbn [all] in Hb. apply andb_true_iff in Hb as [_ Hb].
      destruct (IH b t t' Ha Hb Ht Ht' E) as [-> ->]. now split.
Qed.

(** When the pattern finds a port, the text before the boundary ends with
    a colon and that port. *)
Lemma matchHost_port_inv s : forall acc t h p r,
  all isHostChar s = true -> atBoundary t = true ->
  matchHost acc (s ++ t) = Some (h, Some p, r) ->
  exists h', s = h' ++ ":" ++ p /\ h = acc ++ h' /\ r = t.
Proof.
  induction s as [|c s IH]; intros acc t h p r Hs Ht Hm; app_simpl_in Hm.
  - rewrite matchHost_eq in Hm.
    assert (matchPort t = None) as Hp.
    { destruct t as [|c t]; [reflexivity|]. apply matchPort_no_colon.
      rewrite atBoundary_cons in Ht. apply negb_true_iff in Ht.
      destruct (Ascii.eqb c ":") eqn:E; [|reflexivity].
      apply Ascii.eqb_eq in E. subst c. discriminate Ht. }
    rewrite Hp, Ht in Hm. discriminate Hm.
  - cbn [all] in Hs. apply andb_true_iff in Hs as [Hc Hs].
    rewrite matchHost_eq in Hm.
    destruct (matchPort (String c (s ++ t))) as [[p' t']|] eqn:Ep.
    + injection Hm as <- <- <-.
      apply matchPort_inv in Ep as (r0 & E & Hspan & _ & Hb).
      injection E as -> <-.
      apply spanDigits_inv in Hspan as (E & Hd & _).
      assert (all isHostChar p' = true) as Hp'
        by (eapply all_impl; [apply digit_hostChar|exact Hd]).
      destruct (cut_at_boundary s p' t t' Hs Hp' Ht Hb E) as [-> ->].
      exists "". rewrite app_nil_r. repeat split.
    + rewrite atBoundary_cons, Hc in Hm. cbn [negb] in Hm.
      apply IH in Hm as (h' & -> & -> & ->); try assumption.
      exists (String c h'). rewrite app_cons_r. repeat split.
Qed.

(** The groups of a reference without a scheme whose host name starts at
    [c]. *)
Lemma matchURL_undeclared slashes c rest hst gp gr :
  slashes = "" \/ slashes = "//" ->
  isHostChar c = true ->
  declaresHttpScheme (slashes ++ String c rest) = false ->
  matchHost (String c "") rest = Some (hst, gp, gr) ->
  matchURL (slashes ++ String c rest) = Some (mkGroups None hst gp gr).
Proof.
  intros Hs Hc Hdecl Hm.
  assert (matchAuthority (String c rest) = Some (hst, gp, gr)) as Hauth
    by (unfold matchAuthority; now rewrite Hc).
  unfold matchURL.
  destruct (undeclared_no_scheme _ Hdecl) as [-> ->].
  destruct Hs as [-> | ->].
  - rewrite app_nil_l.
    assert (stripPrefix "//" (String c rest) = None) as ->.
    { change (stripPrefix "//" (String c rest))
        with (if Ascii.eqb "/" c then stripPrefix "/" rest else None).
      destruct (hostChar_not_boundary c Hc) as [Hne _].
      apply Ascii.eqb_neq in Hne. rewrite Ascii.eqb_sym. now rewrite Hne. }
    now rewrite Hauth.
  - rewrite stripPrefix_app. now rewrite Hauth.
Qed.

Lemma prepare_undeclared slashes c rest g :
  slashes = "" \/ slashes = "//" ->
  isHostChar c = true ->
  declaresHttpScheme (slashes ++ String c rest) = false ->
  matchURL (slashes ++ String c rest) = Some g -> g_scheme g = None ->
  prepare (slashes ++ String c rest)
  = Some (match g_port g with
          | Some p => if String.eqb p "443" then "https:" else "http:"
          | None => "http:"
          end ++ "//" ++ String c rest).
Proof.
  intros Hs Hc Hdecl Hm Hsch. unfold prepare.
  rewrite Hm, Hsch, Hdecl. f_equal. f_equal.
  destruct Hs as [-> | ->].
  - rewrite app_nil_l. now rewrite startsWith_hostchar.
  - now rewrite startsWith_slashes_app.
Qed.

(** Without a base, the resolver hands the prepared text to the [try]
    block. *)
Lemma parseURL_prepare URL_new req :
  parseURL URL_new req None
  = Returns (match prepare req with
             | Some text => Reference.strict URL_new text
             | None => None
             end).
Proof.
  unfold parseURL, Reference.strict.
  destruct (prepare req) as [text|]; [|reflexivity].
  destruct (URL_new text None) as [parsed|]; [|reflexivity].
  now destruct (hostname parsed).
Qed.

(** A declared scheme: the text goes to the parser as it is, or the
    reference is rejected. *)
Lemma prepare_declared w rest :
  Reference.httpScheme w ->
  (forall c r, rest = "//" ++ String c r -> isHostChar c = true ->
     prepare (w ++ rest) = Some (w ++ rest)) /\
  ((forall c r, rest = "//" ++ String c r -> isHostChar c = false) ->
     prepare (w ++ rest) = None) /\
  (prepare (w ++ rest) = Some (w ++ rest) \/ prepare (w ++ rest) = None).
Proof.
  intros Hw.
  destruct (httpScheme_facts w Hw) as (Hsl & Hdecl & (c0 & w0 & Ew & Hc0) & Hci).
  specialize (Hci rest).
  assert (prepare (w ++ rest)
          = match matchURL (w ++ rest) with
            | Some g =>
                match g_scheme g with
                | Some _ => Some (w ++ rest)
                | None => None
                end
            | None => None
            end) as Hprep.
  { unfold prepare. destruct (matchURL (w ++ rest)) as [g|]; [|reflexivity].
    destruct (g_scheme g); [reflexivity|]. now rewrite Hdecl. }
  assert (exists g0, withScheme None (matchAuthority (w ++ rest)) = Some g0 /\
                     g_scheme g0 = None) as (g0 & Hg0 & Hg0s).
  { subst w. rewrite app_cons. unfold matchAuthority. rewrite Hc0.
    destruct (matchHost_total (w0 ++ rest) (String c0 "")) as (h & p & t & ->).
    eexists. split; reflexivity. }
  assert ((exists r x, rest = "//" ++ r /\
             matchURL (w ++ rest)
             = match withScheme (Some x) (matchAuthority r) with
               | Some g => Some g
               | None => Some g0
               end) \/
          ((forall r, rest <> "//" ++ r) /\ matchURL (w ++ rest) = Some g0))
    as Hcase.
  { unfold matchURL. cbv zeta. rewrite Hsl, Hg0.
    destruct (stripPrefixCI "//" rest) as [[s r]|] eqn:Es.
    - left. exists r. pose proof (stripPrefixCI_slashes _ _ _ Es) as Er.
      destruct Hci as [E1 | [E1 E2]].
      + rewrite E1. eexists. split; [exact Er|]. reflexivity.
      + rewrite E1, E2. eexists. split; [exact Er|]. reflexivity.
    - right. destruct Hci as [E1 E2]. rewrite E1, E2. split; [|reflexivity].
      intros r ->.
      assert (stripPrefixCI "//" ("//" ++ r) = Some ("//", r)) as E
        by reflexivity.
      congruence. }
  assert (forall c r, rest = "//" ++ String c r -> isHostChar c = true ->
            prepare (w ++ rest) = Some (w ++ rest)) as Hyes.
  { intros c r Er Hc. rewrite Hprep.
    destruct Hcase as [(r' & x & Er' & ->) | [Hnot _]];
      [|exfalso; now apply (Hnot (String c r))].
    rewrite Er in Er'. apply app_inv_head in Er'. subst r'.
    unfold matchAuthority. rewrite Hc.
    destruct (matchHost_total r (String c "")) as (h & p & t & ->).
    reflexivity. }
  assert ((forall c r, rest = "//" ++ String c r -> isHostChar c = false) ->
            prepare (w ++ rest) = None) as Hno.
  { intros Hform. rewrite Hprep.
    destruct Hcase as [(r' & x & Er' & ->) | [_ ->]]; [|now rewrite Hg0s].
    assert (matchAuthority r' = None) as ->.
    { unfold matchAuthority. destruct r' as [|c r']; [reflexivity|].
      now rewrite (Hform c r' Er'). }
    cbn [withScheme]. now rewrite Hg0s. }
  split; [exact Hyes|]. split; [exact Hno|].
  destruct Hcase as [(r' & x & Er' & _) | [Hnot _]].
  - destruct r' as [|c r'].
    + right. apply Hno. intros c r E. rewrite E in Er'.
      apply app_inv_head in Er'. discriminate Er'.
    + destruct (isHostChar c) eqn:Hc.
      * left. now apply (Hyes c r').
      * right. apply Hno. intros c' r E. rewrite E in Er'.
        apply app_inv_head in Er'. injection Er' as -> _.
        exact Hc.
  - right. apply Hno. intros c r E. now apply Hnot in E.
Qed.

(** A closed text does not end in [:443]: the equation [E] between the
    text and [h ++ ":443"] fails for every length of [h]. *)
Ltac no_suffix E h :=
  repeat (destruct h as [|? h];
          [discriminate E | rewrite app_cons in E; injection E as _ E]);
  destruct h; discriminate E.

(** C8. Without a base the resolver never throws, and:
    - a reference that declares [http:] or [https:], in letters of either
      case, is handed to the URL parser as it is when two slashes and a
      character of a host name follow the scheme, and gives null in every
      other case; it gives null whenever the URL parser rejects it;
    - a reference that declares no scheme and starts, after two optional
      slashes, with a character of a host name is handed to the parser
      with [//] in front unless it has it, under the scheme [https:] when
      the text before the first slash or question mark ends with [:443]
      after a host name, and under [http:] in every other case;
    - a reference that declares no scheme and does not start in that way
      gives null;
    - what the parser is handed gives null when the parser rejects it or
      the parsed URL has no host name, and the [href] of the parsed URL
      otherwise. *)
Theorem parseURL_without_base (URL_new : string -> option string -> option URL) :
  (forall w rest, Reference.httpScheme w ->
     (forall c r, rest = "//" ++ String c r -> c <> "/"%char -> c <> "?"%char ->
        parseURL URL_new (w ++ rest) None
        = Returns (Reference.strict URL_new (w ++ rest))) /\
     ((forall c r, rest = "//" ++ String c r -> c = "/"%char \/ c = "?"%char) ->
        parseURL URL_new (w ++ rest) None = Returns None) /\
     (URL_new (w ++ rest) None = None ->
        parseURL URL_new (w ++ rest) None = Returns None)) /\
  (forall slashes seg t,
     slashes = "" \/ slashes = "//" ->
     seg <> "" -> Reference.hostText seg -> Reference.boundary t ->
     ~ Reference.declares (slashes ++ seg ++ t) ->
     (Reference.writesPort443 seg ->
        parseURL URL_new (slashes ++ seg ++ t) None
        = Returns (Reference.strict URL_new ("https://" ++ seg ++ t))) /\
     (~ Reference.writesPort443 seg ->
        parseURL URL_new (slashes ++ seg ++ t) None
        = Returns (Reference.strict URL_new ("http://" ++ seg ++ t)))) /\
  (forall req,
     ~ Reference.declares req ->
     (forall slashes c r,
        slashes = "" \/ slashes = "//" -> req = slashes ++ String c r ->
        c = "/"%char \/ c = "?"%char) ->
     parseURL URL_new req None = Returns None) /\
  (forall text r,
     Reference.strict URL_new text = Some r <->
     exists parsed,
       URL_new text None = Some parsed /\ hostname parsed <> "" /\
       href parsed = r) /\
  (forall req, parseURL URL_new req None <> Throws).
Proof.
  split; [|split; [|split; [|split]]].
  - intros w rest Hw.
    destruct (prepare_declared w rest Hw) as (Hyes & Hno & Hcases).
    split; [|split].
    + intros c r E H1 H2. rewrite parseURL_prepare, (Hyes c r E); [reflexivity|].
      unfold isHostChar. apply negb_true_iff. apply orb_false_iff.
      split; now apply Ascii.eqb_neq.
    + intros Hform. rewrite parseURL_prepare, Hno; [reflexivity|].
      intros c r E. unfold isHostChar.
      destruct (Hform c r E) as [-> | ->]; reflexivity.
    + intros Hrej. rewrite parseURL_prepare.
      destruct Hcases as [-> | ->]; [|reflexivity].
      unfold Reference.strict. now rewrite Hrej.
  - intros slashes seg t Hs Hne Hseg Ht Hundecl.
    assert (declaresHttpScheme (slashes ++ seg ++ t) = false) as Hdecl.
    { destruct (declaresHttpScheme (slashes ++ seg ++ t)) eqn:E; [|reflexivity].
      exfalso. apply Hundecl. now apply declaresHttpScheme_declares. }
    destruct seg as [|c s]; [congruence|].
    pose proof (hostText_all _ Hseg) as Hall.
    cbn [all] in Hall. apply andb_true_iff in Hall as [Hc Hall].
    apply boundary_atBoundary in Ht.
    rewrite app_cons in *.
    destruct (matchHost_total (s ++ t) (String c "")) as (h & p & r & Hm).
    pose proof (matchURL_undeclared slashes c (s ++ t) h p r Hs Hc Hdecl Hm) as Hg.
    pose proof (prepare_undeclared slashes c (s ++ t) _ Hs Hc Hdecl Hg eq_refl)
      as Hprep.
    cbn [g_port] in Hprep.
    split.
    + intros (h0 & Hh0 & E).
      destruct h0 as [|c0 h0]; [congruence|].
      rewrite app_cons in E. injection E as <- ->.
      assert (all isHostChar h0 = true) as Hh.
      { rewrite all_app in Hall. now apply andb_true_iff in Hall as [? _]. }
      rewrite app_assoc in Hm.
      change (":443" ++ t) with (String ":" ("443" ++ t)) in Hm.
      rewrite (matchHost_port h0 (String c "") "443" t Hh eq_refl) in Hm;
        [|cbn; lia|assumption].
      injection Hm as <- <- <-.
      rewrite parseURL_prepare, Hprep. reflexivity.
    + intros Hnot.
      assert (match p with
              | Some p => if String.eqb p "443" then "https:" else "http:"
              | None => "http:"
              end = "http:") as Hsch.
      { destruct p as [p|]; [|reflexivity].
        destruct (String.eqb p "443") eqn:E; [|reflexivity].
        apply String.eqb_eq in E. subst p. exfalso. apply Hnot.
        apply matchHost_port_inv in Hm as (h' & -> & _ & _); try assumption.
        exists (String c h'). split; [discriminate|reflexivity]. }
      rewrite Hsch in Hprep.
      rewrite parseURL_prepare, Hprep. reflexivity.
  - intros req Hundecl Hform.
    assert (declaresHttpScheme req = false) as Hdecl.
    { destruct (declaresHttpScheme req) eqn:E; [|reflexivity].
      exfalso. apply Hundecl. now apply declaresHttpScheme_declares. }
    assert (forall slashes r, slashes = "" \/ slashes = "//" ->
              req = slashes ++ r -> matchAuthority r = None) as Hauth.
    { intros slashes r Hs E. unfold matchAuthority.
      destruct r as [|c r]; [reflexivity|].
      destruct (Hform slashes c r Hs E) as [-> | ->]; reflexivity. }
    rewrite parseURL_prepare. unfold prepare, matchURL.
    destruct (undeclared_no_scheme _ Hdecl) as [-> ->].
    destruct (stripPrefix "//" req) as [r|] eqn:Es.
    + apply stripPrefix_Some in Es.
      rewrite (Hauth "//" r (or_intror eq_refl) Es). cbn [withScheme].
      now rewrite (Hauth "" req (or_introl eq_refl) eq_refl).
    + now rewrite (Hauth "" req (or_introl eq_refl) eq_refl).
  - intros text r. unfold Reference.strict. split.
    + destruct (URL_new text None) as [parsed|]; [|discriminate].
      destruct (hostname parsed) as [|a hn] eqn:Eh; [discriminate|].
      cbn [truthy]. intros H. injection H as <-.
      exists parsed. rewrite Eh. repeat split. discriminate.
    + intros (parsed & -> & Hh & <-).
      destruct (hostname parsed); [congruence|reflexivity].
  - intros req. rewrite parseURL_prepare. discriminate.
Qed.

Lemma parseURL_without_base_witness :
  parseURL Sample.URL_new "example.com:443/live" None
    = Returns (Some "https://example.com/live") /\
  parseURL Sample.URL_new "example.com:8080/live" None
    = Returns (Some "http://example.com:8080/live") /\
  parseURL Sample.URL_new "HTTP:/notenoughslashes" None = Returns None.
Proof.
  destruct (parseURL_without_base Sample.URL_new)
    as (Hdeclared & Hbare & _ & _ & _).
  assert (forall rest, rest = "/live" ->
            ~ Reference.declares ("" ++ "example.com:443" ++ rest)) as Hu1.
  { intros rest -> (w & r & Hw & E).
    inversion Hw; subst w; discriminate E. }
  assert (forall rest, rest = "/live" ->
            ~ Reference.declares ("" ++ "example.com:8080" ++ rest)) as Hu2.
  { intros rest -> (w & r & Hw & E).
    inversion Hw; subst w; discriminate E. }
  split; [|split].
  - destruct (Hbare "" "example.com:443" "/live") as [Hhttps _].
    + left; reflexivity.
    + discriminate.
    + cbn; repeat split; discriminate.
    + left; reflexivity.
    + now apply Hu1.
    + apply Hhttps. exists "example.com". split; [discriminate|reflexivity].
  - destruct (Hbare "" "example.com:8080" "/live") as [_ Hhttp].
    + left; reflexivity.
    + discriminate.
    + cbn; repeat split; discriminate.
    + left; reflexivity.
    + now apply Hu2.
    + apply Hhttp. intros (h & _ & E). no_suffix E h.
  - destruct (Hdeclared "HTTP:" "/notenoughslashes") as (_ & Hno & _).
    + apply Reference.scheme_http; right; reflexivity.
    + apply Hno. intros c r E. discriminate E.
Defined.

End ResolverFacts.

(** ** The playlist rewrite *)

Module PlaylistFacts.
Import JS JSFacts BufferFacts Resolver Playlist.

(** *** No rewritten line holds a line feed *)

Lemma all_stripPrefix (P : ascii -> bool) p s r :
  all P s = true -> stripPrefix p s = Some r -> all P r = true.
Proof.
  intros Hs Hp. apply stripPrefix_Some in Hp. subst s.
  rewrite all_app in Hs. now apply andb_true_iff in Hs as [_ ?].
Qed.

Lemma replaceFirst_class (P : ascii -> bool) pattern replacement s :
  all P s = true -> all P replacement = true ->
  all P (replaceFirst s pattern replacement) = true.
Proof.
  intros Hs Hr. induction s as [|c s IH].
  - simpl. destruct (stripPrefix pattern "") as [r|] eqn:E; [|reflexivity].
    rewrite all_app, Hr. simpl. now apply (all_stripPrefix P pattern "" r).
  - cbn [replaceFirst].
    destruct (stripPrefix pattern (String c s)) as [r|] eqn:E.
    + rewrite all_app, Hr. simpl. now apply (all_stripPrefix P pattern _ r Hs).
    + simpl in Hs. apply andb_true_iff in Hs as [Hc Hs'].
      simpl. now rewrite Hc, IH.
Qed.

(** The characters of a proxy URL: those of its fixed parts, of base64
    text and of an encoded URI component. *)
Lemma proxyUrl_class (P : ascii -> bool) target headersJson :
  all P "/s?u=&headers=&lb=local" = true ->
  all P Base64.alphabet = true -> P Base64.pad = true ->
  (forall c, URI.unreserved c = true -> P c = true) ->
  all P "0123456789ABCDEF" = true -> P "%"%char = true ->
  all P (proxyUrl target headersJson) = true.
Proof.
  intros Hfix Ha Hp Hu Hh Hpc. unfold proxyUrl, Base64.encodeString.
  rewrite !all_app.
  rewrite (base64_encode_class P _ Ha Hp).
  rewrite (encodeURIComponent_class P _ Hu Hh Hpc).
  unfold selectedUrl, lbChoice.
  change "/s?u=&headers=&lb=local"
    with ("/s" ++ "?u=" ++ "&headers=" ++ "&lb=" ++ "local") in Hfix.
  rewrite !all_app in Hfix.
  apply andb_true_iff in Hfix as [H1 Hfix].
  apply andb_true_iff in Hfix as [H2 Hfix].
  apply andb_true_iff in Hfix as [H3 Hfix].
  apply andb_true_iff in Hfix as [H4 H5].
  now rewrite H1, H2, H3, H4, H5.
Qed.

Lemma unreserved_isNot x c :
  URI.unreserved x = false -> URI.unreserved c = true -> isNot x c = true.
Proof.
  intros Hx Hc. unfold isNot. destruct (Ascii.eqb c x) eqn:E; [|reflexivity].
  apply Ascii.eqb_eq in E. subst. congruence.
Qed.

Lemma proxyUrl_noLF target headersJson :
  all (isNot LF) (proxyUrl target headersJson) = true.
Proof.
  apply proxyUrl_class; try reflexivity.
  intros c. now apply unreserved_isNot.
Qed.

(** The replacement handed to [replace] holds no dollar sign. *)
Lemma proxyUrl_no_dollar target headersJson :
  all (isNot "$") (proxyUrl target headersJson) = true.
Proof.
  apply proxyUrl_class; try reflexivity.
  intros c. now apply unreserved_isNot.
Qed.

Lemma rewriteTagLine_noLF headersJson line :
  all (isNot LF) line = true ->
  all (isNot LF) (rewriteTagLine headersJson line) = true.
Proof.
  intros Hl. unfold rewriteTagLine.
  destruct (findUrl line) as [u|]; [|assumption].
  destruct (truthy u); [|assumption].
  apply replaceFirst_class; [assumption|apply proxyUrl_noLF].
Qed.

Section Platform.

Variable URL_new : string -> option string -> option URL.

Lemma rewriteUriLine_noLF url headersJson line line' :
  all (isNot LF) line = true ->
  rewriteUriLine URL_new url headersJson line = Returns line' ->
  all (isNot LF) line' = true.
Proof.
  intros Hl. unfold rewriteUriLine, bind.
  destruct (parseURL URL_new line (Some url)) as [[r|]|]; try discriminate.
  - destruct (truthy r); intros H; inversion H; subst;
      [apply proxyUrl_noLF|assumption].
  - intros H; inversion H; now subst.
Qed.

Lemma masterLine_noLF url headersJson line line' :
  all (isNot LF) line = true ->
  masterLine URL_new url headersJson line = Returns line' ->
  all (isNot LF) line' = true.
Proof.
  intros Hl. unfold masterLine.
  destruct (startsWith line "#").
  - destruct (startsWith line "#EXT-X-KEY:");
      [|destruct (startsWith line "#EXT-X-MEDIA:")];
      intros H; inversion H; subst; try assumption;
      now apply rewriteTagLine_noLF.
  - destruct (trimTruthy line); [now apply rewriteUriLine_noLF|].
    intros H; inversion H; now subst.
Qed.

Lemma mediaLine_noLF url headersJson line line' :
  all (isNot LF) line = true ->
  mediaLine URL_new url headersJson line = Returns line' ->
  all (isNot LF) line' = true.
Proof.
  intros Hl. unfold mediaLine.
  destruct (startsWith line "#").
  - destruct (startsWith line "#EXT-X-KEY:");
      intros H; inversion H; subst; try assumption;
      now apply rewriteTagLine_noLF.
  - destruct (trimTruthy line && negb false); [now apply rewriteUriLine_noLF|].
    intros H; inversion H; now subst.
Qed.

(** *** The loop over the lines *)

Lemma rewriteLines_nth f lines : forall newLines i line,
  rewriteLines f lines = Returns newLines ->
  nth_error lines i = Some line ->
  exists line', f line = Returns line' /\ nth_error newLines i = Some line'.
Proof.
  induction lines as [|l lines IH]; intros newLines i line H Hn.
  - destruct i; discriminate.
  - simpl in H. unfold bind in H. destruct (f l) as [l'|] eqn:E; [|discriminate].
    destruct (rewriteLines f lines) as [ls'|] eqn:E'; [|discriminate].
    inversion H; subst. destruct i as [|i]; simpl in *.
    + inversion Hn; subst. eauto.
    + now apply (IH ls').
Qed.

Lemma rewriteLines_length f lines : forall newLines,
  rewriteLines f lines = Returns newLines -> length newLines = length lines.
Proof.
  induction lines as [|l lines IH]; intros newLines H; simpl in H.
  - now inversion H.
  - unfold bind in H. destruct (f l) as [l'|]; [|discriminate].
    destruct (rewriteLines f lines) as [ls'|] eqn:E'; [|discriminate].
    inversion H; subst. simpl. now rewrite (IH ls').
Qed.

Lemma rewriteLines_Forall (P : string -> Prop) f lines : forall newLines,
  (forall l l', P l -> f l = Returns l' -> P l') ->
  Forall P lines ->
  rewriteLines f lines = Returns newLines -> Forall P newLines.
Proof.
  induction lines as [|l lines IH]; intros newLines Hf Hall H; simpl in H.
  - inversion H. constructor.
  - unfold bind in H. destruct (f l) as [l'|] eqn:E; [|discriminate].
    destruct (rewriteLines f lines) as [ls'|] eqn:E'; [|discriminate].
    inversion H; subst. inversion Hall; subst.
    constructor; [now apply (Hf l)|now apply IH].
Qed.

(** The loop completes when no line throws, and only then. *)
Lemma rewriteLines_total f lines :
  (forall l, In l lines -> f l <> Throws) ->
  exists newLines, rewriteLines f lines = Returns newLines.
Proof.
  induction lines as [|l lines IH]; intros H; simpl; [eauto|].
  unfold bind.
  destruct (f l) as [l'|] eqn:E; [|exfalso; now apply (H l); [left|]].
  destruct IH as [ls' ->]; [|eauto].
  intros x Hx. apply H. now right.
Qed.

Lemma rewriteLines_throws f lines l :
  In l lines -> f l = Throws -> rewriteLines f lines = Throws.
Proof.
  induction lines as [|x lines IH]; intros Hin Hl; [destruct Hin|].
  simpl. unfold bind. destruct Hin as [->|Hin].
  - now rewrite Hl.
  - destruct (f x); [|reflexivity]. now rewrite IH.
Qed.

(** The lines of the rewritten manifest are the lines the loop pushed. *)
Lemma rewritePlaylist_lines url headersJson content out :
  rewritePlaylist URL_new url headersJson content = Returns out ->
  exists f,
    (f = masterLine URL_new url headersJson /\ isMaster content = true \/
     f = mediaLine URL_new url headersJson /\ isMaster content = false) /\
    rewriteLines f (splitLines content) = Returns (splitLines out).
Proof.
  unfold rewritePlaylist, bind. intros H.
  set (f := if isMaster content then masterLine URL_new url headersJson
            else mediaLine URL_new url headersJson) in *.
  destruct (rewriteLines f (splitLines content)) as [newLines|] eqn:E;
    [|discriminate].
  inversion H; subst out. exists f. split.
  - subst f. destruct (isMaster content); auto.
  - rewrite E. f_equal. symmetry. apply splitLines_joinLines.
    + intros ->. apply rewriteLines_length in E.
      pose proof (splitOn_nonempty LF content).
      unfold splitLines in E. destruct (splitOn LF content); [congruence|discriminate].
    + apply (rewriteLines_Forall _ f (splitLines content));
        [|apply splitOn_pieces|assumption].
      intros l l' Hl Hf. subst f.
      destruct (isMaster content);
        [eapply masterLine_noLF|eapply mediaLine_noLF]; eassumption.
Qed.

(** Whenever the rewrite returns, the manifest keeps its number of lines,
    and every empty line and every tag line that is not rewritten stays
    where it is. *)
Lemma rewritePlaylist_structure url headersJson content out :
  rewritePlaylist URL_new url headersJson content = Returns out ->
  length (splitLines out) = length (splitLines content) /\
  forall i line,
    nth_error (splitLines content) i = Some line ->
    line = "" \/
    (startsWith line "#" = true /\ startsWith line "#EXT-X-KEY:" = false /\
     (isMaster content = true -> startsWith line "#EXT-X-MEDIA:" = false)) ->
    nth_error (splitLines out) i = Some line.
Proof.
  intros H. destruct (rewritePlaylist_lines _ _ _ _ H) as (f & Hf & Hloop).
  split; [now apply (rewriteLines_length f)|].
  intros i line Hn Hkind.
  destruct (rewriteLines_nth f _ _ i line Hloop Hn) as (line' & Hl & Hn').
  rewrite Hn'. f_equal.
  assert (f line = Returns line) as Hsame; [|congruence].
  destruct Hkind as [-> | (Hhash & Hkey & Hmedia)].
  - destruct Hf as [[-> _] | [-> _]]; reflexivity.
  - destruct Hf as [[-> Hm] | [-> _]].
    + unfold masterLine. now rewrite Hhash, Hkey, (Hmedia Hm).
    + unfold mediaLine. now rewrite Hhash, Hkey.
Qed.

(** The rewrite returns a manifest as soon as the URL constructor accepts
    every line that is handed to it. *)
Lemma rewritePlaylist_total url headersJson content :
  (forall line, In line (splitLines content) ->
     URL_new line (Some url) <> None) ->
  exists out, rewritePlaylist URL_new url headersJson content = Returns out.
Proof.
  intros Hok. unfold rewritePlaylist, bind.
  set (f := if isMaster content then masterLine URL_new url headersJson
            else mediaLine URL_new url headersJson).
  destruct (rewriteLines_total f (splitLines content)) as [newLines ->]; [|eauto].
  intros line Hin.
  assert (rewriteUriLine URL_new url headersJson line <> Throws) as Huri.
  { unfold rewriteUriLine, bind, parseURL. specialize (Hok line Hin).
    destruct (truthy url).
    - destruct (URL_new line (Some url)) as [parsed|]; [|congruence].
      destruct (truthy (href parsed)); discriminate.
    - destruct (prepare line) as [text|]; [|discriminate].
      destruct (URL_new text None) as [parsed|]; [|discriminate].
      destruct (negb (truthy (hostname parsed))); [discriminate|].
      destruct (truthy (href parsed)); discriminate. }
  subst f. destruct (isMaster content).
  - unfold masterLine.
    destruct (startsWith line "#");
      [destruct (startsWith line "#EXT-X-KEY:");
       [|destruct (startsWith line "#EXT-X-MEDIA:")]; discriminate|].
    destruct (trimTruthy line); [assumption|discriminate].
  - unfold mediaLine.
    destruct (startsWith line "#");
      [destruct (startsWith line "#EXT-X-KEY:"); discriminate|].
    destruct (trimTruthy line && negb false); [assumption|discriminate].
Qed.

End Platform.

(** *** The query parameter [u] *)

Lemma upToAmpersand_app a r :
  all (isNot "&") a = true -> upToAmpersand (a ++ String "&" r) = a.
Proof.
  induction a as [|c a IH]; intros Ha; app_simpl; [reflexivity|].
  simpl in Ha. apply andb_true_iff in Ha as [Hc Ha].
  unfold isNot in Hc. apply negb_true_iff in Hc.
  simpl. now rewrite Hc, IH.
Qed.

Lemma queryU_proxyUrl target headersJson :
  queryU (proxyUrl target headersJson) = Some (Base64.encodeString target).
Proof.
  unfold queryU, proxyUrl.
  rewrite <- (app_assoc selectedUrl "?u="), stripPrefix_app.
  change ("&headers=" ++ URI.encodeURIComponent headersJson ++ "&lb=" ++ lbChoice)
    with (String "&" ("headers=" ++ URI.encodeURIComponent headersJson
                        ++ "&lb=" ++ lbChoice)).
  rewrite upToAmpersand_app; [reflexivity|].
  unfold Base64.encodeString. now apply base64_encode_class.
Qed.

Lemma proxyUrl_inj target target' headersJson :
  proxyUrl target headersJson = proxyUrl target' headersJson -> target = target'.
Proof.
  intros H. apply (f_equal queryU) in H. rewrite !queryU_proxyUrl in H.
  inversion H as [E]. now apply encodeString_inj.
Qed.

(** C4, as stated, fails on a blank line: a line of one space is not
    empty, does not start with [#], and resolves against the base (to the
    base itself), yet the guard [line.trim()] passes it through
    unchanged. *)
Lemma blank_line_passes_through :
  ~ (forall line resolved,
        line <> "" -> startsWith line "#" = false ->
        parseURL Resolver.Sample.URL_new line (Some Resolver.Sample.base)
          = Returns (Some resolved) ->
        mediaLine Resolver.Sample.URL_new Resolver.Sample.base "{}" line
          = Returns (proxyUrl resolved "{}")).
Proof.
  intros H.
  specialize (H " " Resolver.Sample.base ltac:(discriminate) eq_refl eq_refl).
  vm_compute in H. discriminate H.
Qed.

(** C4, as stated, fails on distinct lines as well: [seg1.ts] and
    [./seg1.ts] are two lines, neither empty nor starting with [#], that
    resolve to the same URL against the base, and so they are rewritten
    to the same proxy URL. *)
Lemma distinct_lines_share_proxy_url :
  ~ (forall line line' p p',
        line <> line' ->
        line <> "" -> startsWith line "#" = false ->
        line' <> "" -> startsWith line' "#" = false ->
        mediaLine DotSegments.URL_new Resolver.Sample.base "{}" line = Returns p ->
        mediaLine DotSegments.URL_new Resolver.Sample.base "{}" line' = Returns p' ->
        p <> p').
Proof.
  intros H.
  apply (H "seg1.ts" "./seg1.ts"
           (proxyUrl "http://host/a/seg1.ts" "{}")
           (proxyUrl "http://host/a/seg1.ts" "{}"));
    try discriminate; reflexivity.
Qed.

Lemma blank_not_tag line : trimTruthy line = false -> startsWith line "#" = false.
Proof.
  unfold trimTruthy. intros H. apply negb_false_iff in H.
  destruct line as [|c line]; [reflexivity|].
  cbn [all] in H. apply andb_true_iff in H as [Hc _].
  destruct (Ascii.eqb "#" c) eqn:E.
  - apply Ascii.eqb_eq in E. subst c. discriminate Hc.
  - unfold startsWith.
    change (stripPrefix "#" (String c line))
      with (if Ascii.eqb "#" c then stripPrefix "" line else None).
    now rewrite E.
Qed.

(** C4, amended.  A line that is not blank, does not start with [#] and
    resolves against the base URL of the request is replaced by a proxy
    URL whose parameter [u] decodes from base64 to exactly the resolved
    URL; the proxy URLs of two resolved URLs are the same exactly when
    the resolved URLs are; the replacement sits at the index of the line
    in the rewritten manifest; and a line made only of white space is
    passed through unchanged, at its index. *)
Theorem uri_line_rewritten
  (URL_new : string -> option string -> option URL)
  (url headersJson line resolved : string)
  (Hblank : trimTruthy line = true)
  (Hhash : startsWith line "#" = false)
  (Hres : parseURL URL_new line (Some url) = Returns (Some resolved))
  (Hurl : resolved <> "") :
  mediaLine URL_new url headersJson line = Returns (proxyUrl resolved headersJson) /\
  masterLine URL_new url headersJson line = Returns (proxyUrl resolved headersJson) /\
  (exists u, queryU (proxyUrl resolved headersJson) = Some u /\
             Base64.decodeString u = Some resolved) /\
  (forall resolved',
     proxyUrl resolved' headersJson = proxyUrl resolved headersJson <->
     resolved' = resolved) /\
  (forall content out i,
     rewritePlaylist URL_new url headersJson content = Returns out ->
     nth_error (splitLines content) i = Some line ->
     nth_error (splitLines out) i = Some (proxyUrl resolved headersJson)) /\
  (forall blank,
     trimTruthy blank = false ->
     mediaLine URL_new url headersJson blank = Returns blank /\
     masterLine URL_new url headersJson blank = Returns blank /\
     forall content out i,
       rewritePlaylist URL_new url headersJson content = Returns out ->
       nth_error (splitLines content) i = Some blank ->
       nth_error (splitLines out) i = Some blank).
Proof.
  assert (rewriteUriLine URL_new url headersJson line
          = Returns (proxyUrl resolved headersJson)) as Huri.
  { unfold rewriteUriLine, bind. rewrite Hres.
    destruct resolved; [congruence|reflexivity]. }
  assert (mediaLine URL_new url headersJson line
          = Returns (proxyUrl resolved headersJson)) as Hmedia
    by (unfold mediaLine; now rewrite Hhash, Hblank).
  assert (masterLine URL_new url headersJson line
          = Returns (proxyUrl resolved headersJson)) as Hmaster
    by (unfold masterLine; now rewrite Hhash, Hblank).
  assert (forall l l' content out i,
            masterLine URL_new url headersJson l = Returns l' ->
            mediaLine URL_new url headersJson l = Returns l' ->
            rewritePlaylist URL_new url headersJson content = Returns out ->
            nth_error (splitLines content) i = Some l ->
            nth_error (splitLines out) i = Some l') as Hat.
  { intros l l' content out i Hma Hme Hout Hn.
    destruct (rewritePlaylist_lines URL_new _ _ _ _ Hout) as (g & Hg & Hloop).
    destruct (rewriteLines_nth g _ _ i l Hloop Hn) as (l0 & Hl & Hn').
    rewrite Hn'. f_equal.
    destruct Hg as [[-> _] | [-> _]]; congruence. }
  split; [exact Hmedia|]. split; [exact Hmaster|].
  split; [|split; [|split]].
  - exists (Base64.encodeString resolved). split.
    + apply queryU_proxyUrl.
    + apply decodeString_encodeString.
  - intros resolved'. split.
    + apply proxyUrl_inj.
    + now intros ->.
  - intros content out i.
    now apply (Hat line).
  - intros blank Hb.
    assert (mediaLine URL_new url headersJson blank = Returns blank) as Hme
      by (unfold mediaLine; now rewrite (blank_not_tag blank Hb), Hb).
    assert (masterLine URL_new url headersJson blank = Returns blank) as Hma
      by (unfold masterLine; now rewrite (blank_not_tag blank Hb), Hb).
    split; [exact Hme|]. split; [exact Hma|].
    intros content out i.
    now apply (Hat blank).
Qed.

(** The scenario of the specification: [seg1.ts] and [seg2.ts] against
    [http://host/a/index.m3u8]; the empty last line stays. *)
Lemma uri_line_rewritten_witness :
  exists out p1 p2 u1 u2,
    rewritePlaylist Resolver.Sample.URL_new Resolver.Sample.base "{}" scenario
      = Returns out /\
    nth_error (splitLines out) 2 = Some p1 /\
    nth_error (splitLines out) 4 = Some p2 /\
    nth_error (splitLines out) 5 = Some "" /\
    p1 <> p2 /\
    queryU p1 = Some u1 /\ Base64.decodeString u1 = Some "http://host/a/seg1.ts" /\
    queryU p2 = Some u2 /\ Base64.decodeString u2 = Some "http://host/a/seg2.ts".
Proof.
  destruct (uri_line_rewritten Resolver.Sample.URL_new Resolver.Sample.base "{}"
              "seg1.ts" "http://host/a/seg1.ts"
              eq_refl eq_refl eq_refl ltac:(discriminate))
    as (_ & _ & (u1 & Hq1 & Hd1) & Hsame & Hat1 & Hblank).
  destruct (uri_line_rewritten Resolver.Sample.URL_new Resolver.Sample.base "{}"
              "seg2.ts" "http://host/a/seg2.ts"
              eq_refl eq_refl eq_refl ltac:(discriminate))
    as (_ & _ & (u2 & Hq2 & Hd2) & _ & Hat2 & _).
  destruct (Hblank "" eq_refl) as (_ & _ & Hat0).
  destruct (rewritePlaylist Resolver.Sample.URL_new Resolver.Sample.base "{}"
              scenario) as [out|] eqn:Hout; [|vm_compute in Hout; discriminate Hout].
  exists out, (proxyUrl "http://host/a/seg1.ts" "{}"),
         (proxyUrl "http://host/a/seg2.ts" "{}"), u1, u2.
  split; [reflexivity|].
  split; [apply (Hat1 scenario out 2%nat Hout); reflexivity|].
  split; [apply (Hat2 scenario out 4%nat Hout); reflexivity|].
  split; [apply (Hat0 scenario out 5%nat Hout); reflexivity|].
  split; [intros E; symmetry in E; apply Hsame in E; discriminate E|].
  auto.
Defined.

(** C5. The line count is not stable on every manifest: a line that the
    URL constructor rejects makes [parseURL] throw, the fail-open branch
    of the loop is never reached, and the handler answers with an error
    instead of a manifest. *)
Theorem rewritePlaylist_aborts :
  rewritePlaylist Resolver.Sample.URL_new Resolver.Sample.base "{}"
    ("#EXTM3U" ++ String LF ("http://[" ++ String LF "seg1.ts"))
  = Throws.
Proof. vm_compute. reflexivity. Qed.

(** *** Key lines *)

Lemma spanUrl_app u : forall t,
  all isUrlChar u = true ->
  match t with EmptyString => True | String c _ => isUrlChar c = false end ->
  spanUrl (u ++ t) = (u, t).
Proof.
  induction u as [|c u IH]; intros t Hu Ht; app_simpl.
  - destruct t as [|c t]; [reflexivity|]. cbn [spanUrl]. now rewrite Ht.
  - cbn [all] in Hu. apply andb_true_iff in Hu as [Hc Hu].
    cbn [spanUrl]. rewrite Hc. now rewrite IH.
Qed.

Lemma stripPrefix_other c p s :
  Ascii.eqb c "h" = false -> stripPrefix (String "h" p) (String c s) = None.
Proof.
  intros E. cbn [stripPrefix]. rewrite Ascii.eqb_sym. now rewrite E.
Qed.

Lemma matchUrlHere_other c s :
  Ascii.eqb c "h" = false -> matchUrlHere (String c s) = None.
Proof.
  intros E. unfold matchUrlHere.
  change "https://" with (String "h" "ttps://").
  change "http://" with (String "h" "ttp://").
  now rewrite !stripPrefix_other.
Qed.

(** The URL pattern at a URL: the scheme with its slashes, then the
    characters up to the first double quote or white space. *)
Lemma matchUrlHere_at scheme u t :
  scheme = "http://" \/ scheme = "https://" ->
  u <> "" -> all isUrlChar u = true ->
  match t with EmptyString => True | String c _ => isUrlChar c = false end ->
  matchUrlHere ((scheme ++ u) ++ t) = Some (scheme ++ u).
Proof.
  intros Hs Hne Hu Ht. unfold matchUrlHere. rewrite app_assoc.
  destruct Hs as [-> | ->].
  - assert (stripPrefix "https://" ("http://" ++ u ++ t) = None) as -> by reflexivity.
    rewrite stripPrefix_app, spanUrl_app by assumption.
    now rewrite RangeFacts.truthy_nonempty.
  - rewrite stripPrefix_app, spanUrl_app by assumption.
    now rewrite RangeFacts.truthy_nonempty.
Qed.

Lemma findUrl_skip pre : forall s,
  all (isNot "h") pre = true -> findUrl (pre ++ s) = findUrl s.
Proof.
  induction pre as [|c pre IH]; intros s Hpre; app_simpl; [reflexivity|].
  cbn [all] in Hpre. apply andb_true_iff in Hpre as [Hc Hpre].
  unfold isNot in Hc. apply negb_true_iff in Hc.
  cbn [findUrl]. rewrite matchUrlHere_other by assumption. now apply IH.
Qed.

Lemma findUrl_here s u : matchUrlHere s = Some u -> findUrl s = Some u.
Proof. intros H. destruct s; cbn [findUrl]; now rewrite H. Qed.

Lemma replaceFirst_skip pre : forall p s replacement,
  all (isNot "h") pre = true ->
  replaceFirst (pre ++ s) (String "h" p) replacement
  = pre ++ replaceFirst s (String "h" p) replacement.
Proof.
  induction pre as [|c pre IH]; intros p s replacement Hpre; app_simpl;
    [reflexivity|].
  cbn [all] in Hpre. apply andb_true_iff in Hpre as [Hc Hpre].
  unfold isNot in Hc. apply negb_true_iff in Hc.
  cbn [replaceFirst]. rewrite stripPrefix_other by assumption.
  now rewrite IH.
Qed.

Lemma replaceFirst_here p s replacement :
  replaceFirst (p ++ s) p replacement = replacement ++ s.
Proof. destruct (p ++ s) eqn:E; cbn [replaceFirst]; rewrite <- E;
  now rewrite stripPrefix_app. Qed.

Lemma no_http_no_url line : includes line "http" = false -> findUrl line = None.
Proof.
  induction line as [|c line IH]; intros H.
  - reflexivity.
  - cbn [includes] in H. apply orb_false_iff in H as [Hhere Hrest].
    cbn [findUrl]. rewrite (IH Hrest).
    assert (matchUrlHere (String c line) = None) as ->; [|reflexivity].
    unfold matchUrlHere, startsWith in *.
    destruct (stripPrefix "https://" (String c line)) as [r|] eqn:E1.
    { apply stripPrefix_Some in E1.
      rewrite E1 in Hhere.
      change ("https://" ++ r) with ("http" ++ ("s://" ++ r)) in Hhere.
      now rewrite stripPrefix_app in Hhere. }
    destruct (stripPrefix "http://" (String c line)) as [r|] eqn:E2;
      [|reflexivity].
    apply stripPrefix_Some in E2. rewrite E2 in Hhere.
    change ("http://" ++ r) with ("http" ++ ("://" ++ r)) in Hhere.
    now rewrite stripPrefix_app in Hhere.
Qed.

(** X20. Key lines.  In a line that starts with [#EXT-X-KEY:] and holds
    an absolute [http://] or [https://] URL after text without the
    letter [h], the URL, which runs up to the next double quote or white
    space, is replaced in place by its proxy URL: what stands before and
    after it is kept, and the parameter [u] of the proxy URL decodes to
    the URL.  The URL is not resolved against the base of the playlist,
    and a key line without [http] anywhere, such as one with a relative
    URI, is passed through unchanged. *)
Theorem key_line_rewritten
  (URL_new : string -> option string -> option URL)
  (base headersJson pre scheme u post : string)
  (Hkey : startsWith pre "#EXT-X-KEY:" = true)
  (Hpre : all (isNot "h") pre = true)
  (Hscheme : scheme = "http://" \/ scheme = "https://")
  (Hu : u <> "") (Hchars : all isUrlChar u = true)
  (Hpost : match post with
           | EmptyString => True
           | String c _ => isUrlChar c = false
           end) :
  let keyUrl := scheme ++ u in
  let line := pre ++ keyUrl ++ post in
  mediaLine URL_new base headersJson line
    = Returns (pre ++ proxyUrl keyUrl headersJson ++ post) /\
  masterLine URL_new base headersJson line
    = Returns (pre ++ proxyUrl keyUrl headersJson ++ post) /\
  (exists encoded,
     queryU (proxyUrl keyUrl headersJson) = Some encoded /\
     Base64.decodeString encoded = Some keyUrl) /\
  (forall other,
     startsWith other "#EXT-X-KEY:" = true -> includes other "http" = false ->
     mediaLine URL_new base headersJson other = Returns other /\
     masterLine URL_new base headersJson other = Returns other).
Proof.
  intros keyUrl line.
  assert (forall l, startsWith l "#EXT-X-KEY:" = true -> startsWith l "#" = true)
    as Hhash.
  { intros l H. unfold startsWith in *.
    destruct (stripPrefix "#EXT-X-KEY:" l) as [r|] eqn:E; [|discriminate].
    apply stripPrefix_Some in E. subst l. reflexivity. }
  assert (startsWith line "#EXT-X-KEY:" = true) as Hline.
  { unfold startsWith in *.
    destruct (stripPrefix "#EXT-X-KEY:" pre) as [r|] eqn:E; [|discriminate].
    apply stripPrefix_Some in E. subst line. rewrite E, app_assoc.
    now rewrite stripPrefix_app. }
  assert (exists k, keyUrl = String "h" k) as [k Ek]
    by (subst keyUrl; destruct Hscheme as [-> | ->]; eexists; reflexivity).
  assert (rewriteTagLine headersJson line
          = pre ++ proxyUrl keyUrl headersJson ++ post) as Htag.
  { unfold rewriteTagLine. subst line.
    rewrite findUrl_skip by assumption.
    rewrite <- app_assoc.
    rewrite (findUrl_here _ keyUrl)
      by (subst keyUrl; now apply matchUrlHere_at).
    rewrite RangeFacts.truthy_nonempty by (rewrite Ek; discriminate).
    rewrite app_assoc. rewrite Ek at 2.
    rewrite replaceFirst_skip by assumption. rewrite <- Ek.
    now rewrite replaceFirst_here. }
  split; [|split; [|split]].
  - unfold mediaLine. now rewrite (Hhash line Hline), Hline, Htag.
  - unfold masterLine. now rewrite (Hhash line Hline), Hline, Htag.
  - exists (Base64.encodeString keyUrl). split.
    + apply queryU_proxyUrl.
    + apply decodeString_encodeString.
  - intros other Hk Hno.
    assert (rewriteTagLine headersJson other = other) as Hsame
      by (unfold rewriteTagLine; now rewrite no_http_no_url).
    split.
    + unfold mediaLine. now rewrite (Hhash other Hk), Hk, Hsame.
    + unfold masterLine. now rewrite (Hhash other Hk), Hk, Hsame.
Qed.

Lemma key_line_rewritten_witness :
  mediaLine Resolver.Sample.URL_new Resolver.Sample.base "{}"
    ("#EXT-X-KEY:METHOD=AES-128,URI=" ++ String quote
       ("https://keys/k1.bin" ++ String quote ",IV=0x01"))
  = Returns
      ("#EXT-X-KEY:METHOD=AES-128,URI=" ++ String quote
         (proxyUrl "https://keys/k1.bin" "{}" ++ String quote ",IV=0x01")).
Proof.
  destruct (key_line_rewritten Resolver.Sample.URL_new Resolver.Sample.base "{}"
              ("#EXT-X-KEY:METHOD=AES-128,URI=" ++ String quote "")
              "https://" "keys/k1.bin" (String quote ",IV=0x01")
              eq_refl eq_refl (or_intror eq_refl) ltac:(discriminate)
              eq_refl eq_refl) as [Hmedia _].
  exact Hmedia.
Defined.

End PlaylistFacts.

(** ** Numbers as text *)

Module NumberTextFacts.
Import JS JSFacts.

Lemma parseIntFrom_acc_pos d : forall acc,
  parseIntFrom (Z.pos acc) (NilEmpty.string_of_uint d)
  = Z.pos (Pos.of_uint_acc d acc).
Proof.
  induction d; intros acc; simpl; try reflexivity;
    rewrite <- IHd; f_equal; unfold code; simpl; lia.
Qed.

Lemma parseIntFrom_uint d :
  parseIntFrom 0 (NilEmpty.string_of_uint d) = Z.of_N (Pos.of_uint d).
Proof.
  induction d; simpl; try reflexivity; try assumption;
    rewrite <- parseIntFrom_acc_pos; f_equal.
Qed.

Lemma digits_uint d : all isDigit (NilEmpty.string_of_uint d) = true.
Proof. induction d; simpl; try reflexivity; assumption. Qed.

Lemma showZ_pos p : URI.showZ (Z.pos p) = NilEmpty.string_of_uint (Pos.to_uint p).
Proof.
  unfold URI.showZ. simpl.
  pose proof (DecimalPos.Unsigned.to_uint_nonnil p) as H.
  now destruct (Pos.to_uint p).
Qed.

(** Printing a natural number and reading it back. *)
Lemma parseInt_showZ z : 0 <= z -> parseInt (URI.showZ z) = z.
Proof.
  intros Hz. destruct z as [|p|p]; [reflexivity| |lia].
  rewrite showZ_pos. unfold parseInt.
  now rewrite parseIntFrom_uint, DecimalPos.Unsigned.of_to.
Qed.

Lemma digits_showZ z : 0 <= z -> all isDigit (URI.showZ z) = true.
Proof.
  intros Hz. destruct z as [|p|p]; [reflexivity| |lia].
  rewrite showZ_pos. apply digits_uint.
Qed.

Lemma showZ_nonempty z : URI.showZ z <> "".
Proof.
  destruct z as [|p|p]; [discriminate| |discriminate].
  rewrite showZ_pos.
  pose proof (DecimalPos.Unsigned.to_uint_nonnil p) as H.
  destruct (Pos.to_uint p); try discriminate. congruence.
Qed.

Lemma showZ_neg p :
  URI.showZ (Z.neg p) = String "-" (NilEmpty.string_of_uint (Pos.to_uint p)).
Proof.
  unfold URI.showZ. simpl.
  pose proof (DecimalPos.Unsigned.to_uint_nonnil p) as H.
  now destruct (Pos.to_uint p).
Qed.

Lemma showZ_nonneg_no_minus z : 0 <= z ->
  all (isNot "-") (URI.showZ z) = true.
Proof.
  intros Hz. eapply all_impl; [|apply digits_showZ; assumption].
  intros c Hc. unfold isNot. destruct (Ascii.eqb c "-") eqn:E; [|reflexivity].
  apply Ascii.eqb_eq in E. subst. discriminate.
Qed.

(** Different integers print differently. *)
Lemma showZ_inj a b : URI.showZ a = URI.showZ b -> a = b.
Proof.
  intros H.
  assert (forall p q, URI.showZ (Z.pos p) = URI.showZ (Z.pos q) -> p = q) as Hpos.
  { intros p q E. apply (f_equal parseInt) in E.
    rewrite !parseInt_showZ in E by lia. congruence. }
  assert (forall z p, 0 <= z -> URI.showZ z <> URI.showZ (Z.neg p)) as Hmix.
  { intros z p Hz E. pose proof (showZ_nonneg_no_minus z Hz) as Hn.
    rewrite E, showZ_neg in Hn. discriminate. }
  destruct a as [|p|p], b as [|q|q]; try reflexivity.
  - apply (f_equal parseInt) in H. rewrite !parseInt_showZ in H by lia. congruence.
  - exfalso. now apply (Hmix 0 q).
  - apply (f_equal parseInt) in H. rewrite !parseInt_showZ in H by lia. congruence.
  - f_equal. now apply Hpos.
  - exfalso. now apply (Hmix (Z.pos p) q).
  - exfalso. symmetry in H. now apply (Hmix 0 p).
  - exfalso. symmetry in H. now apply (Hmix (Z.pos q) p).
  - rewrite !showZ_neg in H. inversion H as [E].
    rewrite <- !showZ_pos in E. f_equal. now apply Hpos.
Qed.

End NumberTextFacts.

(** ** Negotiating the byte window *)

Module Mp4RouteFacts.
Import JS JSFacts Range RangeFacts NumberTextFacts Mp4Route.

(** What the parser returns is a window inside the content. *)
Lemma parseRangeHeader_window h L r :
  parseRangeHeader h L = Some r -> 0 <= start r <= end_ r /\ end_ r < L.
Proof.
  intros H. unfold parseRangeHeader in H.
  destruct (matchRange h) as [[a b]|] eqn:E; [|discriminate].
  apply matchRange_inv in E as (Ha & Hb & ->).
  pose proof (parseIntFrom_nonneg a 0 Ha ltac:(lia)) as Pa.
  pose proof (parseIntFrom_nonneg b 0 Hb ltac:(lia)) as Pb.
  fold (parseInt a) in Pa. fold (parseInt b) in Pb.
  destruct (truthy a), (truthy b); simpl in H; rewrite guard_validated in H;
    apply validated_Some in H as (-> & ? & ? & ?); simpl; lia.
Qed.

(** The text [bytes=s-e] of a window inside the content parses to that
    window. *)
Lemma parseRangeHeader_rangeText s e L :
  0 <= s <= e -> e < L ->
  parseRangeHeader (HotTier.rangeText s e) L = Some (mkRange s e).
Proof.
  intros Hs He. unfold parseRangeHeader, HotTier.rangeText.
  rewrite matchRange_form by (apply digits_showZ; lia).
  rewrite !truthy_nonempty by apply showZ_nonempty.
  simpl. rewrite !parseInt_showZ by lia.
  rewrite guard_validated. unfold validated.
  destruct (Z_le_dec L s); [lia|]. destruct (Z_le_dec L e); [lia|].
  destruct (Z_lt_dec e s); [lia|reflexivity].
Qed.

(** X1. When the handler decides on a partial answer, the window is inside
    the content, and the [Range] header it sends upstream is the normal
    form of the request: it parses to the same window, and planning again
    from it changes nothing.  Suffix and open-ended requests are thus
    forwarded as explicit [bytes=start-end]. *)
Theorem upstream_range_normal_form
  (h acceptRanges : string) (L : Z)
  (Hpartial : isPartial (planRange (Some h) acceptRanges L) = true) :
  let p := planRange (Some h) acceptRanges L in
  0 <= p_start p <= p_end p /\ p_end p < L /\
  parseRangeHeader h L = Some (mkRange (p_start p) (p_end p)) /\
  exists text,
    upstreamRange p = Some text /\
    text = "bytes=" ++ URI.showZ (p_start p) ++ "-" ++ URI.showZ (p_end p) /\
    parseRangeHeader text L = Some (mkRange (p_start p) (p_end p)) /\
    planRange (Some text) acceptRanges L = p.
Proof.
  intros p. subst p. unfold planRange in *.
  destruct (truthy h && String.eqb acceptRanges "bytes") eqn:Eg;
    [|discriminate Hpartial].
  apply andb_true_iff in Eg as [_ Ea].
  destruct (parseRangeHeader h L) as [[s e]|] eqn:Ep; [|discriminate Hpartial].
  pose proof (parseRangeHeader_window _ _ _ Ep) as [Hs He].
  simpl in *. repeat split; try lia.
  exists (HotTier.rangeText s e).
  pose proof (parseRangeHeader_rangeText s e L Hs He) as Hr.
  repeat split; try assumption.
  rewrite Ea, Hr. reflexivity.
Qed.

Lemma upstream_range_normal_form_witness :
  upstreamRange (planRange (Some "bytes=-500") "bytes" 1000) = Some "bytes=500-999" /\
  upstreamRange (planRange (Some "bytes=200-") "bytes" 1000) = Some "bytes=200-999".
Proof.
  split.
  - destruct (upstream_range_normal_form "bytes=-500" "bytes" 1000 eq_refl)
      as (_ & _ & _ & text & Hu & Ht & _).
    rewrite Hu, Ht. vm_compute. reflexivity.
  - destruct (upstream_range_normal_form "bytes=200-" "bytes" 1000 eq_refl)
      as (_ & _ & _ & text & Hu & Ht & _).
    rewrite Hu, Ht. vm_compute. reflexivity.
Defined.



End Mp4RouteFacts.

(** ** The chunk manager *)

Module ChunkManagerFacts.
Import JS JSFacts Range RangeFacts NumberTextFacts BufferFacts Chunks ChunksFacts
  ChunkManager.

Lemma chunkAt_size url hj total cs i :
  size (chunkAt url hj total cs i) = Z.min ((i + 1) * cs) total - i * cs.
Proof. simpl. lia. Qed.

(** The descriptors from [i] on account for the bytes from [i * cs] to the
    end of the file or of the last descriptor, whichever comes first. *)
Lemma covered_chunkLoop url hj total cs n : forall i,
  0 < cs -> 0 <= i -> i * cs <= total -> (i + Z.of_nat n - 1) * cs < total ->
  covered (chunkLoop url hj total cs n i)
  = Z.min ((i + Z.of_nat n) * cs) total - i * cs.
Proof.
  induction n as [|n IH]; intros i Hcs Hi Hlo Hhi.
  - simpl. rewrite Z.add_0_r. lia.
  - change (covered (chunkLoop url hj total cs (S n) i))
      with (size (chunkAt url hj total cs i)
            + covered (chunkLoop url hj total cs n (i + 1))).
    rewrite chunkAt_size.
    destruct n as [|n].
    + simpl. replace (i + Z.of_nat 1) with (i + 1) by lia. lia.
    + rewrite IH by nia.
      replace (i + 1 + Z.of_nat (S n)) with (i + Z.of_nat (S (S n))) by lia.
      assert ((i + 1) * cs <= total) by nia. lia.
Qed.

(** X3. The descriptors of a manifest tile the file: the first starts at
    byte 0, each next one starts right after the one before, every one is
    inside the file and holds between 1 and [chunkSize] bytes, and the
    sizes add up to the total size.  Every byte of the file is thus in
    exactly one chunk. *)
Theorem manifest_tiles_file
  (this : Z) (url hj : string) (total : Z) (custom : option Z)
  (Htotal : 0 < total) (Hcs : 0 < effectiveChunkSize this custom) :
  let cs := effectiveChunkSize this custom in
  exists m,
    generateManifest this url total hj custom = Some m /\
    (exists c, nth_error (chunks m) 0 = Some c /\ start c = 0) /\
    (forall k c c',
       nth_error (chunks m) k = Some c ->
       nth_error (chunks m) (S k) = Some c' ->
       start c' = end_ c + 1) /\
    (forall k c,
       nth_error (chunks m) k = Some c ->
       index c = Z.of_nat k /\
       0 <= start c <= end_ c /\ end_ c < total /\
       1 <= size c <= cs /\ size c = end_ c - start c + 1) /\
    covered (chunks m) = total.
Proof.
  intros cs. unfold generateManifest. fold cs.
  destruct (cs =? 0) eqn:E; [lia|].
  pose proof (ceilDiv_spec total cs Hcs) as Hc.
  pose proof (ceilDiv_pos total cs Htotal Hcs) as Hp.
  set (n := ceilDiv total cs) in *.
  eexists. split; [reflexivity|]. cbn [chunks].
  assert (forall k c,
    nth_error (chunkLoop url hj total cs (Z.to_nat n) 0) k = Some c ->
    (k < Z.to_nat n)%nat /\ c = chunkAt url hj total cs (Z.of_nat k)) as Hnth.
  { intros k c Hk.
    assert (k < Z.to_nat n)%nat as Hlt.
    { rewrite <- (chunkLoop_length url hj total cs (Z.to_nat n) 0).
      apply nth_error_Some. congruence. }
    split; [assumption|].
    rewrite chunkLoop_nth in Hk by assumption. rewrite Z.add_0_l in Hk.
    congruence. }
  split; [|split; [|split]].
  - exists (chunkAt url hj total cs 0). split.
    + rewrite chunkLoop_nth by lia. reflexivity.
    + simpl. lia.
  - intros k c c' Hk Hk'.
    apply Hnth in Hk as [Hlt ->]. apply Hnth in Hk' as [Hlt' ->].
    simpl. assert ((Z.of_nat k + 1) * cs <= (n - 1) * cs) by nia. lia.
  - intros k c Hk. apply Hnth in Hk as [Hlt ->]. simpl.
    assert (Z.of_nat k * cs <= (n - 1) * cs) by nia.
    repeat split; nia.
  - rewrite covered_chunkLoop; lia.
Qed.

Lemma manifest_tiles_file_witness :
  exists m,
    generateManifest DEFAULT_CHUNK_SIZE "http://host/v.mp4" 1000000 "{}" None
      = Some m /\
    covered (chunks m) = 1000000.
Proof.
  destruct (manifest_tiles_file DEFAULT_CHUNK_SIZE "http://host/v.mp4" "{}"
              1000000 None ltac:(lia) ltac:(reflexivity))
    as (m & Hm & _ & _ & _ & Hsum).
  exists m. split; assumption.
Defined.

(** X4. For an index inside the manifest, [getChunkRange] is the text
    [bytes=start-end] of that descriptor, as long as the manifest was made
    with the manager's own chunk size; the range parser maps it back to the
    descriptor's window. *)
Theorem getChunkRange_matches_manifest
  (this : Z) (url hj : string) (total i : Z) (m : MP4Manifest) (c : MP4ChunkInfo)
  (Hthis : 0 < this)
  (Hm : generateManifest this url total hj None = Some m)
  (Hc : nth_error (chunks m) (Z.to_nat i) = Some c)
  (Hi : 0 <= i) :
  getChunkRange this i total
    = "bytes=" ++ URI.showZ (start c) ++ "-" ++ URI.showZ (end_ c) /\
  parseRangeHeader (getChunkRange this i total) total
    = Some (mkRange (start c) (end_ c)).
Proof.
  unfold generateManifest in Hm. simpl in Hm.
  destruct (this =? 0) eqn:E; [lia|].
  injection Hm as <-. simpl in Hc.
  assert (Z.to_nat i < Z.to_nat (ceilDiv total this))%nat as Hlt.
  { rewrite <- (chunkLoop_length url hj total this
                  (Z.to_nat (ceilDiv total this)) 0).
    apply nth_error_Some. congruence. }
  rewrite chunkLoop_nth in Hc by assumption.
  rewrite Z2Nat.id in Hc by lia. simpl in Hc. injection Hc as <-.
  pose proof (ceilDiv_spec total this Hthis) as Hs.
  assert (i * this <= (ceilDiv total this - 1) * this) by nia.
  split; [reflexivity|].
  unfold getChunkRange. simpl.
  apply (Mp4RouteFacts.parseRangeHeader_rangeText
           (i * this) (Z.min (i * this + this - 1) (total - 1)) total); nia.
Qed.

Lemma getChunkRange_matches_manifest_witness :
  getChunkRange DEFAULT_CHUNK_SIZE 3 1000000 = "bytes=786432-999999" /\
  parseRangeHeader (getChunkRange DEFAULT_CHUNK_SIZE 3 1000000) 1000000
    = Some (mkRange 786432 999999).
Proof.
  destruct (generateManifest DEFAULT_CHUNK_SIZE "http://host/v.mp4" 1000000
              "{}" None) as [m|] eqn:Hm; [|discriminate Hm].
  destruct (nth_error (chunks m) (Z.to_nat 3)) as [c|] eqn:Hc.
  - destruct (getChunkRange_matches_manifest DEFAULT_CHUNK_SIZE
                "http://host/v.mp4" "{}" 1000000 3 m c ltac:(reflexivity)
                Hm Hc ltac:(lia)) as [_ Hp].
    vm_compute in Hm. injection Hm as <-.
    vm_compute in Hc. injection Hc as <-.
    split; [reflexivity|exact Hp].
  - vm_compute in Hm. injection Hm as <-. vm_compute in Hc. discriminate Hc.
Defined.

(** *** Reading the chunk index *)

Lemma digit_not_space c : isDigit c = true -> isSpace c = false.
Proof. unfold isDigit, isSpace. lia. Qed.

Lemma digit_not_minus c : isDigit c = true -> Ascii.eqb c "-" = false.
Proof.
  intros H. destruct (Ascii.eqb c "-") eqn:E; [|reflexivity].
  apply Ascii.eqb_eq in E. subst c. discriminate.
Qed.

Lemma digit_not_plus c : isDigit c = true -> Ascii.eqb c "+" = false.
Proof.
  intros H. destruct (Ascii.eqb c "+") eqn:E; [|reflexivity].
  apply Ascii.eqb_eq in E. subst c. discriminate.
Qed.

(** [parseInt] reads a leading run of digits and ignores what follows. *)
Lemma parseIntJS_digits d t :
  all isDigit d = true -> d <> "" -> noDigitAhead t ->
  parseIntJS (d ++ t) = Some (parseInt d).
Proof.
  intros Hd Hne Ht. unfold parseIntJS.
  destruct d as [|c d]; [congruence|].
  pose proof Hd as Hd'. simpl in Hd'. apply andb_true_iff in Hd' as [Hc _].
  rewrite app_cons.
  cbn [trimStart]. rewrite (digit_not_space c Hc).
  rewrite (digit_not_minus c Hc), (digit_not_plus c Hc).
  rewrite <- app_cons, (spanDigits_app _ t Hd Ht).
  cbn [truthy]. f_equal. lia.
Qed.

Lemma parseIntJS_minus d t :
  all isDigit d = true -> d <> "" -> noDigitAhead t ->
  parseIntJS (String "-" (d ++ t)) = Some (- parseInt d).
Proof.
  intros Hd Hne Ht. unfold parseIntJS.
  cbn [trimStart]. change (isSpace "-") with false. cbv iota.
  rewrite Ascii.eqb_refl.
  rewrite (spanDigits_app _ t Hd Ht).
  destruct d as [|c d]; [congruence|].
  cbn [truthy]. f_equal; lia.
Qed.

(** The decimal text of an integer, followed by anything that does not
    start with a digit, is read back as that integer. *)
Lemma parseIntJS_showZ i t :
  noDigitAhead t -> parseIntJS (URI.showZ i ++ t) = Some i.
Proof.
  intros Ht. destruct i as [|p|p].
  - change (URI.showZ 0) with "0". now rewrite (parseIntJS_digits "0" t).
  - rewrite parseIntJS_digits; try assumption.
    + now rewrite parseInt_showZ.
    + now apply digits_showZ.
    + apply showZ_nonempty.
  - rewrite showZ_neg, app_cons, <- showZ_pos.
    rewrite parseIntJS_minus; try assumption.
    + now rewrite parseInt_showZ.
    + now apply digits_showZ.
    + apply showZ_nonempty.
Qed.

(** X5. [parseChunkIndex] reads back every index that [getChunkUrl]
    prints, and ignores whatever follows the digits; a negative index is
    read as well.  A parameter that is absent, empty, or starts with
    something other than white space, a sign or a digit gives [null]; and
    a request with a numeric [chunk] parameter counts as chunked whatever
    the [chunked] parameter says. *)
Theorem parseChunkIndex_reads_index :
  (forall i, parseChunkIndex (Some (URI.showZ i)) = Some i) /\
  (forall i c r, isDigit c = false ->
     parseChunkIndex (Some (URI.showZ i ++ String c r)) = Some i) /\
  (forall c r, isDigit c = false -> isSpace c = false ->
     c <> "-"%char -> c <> "+"%char ->
     parseChunkIndex (Some (String c r)) = None) /\
  parseChunkIndex None = None /\
  parseChunkIndex (Some "") = None /\
  (forall chunked i, isChunkedRequest chunked (Some (URI.showZ i)) = true).
Proof.
  assert (forall i, parseChunkIndex (Some (URI.showZ i)) = Some i) as Hshow.
  { intros i. unfold parseChunkIndex.
    rewrite truthy_nonempty by apply showZ_nonempty.
    rewrite <- (app_nil_r (URI.showZ i)). now apply parseIntJS_showZ. }
  split; [exact Hshow|]. split; [|split; [|split; [|split]]].
  - intros i c r Hc. unfold parseChunkIndex.
    rewrite truthy_nonempty.
    + now apply parseIntJS_showZ.
    + destruct (URI.showZ i) eqn:E; [|discriminate].
      now apply showZ_nonempty in E.
  - intros c r Hd Hs Hm Hp. unfold parseChunkIndex, parseIntJS.
    cbn [truthy trimStart]. rewrite Hs.
    apply Ascii.eqb_neq in Hm, Hp. rewrite Hm, Hp.
    cbn [spanDigits]. rewrite Hd. reflexivity.
  - reflexivity.
  - reflexivity.
  - intros chunked i. unfold isChunkedRequest. rewrite Hshow.
    apply orb_true_r.
Qed.

(** *** Cache keys *)

(** A text is cut at its first occurrence of a character in one way
    only. *)
Lemma cut_at_first x a : forall a' r r',
  all (isNot x) a = true -> all (isNot x) a' = true ->
  a ++ String x r = a' ++ String x r' -> a = a' /\ r = r'.
Proof.
  induction a as [|c a IH]; intros a' r r' Ha Ha' E.
  - destruct a' as [|c' a']; app_simpl_in E.
    + injection E as ->. now split.
    + injection E as <- _. simpl in Ha'. unfold isNot in Ha'.
      rewrite Ascii.eqb_refl in Ha'. discriminate.
  - destruct a' as [|c' a']; app_simpl_in E.
    + injection E as -> _. simpl in Ha. unfold isNot in Ha.
      rewrite Ascii.eqb_refl in Ha. discriminate.
    + injection E as -> E. simpl in Ha, Ha'.
      apply andb_true_iff in Ha as [_ Ha]. apply andb_true_iff in Ha' as [_ Ha'].
      destruct (IH a' r r' Ha Ha' E) as [-> ->]. now split.
Qed.

Lemma base64_no_colon s : all (isNot ":") (Base64.encodeString s) = true.
Proof. unfold Base64.encodeString. now apply base64_encode_class. Qed.

(** X6. The cache key of a chunk determines the URL and the index: two
    chunks share a key only when they are the same chunk of the same URL.
    No chunk key is the key of a segment, and the chunk manager and the
    warm tier name a chunk alike. *)
Theorem chunk_cache_keys_distinct :
  (forall url i url' i',
     getChunkCacheKey url i = getChunkCacheKey url' i' -> url = url' /\ i = i') /\
  (forall url i url', getChunkCacheKey url i <> WarmTier.getCacheKey url') /\
  (forall url i, WarmChunks.getMP4ChunkKey url i = getChunkCacheKey url i).
Proof.
  split; [|split].
  - intros url i url' i' E. unfold getChunkCacheKey in E.
    apply app_inv_head in E.
    change (":chunk_" ++ URI.showZ i) with (String ":" ("chunk_" ++ URI.showZ i)) in E.
    change (":chunk_" ++ URI.showZ i') with (String ":" ("chunk_" ++ URI.showZ i')) in E.
    apply cut_at_first in E as [Eu Ei]; try apply base64_no_colon.
    apply app_inv_head in Ei.
    split; [now apply encodeString_inj | now apply showZ_inj].
  - intros url i url' E. discriminate E.
  - reflexivity.
Qed.

End ChunkManagerFacts.

(** ** The warm tier as a store *)

Module WarmStoreFacts.
Import JS JSFacts BufferFacts NumberTextFacts WarmTier WarmChunks.

Lemma getCacheKey_inj url url' : getCacheKey url = getCacheKey url' -> url = url'.
Proof.
  unfold getCacheKey. intros E.
  apply app_inv_head in E. now apply encodeString_inj.
Qed.

Lemma getMP4ChunkKey_inj url i url' i' :
  getMP4ChunkKey url i = getMP4ChunkKey url' i' -> url = url' /\ i = i'.
Proof.
  unfold getMP4ChunkKey. intros E.
  apply app_inv_head in E.
  change (":chunk_" ++ URI.showZ i) with (String ":" ("chunk_" ++ URI.showZ i)) in E.
  change (":chunk_" ++ URI.showZ i') with (String ":" ("chunk_" ++ URI.showZ i')) in E.
  apply ChunkManagerFacts.cut_at_first in E as [Eu Ei];
    try apply ChunkManagerFacts.base64_no_colon.
  apply app_inv_head in Ei.
  split; [now apply encodeString_inj | now apply showZ_inj].
Qed.

Lemma keys_apart url url' i : getCacheKey url <> getMP4ChunkKey url' i.
Proof. intros E. discriminate E. Qed.

Section Platform.

Variable JSON_parse : string -> option CacheStorageFormat.
Variable JSON_stringify : CacheStorageFormat -> string.
Variable gzip : list byte -> list byte.
Variable gunzip : list byte -> option (list byte).
Variable fromBase64 : string -> list byte.

#[local] Abbreviation get := (WarmTier.get JSON_parse gunzip fromBase64).
#[local] Abbreviation set := (WarmTier.set JSON_stringify gzip).
#[local] Abbreviation getMP4Chunk := (WarmChunks.getMP4Chunk JSON_parse gunzip fromBase64).
#[local] Abbreviation setMP4Chunk := (WarmChunks.setMP4Chunk JSON_stringify gzip).
#[local] Abbreviation opened := (WarmChunks.opened JSON_parse gunzip fromBase64).
#[local] Abbreviation sealed := (WarmChunks.sealed JSON_stringify gzip).
#[local] Abbreviation faithful :=
  (WarmChunks.faithful JSON_parse JSON_stringify gzip gunzip fromBase64).
#[local] Abbreviation routeLookup := (WarmTier.routeLookup JSON_parse gunzip fromBase64).
#[local] Abbreviation routeStore :=
  (WarmTier.routeStore JSON_parse JSON_stringify gzip gunzip fromBase64).

Lemma get_textAt this url :
  get this url
  = match textAt this (getCacheKey url) with
    | Some text => opened text
    | None => None
    end.
Proof.
  unfold WarmTier.get, textAt, WarmChunks.opened.
  destruct (isConnected this); [|reflexivity].
  destruct (client this) as [store|]; [|reflexivity].
  destruct (store !! getCacheKey url) as [[ttl text]|]; reflexivity.
Qed.

Lemma getMP4Chunk_textAt this url i :
  getMP4Chunk this url i
  = match textAt this (getMP4ChunkKey url i) with
    | Some text => opened text
    | None => None
    end.
Proof.
  unfold WarmChunks.getMP4Chunk, textAt, WarmChunks.opened.
  destruct (isConnected this); [|reflexivity].
  destruct (client this) as [store|]; [|reflexivity].
  destruct (store !! getMP4ChunkKey url i) as [[ttl text]|]; reflexivity.
Qed.

Lemma textAt_set this url entry key :
  textAt (set this url entry) key
  = if decide (key = getCacheKey url)
    then (if isConnected this then option_map (fun _ => sealed entry) (client this) else None)
    else textAt this key.
Proof.
  unfold WarmTier.set, textAt.
  destruct this as [[store|] [] enabled]; simpl;
    try (now destruct (decide _)).
  destruct (decide (key = getCacheKey url)) as [->|Hne].
  - now rewrite lookup_insert_eq.
  - now rewrite lookup_insert_ne by congruence.
Qed.

Lemma textAt_setMP4Chunk this url i entry key :
  textAt (setMP4Chunk this url i entry) key
  = if decide (key = getMP4ChunkKey url i)
    then (if isConnected this then option_map (fun _ => sealed entry) (client this) else None)
    else textAt this key.
Proof.
  unfold WarmChunks.setMP4Chunk, textAt.
  destruct this as [[store|] [] enabled]; simpl;
    try (now destruct (decide _)).
  destruct (decide (key = getMP4ChunkKey url i)) as [->|Hne].
  - now rewrite lookup_insert_eq.
  - now rewrite lookup_insert_ne by congruence.
Qed.

Lemma textAt_delete this url key :
  textAt (delete this url) key
  = if decide (key = getCacheKey url) then None else textAt this key.
Proof.
  unfold WarmTier.delete, textAt.
  destruct this as [[store|] [] enabled]; simpl;
    try (now destruct (decide _)).
  destruct (decide (key = getCacheKey url)) as [->|Hne].
  - now rewrite lookup_delete_eq.
  - now rewrite lookup_delete_ne by congruence.
Qed.

Lemma textAt_deleteMP4Chunk this url i key :
  textAt (deleteMP4Chunk this url i) key
  = if decide (key = getMP4ChunkKey url i) then None else textAt this key.
Proof.
  unfold WarmChunks.deleteMP4Chunk, textAt.
  destruct this as [[store|] [] enabled]; simpl;
    try (now destruct (decide _)).
  destruct (decide (key = getMP4ChunkKey url i)) as [->|Hne].
  - now rewrite lookup_delete_eq.
  - now rewrite lookup_delete_ne by congruence.
Qed.

Lemma opened_sealed entry : faithful entry -> opened (sealed entry) = Some entry.
Proof.
  intros (Ht & Hp & Hb & Hz). unfold WarmChunks.opened.
  rewrite Ht, Hp. simpl. rewrite Hb, Hz. now destruct entry.
Qed.

(** X7. What is written is read back: on a connected cache, a segment
    stored with [set] and a chunk stored with [setMP4Chunk] come back from
    [get] and [getMP4Chunk] with the same bytes, headers and timestamp,
    provided the runtime undoes its own encodings on that entry. *)
Theorem warm_tier_round_trip
  (this : RedisCache) (store : gmap string (Z * string)) (url : string)
  (chunkIndex : Z) (entry : CacheEntry)
  (Hconn : isConnected this = true) (Hclient : client this = Some store)
  (Hcodec : faithful entry) :
  get (set this url entry) url = Some entry /\
  getMP4Chunk (setMP4Chunk this url chunkIndex entry) url chunkIndex = Some entry.
Proof.
  split.
  - rewrite get_textAt, textAt_set, Hconn, Hclient.
    rewrite decide_True by reflexivity. now apply opened_sealed.
  - rewrite getMP4Chunk_textAt, textAt_setMP4Chunk, Hconn, Hclient.
    rewrite decide_True by reflexivity. now apply opened_sealed.
Qed.

(** X8. Writes and deletes touch one key only.  Storing or deleting a
    segment leaves the segments of every other URL and all chunks as they
    were; storing or deleting a chunk leaves all segments and every other
    chunk as they were. *)
Theorem warm_tier_frame (this : RedisCache) (url : string) (i : Z)
  (entry : CacheEntry) :
  (forall url', url' <> url ->
     get (set this url entry) url' = get this url' /\
     get (delete this url) url' = get this url') /\
  (forall url' i',
     getMP4Chunk (set this url entry) url' i' = getMP4Chunk this url' i' /\
     getMP4Chunk (delete this url) url' i' = getMP4Chunk this url' i') /\
  (forall url',
     get (setMP4Chunk this url i entry) url' = get this url' /\
     get (deleteMP4Chunk this url i) url' = get this url') /\
  (forall url' i', (url', i') <> (url, i) ->
     getMP4Chunk (setMP4Chunk this url i entry) url' i' = getMP4Chunk this url' i' /\
     getMP4Chunk (deleteMP4Chunk this url i) url' i' = getMP4Chunk this url' i').
Proof.
  split; [|split; [|split]].
  - intros url' Hne. rewrite !get_textAt, textAt_set, textAt_delete.
    rewrite !decide_False; [now split| |];
      intros E; apply getCacheKey_inj in E; congruence.
  - intros url' i'. rewrite !getMP4Chunk_textAt, textAt_set, textAt_delete.
    rewrite !decide_False; [now split| |];
      intros E; symmetry in E; now apply keys_apart in E.
  - intros url'. rewrite !get_textAt, textAt_setMP4Chunk, textAt_deleteMP4Chunk.
    rewrite !decide_False; [now split| |];
      intros E; now apply keys_apart in E.
  - intros url' i' Hne.
    rewrite !getMP4Chunk_textAt, textAt_setMP4Chunk, textAt_deleteMP4Chunk.
    rewrite !decide_False; [now split| |];
      intros E; apply getMP4ChunkKey_inj in E as [-> ->]; congruence.
Qed.

(** X9. A deleted entry is gone: after [delete] the segment misses, after
    [deleteMP4Chunk] the chunk misses, whatever the store held and whether
    or not the client is connected. *)
Theorem warm_tier_delete_misses (this : RedisCache) (url : string) (i : Z) :
  get (delete this url) url = None /\
  getMP4Chunk (deleteMP4Chunk this url i) url i = None.
Proof.
  split.
  - rewrite get_textAt, textAt_delete. now rewrite decide_True.
  - rewrite getMP4Chunk_textAt, textAt_deleteMP4Chunk. now rewrite decide_True.
Qed.

Lemma routeCacheDisabled_set config rc url entry :
  routeCacheDisabled config (set rc url entry) = routeCacheDisabled config rc.
Proof.
  unfold routeCacheDisabled, isCacheDisabled, WarmTier.set.
  now destruct rc as [[store|] [] enabled].
Qed.


(** X11. The guard of the segment route.  The route treats the warm tier
    as disabled exactly when the flag of the configuration is set, Redis
    is not enabled or the client is not connected; and then it neither
    reads nor writes it: the lookup misses whatever the store holds, and
    the store step leaves the cache object as it is. *)
Theorem route_guard (config : Config) (rc : RedisCache) :
  (routeCacheDisabled config rc = true <->
   DISABLE_CACHE config = true \/ redisEnabled rc = false \/
   isConnected rc = false) /\
  (routeCacheDisabled config rc = true ->
   forall url entry,
     routeLookup config rc url = None /\
     routeStore config rc url entry = rc).
Proof.
  split.
  - unfold routeCacheDisabled, isCacheDisabled, DISABLE_TS_CACHE.
    destruct (DISABLE_CACHE config), (redisEnabled rc), (isConnected rc);
      cbn; intuition congruence.
  - intros H url entry. unfold WarmTier.routeLookup, WarmTier.routeStore.
    now rewrite H.
Qed.

End Platform.

Lemma warm_tier_frame_witness :
  WarmTier.get Sample.JSON_parse Sample.gunzip Sample.fromBase64
    (WarmTier.set Sample.JSON_stringify Sample.gzip
       (Sample.connected Sample.legacyText) "http://host/a/seg2.ts" Sample.entry)
    Sample.segmentUrl
  = WarmTier.get Sample.JSON_parse Sample.gunzip Sample.fromBase64
      (Sample.connected Sample.legacyText) Sample.segmentUrl.
Proof.
  destruct (warm_tier_frame Sample.JSON_parse Sample.JSON_stringify Sample.gzip
              Sample.gunzip Sample.fromBase64 (Sample.connected Sample.legacyText)
              "http://host/a/seg2.ts" 0 Sample.entry) as [Hseg _].
  assert (Sample.segmentUrl <> "http://host/a/seg2.ts") as Hne by discriminate.
  destruct (Hseg Sample.segmentUrl Hne) as [Hset _]. exact Hset.
Defined.

Lemma warm_tier_round_trip_witness :
  WarmTier.get Sample.JSON_parse Sample.gunzip Sample.fromBase64
    (WarmTier.set Sample.JSON_stringify Sample.gzip
       (Sample.connected Sample.legacyText) Sample.segmentUrl Sample.entry)
    Sample.segmentUrl
  = Some Sample.entry.
Proof.
  assert (WarmChunks.faithful Sample.JSON_parse Sample.JSON_stringify
            Sample.gzip Sample.gunzip Sample.fromBase64 Sample.entry) as Hcodec
    by (repeat split; vm_compute; reflexivity).
  destruct (warm_tier_round_trip Sample.JSON_parse Sample.JSON_stringify
              Sample.gzip Sample.gunzip Sample.fromBase64
              (Sample.connected Sample.legacyText)
              (Sample.storeWith Sample.legacyText) Sample.segmentUrl 0
              Sample.entry eq_refl eq_refl Hcodec) as [Hget _].
  exact Hget.
Defined.


Lemma route_guard_witness :
  WarmTier.routeLookup Sample.JSON_parse Sample.gunzip Sample.fromBase64
    (mkConfig true) (Sample.connected Sample.legacyText) Sample.segmentUrl
  = None.
Proof.
  destruct (route_guard Sample.JSON_parse Sample.JSON_stringify Sample.gzip
              Sample.gunzip Sample.fromBase64 (mkConfig true)
              (Sample.connected Sample.legacyText)) as [_ Hoff].
  destruct (Hoff eq_refl Sample.segmentUrl Sample.entry) as [Hlook _].
  exact Hlook.
Defined.

End WarmStoreFacts.

(** ** The cache counters *)

Module AnalyticsFacts.
Import Analytics.

(** One event counts as one request, a hit or a miss, and adds its size
    to the bytes served. *)
Lemma record_counters this e :
  totalRequests (record this e) = totalRequests this + 1 /\
  hits (record this e) + misses (record this e) = hits this + misses this + 1 /\
  hits this <= hits (record this e) /\ misses this <= misses (record this e) /\
  totalUncompressedBytes (record this e)
    = totalUncompressedBytes this + byteLength e.
Proof. destruct e; cbn; repeat split; lia. Qed.

Lemma record_compressed this e :
  0 <= byteLength e ->
  0 <= totalCompressedBytes this ->
  4 * totalCompressedBytes this <= totalUncompressedBytes this ->
  0 <= totalCompressedBytes (record this e) /\
  4 * totalCompressedBytes (record this e)
    <= totalUncompressedBytes (record this e).
Proof.
  destruct e as [n|n]; cbn; intros Hn H0 H4; [lia|].
  pose proof (Z.div_pos n 4 Hn ltac:(lia)).
  pose proof (Z.mul_div_le n 4 ltac:(lia)). lia.
Qed.

Lemma replay_from es : forall this,
  Forall (fun e => 0 <= byteLength e) es ->
  0 <= hits this -> 0 <= misses this ->
  totalRequests this = hits this + misses this ->
  0 <= totalCompressedBytes this ->
  4 * totalCompressedBytes this <= totalUncompressedBytes this ->
  let final := fold_left record es this in
  totalRequests final = totalRequests this + Z.of_nat (length es) /\
  totalRequests final = hits final + misses final /\
  0 <= hits final /\ 0 <= misses final /\
  0 <= totalCompressedBytes final /\
  4 * totalCompressedBytes final <= totalUncompressedBytes final.
Proof.
  induction es as [|e es IH]; intros this Hall Hh Hm Ht Hc H4; cbn [fold_left].
  - cbn. repeat split; lia.
  - inversion Hall as [|? ? He Hes]; subst.
    pose proof (record_counters this e) as (R1 & R2 & R3 & R4 & _).
    pose proof (record_compressed this e He Hc H4) as (C1 & C2).
    specialize (IH (record this e) Hes ltac:(lia) ltac:(lia) ltac:(lia) C1 C2).
    cbn zeta in IH. destruct IH as (I1 & I2 & I3 & I4 & I5 & I6).
    cbn zeta. rewrite I1, R1. cbn [length].
    repeat split; try assumption; lia.
Qed.

(** X12. The counters of the cache, as the segment route drives them.
    After any sequence of hits and stores, the number of requests is the
    number of events and the sum of hits and misses; and the estimate of
    the compressed size never exceeds a quarter of the bytes served, so
    whenever [getStats] divides by the uncompressed total (it does when
    the compressed total is positive) that total is positive, and the
    hit rate and the average are computed only for a positive number of
    requests. *)
Theorem counters_consistent (es : list event)
  (Hsizes : Forall (fun e => 0 <= byteLength e) es) :
  let stats := replay es in
  totalRequests stats = Z.of_nat (length es) /\
  totalRequests stats = hits stats + misses stats /\
  0 <= hits stats <= totalRequests stats /\
  4 * totalCompressedBytes stats <= totalUncompressedBytes stats /\
  (dividesByUncompressed stats = true -> 0 < totalUncompressedBytes stats) /\
  (dividesByRequests stats = true <-> es <> []).
Proof.
  intros stats. subst stats. unfold replay.
  destruct (replay_from es initial Hsizes) as (H1 & H2 & H3 & H4 & H5 & H6);
    try (cbn; lia).
  cbn zeta in *. change (totalRequests initial) with 0 in H1.
  repeat split; try lia.
  - unfold dividesByUncompressed. intros H. lia.
  - unfold dividesByRequests. intros H ->. cbn in H. discriminate.
  - unfold dividesByRequests. intros Hne. destruct es; [congruence|].
    cbn [length] in H1. lia.
Qed.

Lemma counters_consistent_witness :
  totalRequests (replay [Stored 1000; Served 1000; Served 1000]) = 3 /\
  hits (replay [Stored 1000; Served 1000; Served 1000]) = 2 /\
  totalCompressedBytes (replay [Stored 1000; Served 1000; Served 1000]) = 250.
Proof.
  assert (Forall (fun e => 0 <= byteLength e)
            [Stored 1000; Served 1000; Served 1000]) as Hsizes
    by (repeat constructor; cbn; lia).
  destruct (counters_consistent _ Hsizes) as (Hn & _).
  split; [exact Hn|]. split; reflexivity.
Defined.

End AnalyticsFacts.

(** ** Prefetching the windows of a file *)

Module PrefetchFacts.
Import JS JSFacts Range RangeFacts NumberTextFacts HotTier HotTierFacts
  Chunks ChunksFacts Prefetch.

Lemma ceilDiv_unique a b q : 0 < b -> (q - 1) * b < a <= q * b -> ceilDiv a b = q.
Proof. intros Hb Hq. pose proof (ceilDiv_spec a b Hb). nia. Qed.

Section TierFacts.

Variable CACHE_MAX_SIZE : Z.
Variable CACHE_EXPIRY_MS : Z.
Variable CHUNK_SIZE : Z.
Hypothesis Hmax : 0 <= CACHE_MAX_SIZE.
Hypothesis Hchunk : 0 < CHUNK_SIZE.

#[local] Abbreviation cleanupCache := (cleanupCache CACHE_MAX_SIZE CACHE_EXPIRY_MS).
#[local] Abbreviation begin := (begin CACHE_MAX_SIZE CACHE_EXPIRY_MS).
#[local] Abbreviation beginAll := (beginAll CACHE_MAX_SIZE CACHE_EXPIRY_MS).
#[local] Abbreviation windowsFrom := (windowsFrom CHUNK_SIZE).

(** A call that runs to its end without another one in between is its
    two halves in a row. *)
Lemma prefetch_two_halves disabled t0 t1 t2 url start end_ resp m :
  prefetchMP4Chunk CACHE_MAX_SIZE CACHE_EXPIRY_MS disabled t0 t1 t2 url
    start end_ resp m
  = (if snd (begin disabled t0 t1 url start end_ m)
     then finish t2 url start end_ resp (fst (begin disabled t0 t1 url start end_ m))
     else fst (begin disabled t0 t1 url start end_ m)).
Proof.
  unfold prefetchMP4Chunk, Prefetch.begin, finish.
  destruct disabled; [reflexivity|]. cbv zeta. cbn [fst snd].
  destruct (match map_get _ _ with Some _ => _ | None => _ end); reflexivity.
Qed.

Lemma cleanupCache_shrinks now m :
  List.NoDup (keys m) -> map_size (cleanupCache now m) <= map_size m.
Proof.
  intros Hnd. unfold HotTier.cleanupCache.
  rewrite (evictOldest_size CACHE_MAX_SIZE) by
    (try assumption; now apply sweepExpired_NoDup).
  rewrite sweepExpired_filter by assumption.
  unfold map_size.
  pose proof (filter_length_le
                (fun kv => negb (expired CACHE_EXPIRY_MS now (snd kv))) m).
  lia.
Qed.

(** The first half stores nothing. *)
Lemma begin_size disabled t0 t1 url start end_ m :
  List.NoDup (keys m) ->
  List.NoDup (keys (fst (begin disabled t0 t1 url start end_ m))) /\
  map_size (fst (begin disabled t0 t1 url start end_ m)) <= map_size m.
Proof.
  intros Hnd. unfold Prefetch.begin.
  destruct disabled; cbn [fst]; [split; [assumption|lia]|].
  destruct (map_size m >=? CACHE_MAX_SIZE).
  - split; [now apply cleanupCache_NoDup | now apply cleanupCache_shrinks].
  - split; [assumption|lia].
Qed.

Lemma beginAll_size now url ws : forall m,
  List.NoDup (keys m) ->
  List.NoDup (keys (fst (beginAll now url ws m))) /\
  map_size (fst (beginAll now url ws m)) <= map_size m /\
  (length (snd (beginAll now url ws m)) <= length ws)%nat.
Proof.
  induction ws as [|[start end_] ws IH]; intros m Hnd; cbn [Prefetch.beginAll].
  - cbn. repeat split; [assumption|lia|lia].
  - destruct (begin_size false now now url start end_ m Hnd) as [Hnd1 Hs1].
    destruct (begin false now now url start end_ m) as [m1 go].
    cbn [fst] in Hnd1, Hs1.
    destruct (IH m1 Hnd1) as (Hnd2 & Hs2 & Hl2).
    destruct (beginAll now url ws m1) as [m2 waiting].
    cbn [fst snd] in *. repeat split; [assumption|lia|].
    destruct go; cbn [length]; lia.
Qed.

(** Every fetch that comes back adds one entry at most. *)
Lemma settleAll_size arrivals : forall m,
  map_size (settleAll arrivals m) <= map_size m + Z.of_nat (length arrivals).
Proof.
  unfold settleAll.
  induction arrivals as [|[[p t2] resp] arrivals IH]; intros m; cbn [fold_left length].
  - lia.
  - specialize (IH (settle m (p, t2, resp))).
    assert (map_size (settle m (p, t2, resp)) <= map_size m + 1) as H1.
    { unfold settle, finish. destruct resp as [[body hs]|]; [|lia].
      unfold map_size. pose proof (map_set_length
        (chunkKey (p_url p) (rangeText (p_start p) (p_end p)))
        (mkEntry body hs t2 (Some (rangeText (p_start p) (p_end p)))) m). lia. }
    lia.
Qed.

(** *** The loop over the windows *)

Lemma windowsFrom_nth maxBytes contentLength fuel : forall start k,
  (k < fuel)%nat -> start + Z.of_nat k * CHUNK_SIZE < maxBytes ->
  nth_error (windowsFrom fuel start maxBytes contentLength) k
  = Some (start + Z.of_nat k * CHUNK_SIZE,
          Z.min (start + Z.of_nat k * CHUNK_SIZE + CHUNK_SIZE - 1)
                (contentLength - 1)).
Proof.
  induction fuel as [|fuel IH]; intros start k Hk Hlt; [lia|].
  cbn [Prefetch.windowsFrom].
  destruct (start <? maxBytes) eqn:E; [|nia].
  destruct k as [|k]; cbn [nth_error].
  - f_equal. f_equal; lia.
  - rewrite IH by lia. f_equal. f_equal; lia.
Qed.

Lemma windowsFrom_length maxBytes contentLength fuel : forall start,
  maxBytes - start <= Z.of_nat fuel * CHUNK_SIZE ->
  Z.of_nat (length (windowsFrom fuel start maxBytes contentLength))
  = Z.max 0 (ceilDiv (maxBytes - start) CHUNK_SIZE).
Proof.
  induction fuel as [|fuel IH]; intros start Hfuel.
  - cbn [Prefetch.windowsFrom length].
    pose proof (ceilDiv_spec (maxBytes - start) CHUNK_SIZE Hchunk). nia.
  - cbn [Prefetch.windowsFrom].
    pose proof (ceilDiv_spec (maxBytes - start) CHUNK_SIZE Hchunk) as Hc.
    destruct (start <? maxBytes) eqn:E.
    + cbn [length]. rewrite Nat2Z.inj_succ, IH by nia.
      rewrite (ceilDiv_unique (maxBytes - (start + CHUNK_SIZE)) CHUNK_SIZE
                 (ceilDiv (maxBytes - start) CHUNK_SIZE - 1)) by nia.
      nia.
    + cbn [length]. nia.
Qed.

Lemma windows_length contentLength :
  Z.of_nat (length (windows CHUNK_SIZE contentLength))
  = Z.max 0 (ceilDiv (maxPrefetchBytes contentLength) CHUNK_SIZE).
Proof.
  unfold windows.
  rewrite windowsFrom_length; [now rewrite Z.sub_0_r|].
  rewrite Z.sub_0_r.
  set (mx := maxPrefetchBytes contentLength).
  destruct (Z_le_dec 0 mx) as [Hpos|Hneg].
  - rewrite Nat2Z.inj_succ, Z2Nat.id by (apply Z.div_pos; lia).
    pose proof (Z.div_mod mx CHUNK_SIZE ltac:(lia)).
    pose proof (Z.mod_pos_bound mx CHUNK_SIZE Hchunk). nia.
  - nia.
Qed.

Lemma windows_nth contentLength k start end_ :
  nth_error (windows CHUNK_SIZE contentLength) k = Some (start, end_) ->
  start = Z.of_nat k * CHUNK_SIZE /\
  end_ = Z.min (start + CHUNK_SIZE - 1) (contentLength - 1) /\
  start < maxPrefetchBytes contentLength.
Proof.
  intros Hn.
  assert (k < length (windows CHUNK_SIZE contentLength))%nat as Hk
    by (apply nth_error_Some; congruence).
  pose proof (windows_length contentLength) as Hlen.
  pose proof (ceilDiv_spec (maxPrefetchBytes contentLength) CHUNK_SIZE Hchunk)
    as Hc.
  assert (Z.of_nat k * CHUNK_SIZE < maxPrefetchBytes contentLength) as Hlt by nia.
  unfold windows in Hn, Hk.
  assert (k < S (Z.to_nat (maxPrefetchBytes contentLength / CHUNK_SIZE)))%nat
    as Hfuel.
  { eapply Nat.lt_le_trans; [exact Hk|].
    clear. generalize (S (Z.to_nat (maxPrefetchBytes contentLength / CHUNK_SIZE))).
    intros fuel. generalize 0.
    induction fuel as [|fuel IH]; intros start; cbn [Prefetch.windowsFrom length];
      [lia|].
    destruct (start <? maxPrefetchBytes contentLength); cbn [length]; [|lia].
    specialize (IH (start + CHUNK_SIZE)). lia. }
  rewrite (windowsFrom_nth _ _ _ 0 k Hfuel) in Hn by lia.
  injection Hn as <- <-. repeat split; lia.
Qed.

End TierFacts.

(** X13. The windows [prefetchMP4Chunks] asks for: for a file of
    positive length they are the consecutive 10 MB windows of its first
    100 MB, ten at most; window [k] starts at [k * CHUNK_SIZE], ends
    inside the file, and its [Range] text is one the range parser accepts
    for this length; a file without content is asked for nothing. *)
Theorem prefetch_windows (contentLength : Z) :
  (0 < contentLength ->
   Z.of_nat (length (Mp4.windows contentLength))
     = ceilDiv (Z.min contentLength (100 * 1024 * 1024)) Chunk.CHUNK_SIZE /\
   (1 <= length (Mp4.windows contentLength) <= 10)%nat /\
   forall k start end_,
     nth_error (Mp4.windows contentLength) k = Some (start, end_) ->
     start = Z.of_nat k * Chunk.CHUNK_SIZE /\
     end_ = Z.min (start + Chunk.CHUNK_SIZE - 1) (contentLength - 1) /\
     0 <= start <= end_ /\ end_ < contentLength /\
     parseRangeHeader (rangeText start end_) contentLength
       = Some (mkRange start end_)) /\
  (contentLength <= 0 -> Mp4.windows contentLength = []).
Proof.
  assert (0 < Chunk.CHUNK_SIZE) as Hchunk by reflexivity.
  pose proof (windows_length Chunk.CHUNK_SIZE Hchunk contentLength) as Hlen.
  pose proof (ceilDiv_spec (maxPrefetchBytes contentLength) Chunk.CHUNK_SIZE
                Hchunk) as Hc.
  fold (Mp4.windows contentLength) in Hlen.
  unfold maxPrefetchBytes in *.
  change Chunk.CHUNK_SIZE with 10485760 in *.
  split.
  - intros Hpos. split; [lia|]. split; [lia|].
    intros k start end_ Hn.
    apply (windows_nth Chunk.CHUNK_SIZE Hchunk) in Hn as (Hs & He & Hlt).
    unfold maxPrefetchBytes in Hlt. change Chunk.CHUNK_SIZE with 10485760 in *.
    assert (0 <= start <= end_ /\ end_ < contentLength) as Hw by lia.
    repeat split; try lia.
    apply Mp4RouteFacts.parseRangeHeader_rangeText; lia.
  - intros Hneg. destruct (Mp4.windows contentLength); [reflexivity|].
    cbn [length] in Hlen. lia.
Qed.

Lemma prefetch_windows_witness :
  Mp4.windows 25000000
  = [(0, 10485759); (10485760, 20971519); (20971520, 24999999)] /\
  parseRangeHeader (rangeText 20971520 24999999) 25000000
  = Some (mkRange 20971520 24999999).
Proof.
  destruct (prefetch_windows 25000000) as [Hpos _].
  destruct (Hpos ltac:(lia)) as (_ & _ & Hnth).
  split; [vm_compute; reflexivity|].
  destruct (Hnth 2%nat 20971520 24999999) as (_ & _ & _ & _ & Hp);
    [vm_compute; reflexivity|exact Hp].
Defined.

(** X14. How far the chunk cache can grow while a prefetch is under way.
    The calls of one [prefetchMP4Chunks] all pass the size guard before
    any of them stores, so the guard bounds the map only at that moment:
    after the synchronous part the map holds at most [CACHE_MAX_SIZE]
    entries and at most ten calls wait for their fetch, and when the
    fetches have come back, in any order and with any answers, the map
    holds at most [CACHE_MAX_SIZE + 10].  The bound is reached: on a
    full cache of fresh entries, the ten windows of a 100 MB file leave
    510 entries.  A call that runs alone is its two halves in a row. *)
Theorem prefetch_overshoot :
  (forall m now url contentLength m' waiting arrivals,
     List.NoDup (keys m) ->
     Mp4.launch false now url contentLength m = (m', waiting) ->
     (length arrivals <= length waiting)%nat ->
     map_size m' <= Chunk.CACHE_MAX_SIZE /\
     (length waiting <= 10)%nat /\
     map_size (settleAll arrivals m') <= Chunk.CACHE_MAX_SIZE + 10) /\
  (map_size (filled 500 1) = Chunk.CACHE_MAX_SIZE /\
   map_size
     (settleAll
        (answered 0
           (snd (Mp4.launch false 0 "http://host/v0.mp4" (100 * 1024 * 1024)
                   (filled 500 1))))
        (fst (Mp4.launch false 0 "http://host/v0.mp4" (100 * 1024 * 1024)
                (filled 500 1))))
   = Chunk.CACHE_MAX_SIZE + 10) /\
  (forall disabled t0 t1 t2 url start end_ resp m,
     Chunk.prefetchMP4Chunk disabled t0 t1 t2 url start end_ resp m
     = (if snd (begin Chunk.CACHE_MAX_SIZE Chunk.CACHE_EXPIRY_MS disabled
                  t0 t1 url start end_ m)
        then finish t2 url start end_ resp
               (fst (begin Chunk.CACHE_MAX_SIZE Chunk.CACHE_EXPIRY_MS disabled
                       t0 t1 url start end_ m))
        else fst (begin Chunk.CACHE_MAX_SIZE Chunk.CACHE_EXPIRY_MS disabled
                    t0 t1 url start end_ m))).
Proof.
  split; [|split].
  - intros m now url contentLength m' waiting arrivals Hnd Hlaunch Harr.
    unfold Mp4.launch, launch in Hlaunch.
    assert (0 <= Chunk.CACHE_MAX_SIZE) as Hmax by (cbv; discriminate).
    pose proof (cleanupCache_NoDup Chunk.CACHE_MAX_SIZE Chunk.CACHE_EXPIRY_MS
                  now m Hnd) as Hnd0.
    pose proof (cleanupCache_size Chunk.CACHE_MAX_SIZE Chunk.CACHE_EXPIRY_MS
                  now m Hmax Hnd) as Hs0.
    pose proof (beginAll_size Chunk.CACHE_MAX_SIZE Chunk.CACHE_EXPIRY_MS Hmax
                  now url (windows Chunk.CHUNK_SIZE contentLength) _ Hnd0)
      as (_ & Hs1 & Hl1).
    rewrite Hlaunch in Hs1, Hl1. cbn [fst snd] in Hs1, Hl1.
    assert (length (windows Chunk.CHUNK_SIZE contentLength) <= 10)%nat as Hw.
    { pose proof (windows_length Chunk.CHUNK_SIZE ltac:(reflexivity)
                    contentLength) as Hlen.
      pose proof (ceilDiv_spec (maxPrefetchBytes contentLength) Chunk.CHUNK_SIZE
                    ltac:(reflexivity)) as Hc.
      unfold maxPrefetchBytes in *. change Chunk.CHUNK_SIZE with 10485760 in *.
      lia. }
    pose proof (settleAll_size arrivals m') as Hs2.
    repeat split; lia.
  - vm_compute. split; reflexivity.
  - intros. apply prefetch_two_halves.
Qed.

Lemma prefetch_overshoot_witness :
  map_size
    (settleAll
       (answered 0 (snd (Mp4.launch false 0 "http://host/v0.mp4" 25000000 [])))
       (fst (Mp4.launch false 0 "http://host/v0.mp4" 25000000 [])))
  <= Chunk.CACHE_MAX_SIZE + 10.
Proof.
  destruct prefetch_overshoot as [Hbound _].
  destruct (Hbound [] 0 "http://host/v0.mp4" 25000000
              (fst (Mp4.launch false 0 "http://host/v0.mp4" 25000000 []))
              (snd (Mp4.launch false 0 "http://host/v0.mp4" 25000000 []))
              (answered 0
                 (snd (Mp4.launch false 0 "http://host/v0.mp4" 25000000 []))))
    as (_ & _ & H).
  - constructor.
  - apply surjective_pairing.
  - unfold answered. rewrite length_map. lia.
  - exact H.
Defined.

End PrefetchFacts.

(** ** The hot tier as a store *)

Module HotStoreFacts.
Import JS JSFacts HotTier HotTierFacts.

Lemma map_get_set_eq k v m : map_get k (map_set k v m) = Some v.
Proof.
  induction m as [|[k' v'] m IH]; cbn [map_set map_get].
  - now rewrite String.eqb_refl.
  - destruct (String.eqb k' k) eqn:E; cbn [map_get].
    + now rewrite String.eqb_refl.
    + now rewrite E.
Qed.

Lemma map_get_set_ne k k' v m : k' <> k -> map_get k' (map_set k v m) = map_get k' m.
Proof.
  intros Hne. induction m as [|[k0 v0] m IH]; cbn [map_set map_get].
  - apply String.eqb_neq in Hne. rewrite String.eqb_sym. now rewrite Hne.
  - destruct (String.eqb k0 k) eqn:E; cbn [map_get].
    + apply String.eqb_eq in E. subst k0.
      apply String.eqb_neq in Hne. rewrite String.eqb_sym in Hne.
      now rewrite Hne.
    + now rewrite IH.
Qed.

Lemma map_get_In k v m : map_get k m = Some v -> In (k, v) m.
Proof.
  induction m as [|[k' v'] m IH]; cbn [map_get]; [discriminate|].
  destruct (String.eqb k' k) eqn:E.
  - apply String.eqb_eq in E. intros H. injection H as <-. subst. now left.
  - intros H. right. now apply IH.
Qed.

Lemma In_map_get k v m : List.NoDup (keys m) -> In (k, v) m -> map_get k m = Some v.
Proof.
  induction m as [|[k' v'] m IH]; intros Hnd Hin; [destruct Hin|].
  inversion Hnd as [|? ? Hnotin Hnd']; subst. cbn [map_get].
  destruct Hin as [E|Hin].
  - injection E as -> ->. now rewrite String.eqb_refl.
  - destruct (String.eqb k' k) eqn:E; [|now apply IH].
    apply String.eqb_eq in E. subst k'. exfalso. apply Hnotin.
    unfold keys. apply in_map_iff. now exists (k, v).
Qed.

Lemma map_get_None k m : map_get k m = None <-> ~ In k (keys m).
Proof.
  induction m as [|[k' v'] m IH]; cbn [map_get keys List.map fst].
  - split; [intros _ []|reflexivity].
  - destruct (String.eqb k' k) eqn:E.
    + apply String.eqb_eq in E. subst. split; [discriminate|].
      intros H. exfalso. apply H. now left.
    + apply String.eqb_neq in E. rewrite IH. fold (keys m). cbn [In]. tauto.
Qed.

Section TierFacts.

Variable CACHE_MAX_SIZE : Z.
Variable CACHE_EXPIRY_MS : Z.
Hypothesis Hmax : 0 <= CACHE_MAX_SIZE.

#[local] Abbreviation expired := (expired CACHE_EXPIRY_MS).
#[local] Abbreviation sweepExpired := (sweepExpired CACHE_EXPIRY_MS).
#[local] Abbreviation evictOldest := (evictOldest CACHE_MAX_SIZE).
#[local] Abbreviation cleanupCache := (cleanupCache CACHE_MAX_SIZE CACHE_EXPIRY_MS).

Lemma evictOldest_incl m kv :
  List.NoDup (keys m) -> In kv (evictOldest m) -> In kv m.
Proof.
  intros Hnd Hin.
  destruct (Z_lt_dec CACHE_MAX_SIZE (map_size m)) as [Hgt|Hle].
  - pose proof (evictOldest_kept CACHE_MAX_SIZE m Hnd Hgt) as P.
    apply (Permutation_in _ P) in Hin.
    apply (Permutation_in _ (sortByTime_perm m)).
    revert Hin. generalize (Z.to_nat (map_size m - CACHE_MAX_SIZE)).
    generalize (sortByTime m). clear.
    intros l n. revert l. induction n as [|n IH]; intros l Hin; [assumption|].
    destruct l as [|x l]; [destruct Hin|]. right. now apply IH.
  - unfold HotTier.evictOldest in Hin.
    destruct (map_size m >? CACHE_MAX_SIZE) eqn:E; [lia|assumption].
Qed.

Lemma evictOldest_within m :
  map_size m <= CACHE_MAX_SIZE -> evictOldest m = m.
Proof.
  intros H. unfold HotTier.evictOldest.
  destruct (map_size m >? CACHE_MAX_SIZE) eqn:E; [lia|reflexivity].
Qed.

(** X15. What a sweep leaves.  On a map without a key twice, after
    [cleanupCache] at instant [now]: no key is twice; at most
    [CACHE_MAX_SIZE] entries are left; every entry left was there before
    and is within the TTL; an entry within the TTL is dropped only when
    the map is left at full capacity, and then it is not younger than
    any entry kept; when the entries within the TTL fit the capacity they
    are all kept, in their order; and a second sweep at the same instant
    changes nothing. *)
Theorem cleanupCache_postcondition (now : Z) (m : JSMap)
  (Hnd : List.NoDup (keys m)) :
  let live := fun kv : string * CacheEntry =>
                negb (now - timestamp (snd kv) >? CACHE_EXPIRY_MS) in
  let m' := cleanupCache now m in
  List.NoDup (keys m') /\
  map_size m' <= CACHE_MAX_SIZE /\
  (forall kv, In kv m' -> In kv m /\ now - timestamp (snd kv) <= CACHE_EXPIRY_MS) /\
  (forall kv, In kv m -> now - timestamp (snd kv) <= CACHE_EXPIRY_MS ->
     ~ In kv m' ->
     map_size m' = CACHE_MAX_SIZE /\
     forall kept, In kept m' -> timestamp (snd kv) <= timestamp (snd kept)) /\
  (map_size (List.filter live m) <= CACHE_MAX_SIZE -> m' = List.filter live m) /\
  cleanupCache now m' = m'.
Proof.
  intros live m'.
  assert (sweepExpired now m = List.filter live m) as Hsweep
    by (now apply sweepExpired_filter).
  assert (List.NoDup (keys (List.filter live m))) as Hnd1
    by (now apply NoDup_keys_filter).
  assert (m' = evictOldest (List.filter live m)) as Hm'
    by (subst m'; unfold HotTier.cleanupCache; now rewrite Hsweep).
  assert (List.NoDup (keys m')) as Hnd'
    by (subst m'; now apply cleanupCache_NoDup).
  assert (map_size m' <= CACHE_MAX_SIZE) as Hsize
    by (subst m'; now apply cleanupCache_size).
  assert (forall kv, In kv m' ->
            In kv m /\ now - timestamp (snd kv) <= CACHE_EXPIRY_MS) as Hkept.
  { intros kv Hin. rewrite Hm' in Hin.
    apply evictOldest_incl in Hin; [|assumption].
    apply filter_In in Hin as [Hin Hlive]. split; [assumption|].
    unfold live in Hlive. apply negb_true_iff in Hlive. lia. }
  split; [exact Hnd'|]. split; [exact Hsize|]. split; [exact Hkept|].
  split; [|split].
  - intros kv Hin Hage Hout.
    assert (In kv (List.filter live m)) as Hin1.
    { apply filter_In. split; [assumption|]. unfold live.
      apply negb_true_iff. lia. }
    destruct (Z_lt_dec CACHE_MAX_SIZE (map_size (List.filter live m)))
      as [Hgt|Hle].
    + split.
      * rewrite Hm', (evictOldest_size CACHE_MAX_SIZE) by assumption. lia.
      * intros kept Hk. rewrite Hm' in Hk, Hout.
        now apply (evictOldest_oldest CACHE_MAX_SIZE (List.filter live m)).
    + exfalso. apply Hout. rewrite Hm', evictOldest_within by lia. exact Hin1.
  - intros Hfit. rewrite Hm'. now apply evictOldest_within.
  - unfold HotTier.cleanupCache.
    rewrite (sweepExpired_filter CACHE_EXPIRY_MS now m' Hnd').
    rewrite filter_true.
    + now apply evictOldest_within.
    + intros kv Hin. destruct (Hkept kv Hin) as [_ Hage].
      unfold HotTier.expired. apply negb_true_iff. lia.
Qed.

(** X16. What has been prefetched is served.  After a prefetch of a
    window that was not in the map, answered with a body, the chunk is
    served from the cache with that body, those headers and the instant
    of the store for as long as the TTL allows, and reported as a miss
    and deleted afterwards; below capacity the lookups of all other keys
    answer as before; and a fetch that fails stores nothing. *)
Theorem prefetch_then_get
  (t0 t1 t2 now : Z) (url : string) (start end_ : Z)
  (body : list byte) (responseHeaders : list (string * string)) (m : JSMap)
  (Hnd : List.NoDup (keys m))
  (Hnew : map_get (chunkKey url (rangeText start end_)) m = None) :
  let key := chunkKey url (rangeText start end_) in
  let entry := mkEntry body responseHeaders t2 (Some (rangeText start end_)) in
  let m' := prefetchMP4Chunk CACHE_MAX_SIZE CACHE_EXPIRY_MS false t0 t1 t2
              url start end_ (Some (body, responseHeaders)) m in
  (now - t2 <= CACHE_EXPIRY_MS ->
     getCached CACHE_EXPIRY_MS false now key m' = (Some entry, m')) /\
  (CACHE_EXPIRY_MS < now - t2 ->
     getCached CACHE_EXPIRY_MS false now key m' = (None, map_delete key m')) /\
  (map_size m < CACHE_MAX_SIZE ->
     forall key', key' <> key ->
       fst (getCached CACHE_EXPIRY_MS false now key' m')
       = fst (getCached CACHE_EXPIRY_MS false now key' m)) /\
  prefetchMP4Chunk CACHE_MAX_SIZE CACHE_EXPIRY_MS false t0 t1 t2
    url start end_ None m
  = (if map_size m >=? CACHE_MAX_SIZE then cleanupCache t0 m else m).
Proof.
  intros key entry m'.
  set (m1 := if map_size m >=? CACHE_MAX_SIZE then cleanupCache t0 m else m).
  assert (map_get key m1 = None) as Hnew1.
  { subst m1. destruct (map_size m >=? CACHE_MAX_SIZE); [|exact Hnew].
    apply map_get_None. intros Hin. apply map_get_None in Hnew. apply Hnew.
    unfold keys in *. apply in_map_iff in Hin as (kv & Hk & Hin).
    apply in_map_iff. exists kv. split; [assumption|].
    unfold HotTier.cleanupCache in Hin.
    apply evictOldest_incl in Hin; [|now apply sweepExpired_NoDup].
    rewrite sweepExpired_filter in Hin by assumption.
    now apply filter_In in Hin as [? _]. }
  assert (m' = map_set key entry m1) as Hm'.
  { subst m'. unfold prefetchMP4Chunk. fold m1. fold key. now rewrite Hnew1. }
  assert (map_get key m' = Some entry) as Hget
    by (rewrite Hm'; apply map_get_set_eq).
  split; [|split; [|split]].
  - intros Hage. now apply (getCached_fresh _ _ _ _ entry).
  - intros Hage. now apply (getCached_stale _ _ _ _ entry).
  - intros Hroom key' Hne. unfold getCached.
    assert (m1 = m) as Hm1
      by (subst m1; destruct (map_size m >=? CACHE_MAX_SIZE) eqn:E; [lia|reflexivity]).
    rewrite Hm', Hm1, map_get_set_ne by assumption.
    destruct (map_get key' m) as [e|]; [|reflexivity].
    now destruct (now - timestamp e >? CACHE_EXPIRY_MS).
  - unfold prefetchMP4Chunk. fold m1. fold key. now rewrite Hnew1.
Qed.

End TierFacts.

Lemma cleanupCache_postcondition_witness :
  Segment.cleanupCache (Segment.CACHE_EXPIRY_MS + 1) Segment.oneSegment = [] /\
  Segment.cleanupCache Segment.CACHE_EXPIRY_MS Segment.oneSegment
  = Segment.oneSegment.
Proof.
  assert (List.NoDup (keys Segment.oneSegment)) as Hnd
    by (repeat constructor; intros []).
  assert (0 <= Segment.CACHE_MAX_SIZE) as Hmax
    by (unfold Segment.CACHE_MAX_SIZE; lia).
  split.
  - destruct (cleanupCache_postcondition Segment.CACHE_MAX_SIZE
                Segment.CACHE_EXPIRY_MS Hmax
                (Segment.CACHE_EXPIRY_MS + 1) Segment.oneSegment Hnd)
      as (_ & _ & _ & _ & Hfit & _).
    apply Hfit. vm_compute. discriminate.
  - destruct (cleanupCache_postcondition Segment.CACHE_MAX_SIZE
                Segment.CACHE_EXPIRY_MS Hmax
                Segment.CACHE_EXPIRY_MS Segment.oneSegment Hnd)
      as (_ & _ & _ & _ & Hfit & _).
    apply Hfit. vm_compute. discriminate.
Defined.

Lemma prefetch_then_get_witness :
  Chunk.getCachedChunk false 5 "http://host/v0.mp4" (rangeText 0 99)
    (Chunk.prefetchMP4Chunk false 0 0 0 "http://host/v0.mp4" 0 99
       (Some ([], [])) [])
  = (Some (mkEntry [] [] 0 (Some (rangeText 0 99))),
     Chunk.prefetchMP4Chunk false 0 0 0 "http://host/v0.mp4" 0 99
       (Some ([], [])) []).
Proof.
  destruct (prefetch_then_get Chunk.CACHE_MAX_SIZE Chunk.CACHE_EXPIRY_MS
              0 0 0 5 "http://host/v0.mp4" 0 99 [] [] []
              ltac:(constructor) eq_refl) as (Hfresh & _).
  apply Hfresh. vm_compute. discriminate.
Defined.

End HotStoreFacts.

(** ** The adaptive MP4 route *)

Module AdaptiveFacts.
Import JS JSFacts Range RangeFacts NumberTextFacts Chunks ChunksFacts Adaptive.

(** *** Slices of a file *)

Lemma firstn_add {A} (n1 n2 : nat) (l : list A) :
  firstn (n1 + n2) l = (firstn n1 l ++ firstn n2 (skipn n1 l))%list.
Proof.
  revert l. induction n1 as [|n1 IH]; intros l; [reflexivity|].
  destruct l as [|x l]; cbn [Nat.add firstn skipn app].
  - now rewrite firstn_nil.
  - now rewrite IH.
Qed.

(** Two windows that follow each other make one. *)
Lemma slice_app file a b c :
  0 <= a -> a <= b + 1 -> b <= c ->
  (slice file a b ++ slice file (b + 1) c)%list = slice file a c.
Proof.
  intros Ha Hab Hbc. unfold slice.
  replace (Z.to_nat (c - a + 1))
    with (Z.to_nat (b - a + 1) + Z.to_nat (c - (b + 1) + 1))%nat by lia.
  rewrite firstn_add. f_equal. f_equal.
  rewrite List.skipn_skipn. f_equal. lia.
Qed.

Lemma slice_empty file a b : b < a -> slice file a b = [].
Proof. intros H. unfold slice. now replace (Z.to_nat (b - a + 1)) with 0%nat by lia. Qed.

Lemma slice_length file a b :
  0 <= a -> a <= b + 1 -> b < Z.of_nat (length file) ->
  Z.of_nat (length (slice file a b)) = b - a + 1.
Proof.
  intros Ha Hab Hb. unfold slice.
  rewrite List.length_firstn, List.length_skipn. lia.
Qed.

Section Segments.

Variable SEGMENT_SIZE : Z.
Hypothesis Hseg : 0 < SEGMENT_SIZE.

#[local] Abbreviation segmentWindow := (segmentWindow SEGMENT_SIZE).

#[local] Abbreviation upTo := (upTo SEGMENT_SIZE).

Lemma honest_answer file a b : honest file a b = Some (slice file a b).
Proof. reflexivity. Qed.

Lemma progressiveLoop_honest file total s n : forall i,
  0 <= s + i ->
  List.concat (progressiveLoop SEGMENT_SIZE (honest file) total s n i)
  = slice file ((s + i) * SEGMENT_SIZE) (upTo total (s + i + Z.of_nat n)) /\
  length (progressiveLoop SEGMENT_SIZE (honest file) total s n i) = n.
Proof.
  induction n as [|n IH]; intros i Hi.
  - cbn [progressiveLoop List.concat length]. split; [|reflexivity].
    symmetry. apply slice_empty. unfold Adaptive.upTo. lia.
  - cbn [progressiveLoop Adaptive.segmentWindow]. rewrite honest_answer.
    cbn [List.concat length].
    destruct (IH (i + 1) ltac:(lia)) as [-> ->]. split; [|reflexivity].
    replace (s + (i + 1) + Z.of_nat n) with (s + i + Z.of_nat (S n)) by lia.
    replace (s + (i + 1)) with (s + i + 1) by lia.
    set (j := s + i) in *. set (m := j + Z.of_nat (S n)).
    unfold Adaptive.upTo.
    destruct (Z_le_dec ((j + 1) * SEGMENT_SIZE) total) as [Hin|Hout].
    + replace (Z.min (j * SEGMENT_SIZE + SEGMENT_SIZE - 1) (total - 1))
        with ((j + 1) * SEGMENT_SIZE - 1) by lia.
      replace ((j + 1) * SEGMENT_SIZE) with ((j + 1) * SEGMENT_SIZE - 1 + 1) at 2
        by lia.
      apply slice_app; subst m; nia.
    + replace (Z.min (j * SEGMENT_SIZE + SEGMENT_SIZE - 1) (total - 1))
        with (total - 1) by lia.
      replace (Z.min (m * SEGMENT_SIZE) total - 1) with (total - 1)
        by (subst m; nia).
      rewrite (slice_empty file ((j + 1) * SEGMENT_SIZE)) by lia.
      apply List.app_nil_r.
Qed.

Lemma progressiveLoop_length fetchRange total s n : forall i,
  (length (progressiveLoop SEGMENT_SIZE fetchRange total s n i) <= n)%nat.
Proof.
  induction n as [|n IH]; intros i; cbn [progressiveLoop Adaptive.segmentWindow length];
    [lia|].
  destruct (fetchRange _ _); cbn [length]; [|lia].
  specialize (IH (i + 1)). lia.
Qed.


Lemma segmentLoop_length target hj total n : forall i,
  length (segmentLoop SEGMENT_SIZE target hj total n i) = n.
Proof. induction n as [|n IH]; intros i; cbn; [reflexivity|]. now rewrite IH. Qed.

Lemma segmentLoop_nth target hj total n : forall i k,
  (k < n)%nat ->
  nth_error (segmentLoop SEGMENT_SIZE target hj total n i) k
  = Some (segmentAt SEGMENT_SIZE target hj total (i + Z.of_nat k)).
Proof.
  induction n as [|n IH]; intros i k Hk; [lia|].
  destruct k as [|k]; cbn [segmentLoop nth_error].
  - now rewrite Z.add_0_r.
  - rewrite IH by lia. do 2 f_equal. lia.
Qed.


End Segments.



(** *** The choice of a handler *)



End AdaptiveFacts.
